(** * URL shortener (src/index.ts): model and verification

    The server keeps its records in one SQLite table [urls], optionally
    mirrored in a Redis cache, and exposes five HTTP routes.  This file
    embeds the handlers, the code generator and the URL normaliser as
    Rocq functions and proves the properties stated for them.

    Conventions of the embedding.
    - A JavaScript string is represented by the bytes of its UTF-8
      encoding: [string] for values that are stored or returned,
      [list ascii] inside the URL parser.
    - [crypto.randomBytes], [new Date()] and the success or failure of
      each Redis call are inputs of the handlers.
    - [new URL(s)] is the parser of the WHATWG URL Standard that Node
      implements; it is transcribed in the module [WHATWG] for every
      input whose scheme is special and not [file], which covers every
      string [normalizeUrl] can pass to it.

    Two earlier versions of the server are modelled besides: the one
    without Redis (module [SqliteOnly]), whose handlers the current
    ones are compared with, and of the first one, which kept its
    records in a JSON file, the function [normalizeUrl] (module
    [JsonFile]). *)

From Stdlib Require Import List Ascii String NArith Bool Lia.
From Stdlib.Strings Require Import Byte.
From stdpp Require Import gmap strings.
Import ListNotations.

Local Open Scope N_scope.

(** ** Characters *)

Module Char.

Definition code (c : ascii) : N := N_of_ascii c.

Definition between (lo hi : N) (c : ascii) : bool :=
  (lo <=? code c) && (code c <=? hi).

Definition is_digit : ascii -> bool := between 48 57.
Definition is_upper : ascii -> bool := between 65 90.
Definition is_lower : ascii -> bool := between 97 122.
Definition is_alpha (c : ascii) : bool := is_upper c || is_lower c.
Definition is_alnum (c : ascii) : bool := is_alpha c || is_digit c.
Definition is_hex (c : ascii) : bool :=
  is_digit c || between 65 70 c || between 97 102 c.
Definition is_ascii (c : ascii) : bool := code c <? 128.

(** ASCII lowercase of one character. *)
Definition lower (c : ascii) : ascii :=
  if is_upper c then ascii_of_N (code c + 32) else c.

(** Value of a digit in radix up to 16; [None] when [c] is no hex digit. *)
Definition digit_value (c : ascii) : option N :=
  if is_digit c then Some (code c - 48)
  else if between 65 70 c then Some (code c - 55)
  else if between 97 102 c then Some (code c - 87)
  else None.

Definition one_of (cs : string) (c : ascii) : bool :=
  existsb (Ascii.eqb c) (list_ascii_of_string cs).

End Char.

(** ** Code generator *)

Definition base64url_alphabet : list ascii :=
  list_ascii_of_string
    "ABCDEFGHIJKLMNOPQRSTUVWXYZabcdefghijklmnopqrstuvwxyz0123456789-_".

Definition base64url_symbol (i : N) : ascii :=
  nth (N.to_nat i) base64url_alphabet "A"%char.

(** [Buffer.toString("base64url")]: three bytes give four symbols, a
    rest of one or two bytes gives two or three, and no padding is
    written. *)
Fixpoint base64url (bs : list byte) : list ascii :=
  match bs with
  | [] => []
  | [a] =>
      let a := Byte.to_N a in
      [ base64url_symbol (N.shiftr a 2);
        base64url_symbol (N.shiftl (N.land a 3) 4) ]
  | [a; b] =>
      let a := Byte.to_N a in
      let b := Byte.to_N b in
      [ base64url_symbol (N.shiftr a 2);
        base64url_symbol (N.lor (N.shiftl (N.land a 3) 4) (N.shiftr b 4));
        base64url_symbol (N.shiftl (N.land b 15) 2) ]
  | a :: b :: c :: rest =>
      let a := Byte.to_N a in
      let b := Byte.to_N b in
      let c := Byte.to_N c in
      base64url_symbol (N.shiftr a 2)
      :: base64url_symbol (N.lor (N.shiftl (N.land a 3) 4) (N.shiftr b 4))
      :: base64url_symbol (N.lor (N.shiftl (N.land b 15) 2) (N.shiftr c 6))
      :: base64url_symbol (N.land c 63)
      :: base64url rest
  end.

(** [s.slice(0, n)] *)
Definition slice0 (n : nat) (s : string) : string := substring 0 n s.

(** The four bytes of one [crypto.randomBytes(4)] call. *)
Definition RandomBytes4 : Type := byte * byte * byte * byte.

Definition generateCode (rnd : RandomBytes4) : string :=
  let '(b0, b1, b2, b3) := rnd in
  slice0 6 (string_of_list_ascii (base64url [b0; b1; b2; b3])).

(** ** List helpers *)

Fixpoint take_while {A} (p : A -> bool) (l : list A) : list A :=
  match l with
  | x :: l' => if p x then x :: take_while p l' else []
  | [] => []
  end.

Fixpoint drop_while {A} (p : A -> bool) (l : list A) : list A :=
  match l with
  | x :: l' => if p x then drop_while p l' else l
  | [] => []
  end.

Definition is_nil {A} (l : list A) : bool :=
  match l with [] => true | _ => false end.

Definition list_eqb (a b : list ascii) : bool :=
  String.eqb (string_of_list_ascii a) (string_of_list_ascii b).

(** Strict split: the separators are dropped and empty items are kept,
    so the result always has one item more than there are separators. *)
Fixpoint split_on (sep : ascii -> bool) (l : list ascii) : list (list ascii) :=
  match l with
  | [] => [[]]
  | c :: l' =>
      if sep c then [] :: split_on sep l'
      else match split_on sep l' with
           | item :: items => (c :: item) :: items
           | [] => [[c]]
           end
  end.

Fixpoint mapM {A B} (f : A -> option B) (l : list A) : option (list B) :=
  match l with
  | [] => Some []
  | x :: l' =>
      match f x, mapM f l' with
      | Some y, Some ys => Some (y :: ys)
      | _, _ => None
      end
  end.

(** ** The URL parser of the platform (WHATWG URL Standard) *)

Module WHATWG.

Import Char.

Definition lit (s : string) : list ascii := list_ascii_of_string s.

(** *** Numbers *)

Definition digit_char (n : N) : ascii :=
  nth (N.to_nat n) (lit "0123456789abcdef") "0"%char.

Definition upper_hex_char (n : N) : ascii :=
  nth (N.to_nat n) (lit "0123456789ABCDEF") "0"%char.

Fixpoint to_radix_fuel (R : N) (fuel : nat) (n : N) (acc : list ascii)
  : list ascii :=
  match fuel with
  | O => acc
  | S fuel' =>
      let acc' := digit_char (n mod R) :: acc in
      if n <? R then acc' else to_radix_fuel R fuel' (n / R) acc'
  end.

(** Shortest representation of [n] in radix [R] (lowercase digits). *)
Definition to_radix (R : N) (n : N) : list ascii :=
  to_radix_fuel R (S (N.size_nat n)) n [].

Definition radix_digit (R : N) (c : ascii) : option N :=
  match digit_value c with
  | Some v => if v <? R then Some v else None
  | None => None
  end.

(** Value of a digit string in radix [R]; [None] when a character is
    not a digit of that radix. *)
Fixpoint digits_value (R : N) (acc : N) (l : list ascii) : option N :=
  match l with
  | [] => Some acc
  | c :: l' =>
      match radix_digit R c with
      | Some v => digits_value R (acc * R + v) l'
      | None => None
      end
  end.

(** *** Percent encoding *)

Definition percent_encode_byte (c : ascii) : list ascii :=
  [ "%"%char; upper_hex_char (code c / 16); upper_hex_char (code c mod 16) ].

(** UTF-8 percent-encode every byte of [l] that is in the set. *)
Definition percent_encode (in_set : ascii -> bool) (l : list ascii)
  : list ascii :=
  flat_map (fun c => if in_set c then percent_encode_byte c else [c]) l.

Definition code_in (codes : list N) (c : ascii) : bool :=
  existsb (N.eqb (code c)) codes.

Definition c0_control_set (c : ascii) : bool :=
  (code c <=? 31) || (126 <? code c).

(** space, quotation mark, [<], [>], grave accent *)
Definition fragment_set (c : ascii) : bool :=
  c0_control_set c || code_in [32; 34; 60; 62; 96] c.

(** space, quotation mark, [#], [<], [>] *)
Definition query_set (c : ascii) : bool :=
  c0_control_set c || code_in [32; 34; 35; 60; 62] c.

(** and the apostrophe *)
Definition special_query_set (c : ascii) : bool :=
  query_set c || code_in [39] c.

(** and [?], [^], grave accent, [{], [}] (the set of the current
    Standard; older editions leave [^] out, which changes no result
    below) *)
Definition path_set (c : ascii) : bool :=
  query_set c || code_in [63; 94; 96; 123; 125] c.

(** and [/], [:], [;], [=], [@], [[], [\], []], [|] *)
Definition userinfo_set (c : ascii) : bool :=
  path_set c || code_in [47; 58; 59; 61; 64; 91; 92; 93; 124] c.

Fixpoint percent_decode (l : list ascii) : list ascii :=
  match l with
  | [] => []
  | c :: l' =>
      if Ascii.eqb c "%" then
        match l' with
        | h :: lo :: rest =>
            match digit_value h, digit_value lo with
            | Some a, Some b => ascii_of_N (16 * a + b) :: percent_decode rest
            | _, _ => c :: percent_decode l'
            end
        | _ => c :: percent_decode l'
        end
      else c :: percent_decode l'
  end.

(** *** Hosts *)

Inductive Host :=
| Domain (domain : list ascii)
| IPv4 (address : N)
| IPv6 (pieces : list N).

Definition is_dot (c : ascii) : bool := Ascii.eqb c ".".

Definition parse_ipv4_number (input : list ascii) : option N :=
  match input with
  | [] => None
  | c :: x :: rest =>
      if Ascii.eqb c "0" then
        if Ascii.eqb x "x" || Ascii.eqb x "X" then digits_value 16 0 rest
        else digits_value 8 0 (x :: rest)
      else digits_value 10 0 input
  | _ => digits_value 10 0 input
  end.

Definition last_is_number (last : list ascii) : bool :=
  (negb (is_nil last) && forallb is_digit last)
  || match parse_ipv4_number last with Some _ => true | None => false end.

(** The ends-in-a-number checker. *)
Definition ends_in_number (input : list ascii) : bool :=
  match rev (split_on is_dot input) with
  | [] => false
  | [[]] => false
  | [] :: last :: _ => last_is_number last
  | last :: _ => last_is_number last
  end.

Fixpoint ipv4_front (numbers : list N) (counter : N) : N :=
  match numbers with
  | [] => 0
  | n :: ns => n * 256 ^ (3 - counter) + ipv4_front ns (counter + 1)
  end.

Definition parse_ipv4 (input : list ascii) : option N :=
  let parts := split_on is_dot input in
  let parts :=
    match rev parts with
    | [] :: p :: ps => rev (p :: ps)
    | _ => parts
    end in
  if (4 <? length parts)%nat then None
  else
    match mapM parse_ipv4_number parts with
    | None => None
    | Some numbers =>
        match rev numbers with
        | [] => None
        | last :: front_rev =>
            if existsb (fun n => 255 <? n) front_rev then None
            else if 256 ^ (5 - N.of_nat (length numbers)) <=? last then None
            else Some (last + ipv4_front (rev front_rev) 0)
        end
    end.

Definition serialize_ipv4 (a : N) : list ascii :=
  to_radix 10 (a / 256 ^ 3 mod 256) ++ lit "."
  ++ to_radix 10 (a / 256 ^ 2 mod 256) ++ lit "."
  ++ to_radix 10 (a / 256 mod 256) ++ lit "."
  ++ to_radix 10 (a mod 256).

(** Up to [n] hexadecimal digits: their value, their number and the
    input that follows them. *)
Fixpoint read_hex (n : nat) (value : N) (len : nat) (l : list ascii)
  : N * nat * list ascii :=
  match n, l with
  | S n', c :: l' =>
      match radix_digit 16 c with
      | Some v => read_hex n' (value * 16 + v) (S len) l'
      | None => (value, len, l)
      end
  | _, _ => (value, len, l)
  end.

(** One decimal part of an IPv4 address embedded in an IPv6 address:
    at least one digit, no leading zero, at most 255. *)
Fixpoint ipv4_piece (acc : option N) (l : list ascii)
  : option (N * list ascii) :=
  match l with
  | c :: l' =>
      if is_digit c then
        let number := code c - 48 in
        match acc with
        | None => ipv4_piece (Some number) l'
        | Some 0 => None
        | Some v =>
            let v' := v * 10 + number in
            if 255 <? v' then None else ipv4_piece (Some v') l'
        end
      else match acc with Some v => Some (v, l) | None => None end
  | [] => match acc with Some v => Some (v, []) | None => None end
  end.

Definition ipv4_in_ipv6 (l : list ascii) : option (N * N) :=
  match ipv4_piece None l with
  | Some (n1, c1 :: l1) =>
      if negb (is_dot c1) then None else
      match ipv4_piece None l1 with
      | Some (n2, c2 :: l2) =>
          if negb (is_dot c2) then None else
          match ipv4_piece None l2 with
          | Some (n3, c3 :: l3) =>
              if negb (is_dot c3) then None else
              match ipv4_piece None l3 with
              | Some (n4, []) => Some (n1 * 256 + n2, n3 * 256 + n4)
              | _ => None
              end
          | _ => None
          end
      | _ => None
      end
  | _ => None
  end.

Definition is_colon (c : ascii) : bool := Ascii.eqb c ":".

(** Main loop of the IPv6 parser.  [pieces] are the pieces written so
    far (their number is the piece index) and [compress] is the piece
    index recorded at the double colon.  Every turn consumes input, so
    the length of the input is enough fuel. *)
Fixpoint ipv6_loop (fuel : nat) (pieces : list N) (compress : option nat)
  (l : list ascii) : option (list N * option nat) :=
  match l with
  | [] => Some (pieces, compress)
  | c :: l' =>
      match fuel with
      | O => None
      | S fuel' =>
          if (length pieces =? 8)%nat then None
          else if is_colon c then
            match compress with
            | Some _ => None
            | None =>
                ipv6_loop fuel' (pieces ++ [0]) (Some (S (length pieces))) l'
            end
          else
            let '(value, len, r) := read_hex 4 0 0 l in
            match r with
            | [] => Some (pieces ++ [value], compress)
            | d :: r' =>
                if is_dot d then
                  if (len =? 0)%nat then None
                  else if (6 <? length pieces)%nat then None
                  else
                    match ipv4_in_ipv6 l with
                    | Some (p1, p2) => Some (pieces ++ [p1; p2], compress)
                    | None => None
                    end
                else if is_colon d then
                  match r' with
                  | [] => None
                  | _ => ipv6_loop fuel' (pieces ++ [value]) compress r'
                  end
                else None
            end
      end
  end.

Definition parse_ipv6 (input : list ascii) : option (list N) :=
  let start :=
    match input with
    | c :: l' =>
        if is_colon c then
          match l' with
          | c' :: l'' =>
              if is_colon c' then Some ([0], Some 1%nat, l'') else None
          | [] => None
          end
        else Some ([], None, input)
    | [] => Some ([], None, input)
    end in
  match start with
  | None => None
  | Some (pieces, compress, l) =>
      match ipv6_loop (length l) pieces compress l with
      | None => None
      | Some (pieces, Some k) =>
          Some (firstn k pieces ++ repeat 0 (8 - length pieces)
                ++ skipn k pieces)
      | Some (pieces, None) =>
          if (length pieces =? 8)%nat then Some pieces else None
      end
  end.

Fixpoint zero_run (l : list N) : nat :=
  match l with
  | 0 :: l' => S (zero_run l')
  | _ => O
  end.

(** Index of the first longest run of two or more zero pieces. *)
Fixpoint find_compress (l : list N) (idx : nat) (best : option nat)
  (best_len : nat) : option nat :=
  match l with
  | [] => best
  | _ :: l' =>
      if (best_len <? zero_run l)%nat
      then find_compress l' (S idx) (Some idx) (zero_run l)
      else find_compress l' (S idx) best best_len
  end.

Fixpoint ipv6_out (pieces : list N) (idx : nat) (compress : option nat)
  (ignore0 : bool) : list ascii :=
  match pieces with
  | [] => []
  | p :: ps =>
      if ignore0 && (p =? 0) then ipv6_out ps (S idx) compress true
      else
        match compress with
        | Some k =>
            if (k =? idx)%nat then
              (if (idx =? 0)%nat then lit "::" else lit ":")
              ++ ipv6_out ps (S idx) compress true
            else
              to_radix 16 p ++ (if (idx =? 7)%nat then [] else lit ":")
              ++ ipv6_out ps (S idx) compress false
        | None =>
            to_radix 16 p ++ (if (idx =? 7)%nat then [] else lit ":")
            ++ ipv6_out ps (S idx) compress false
        end
  end.

Definition serialize_ipv6 (pieces : list N) : list ascii :=
  ipv6_out pieces 0 (find_compress pieces 0 None 1) false.

(** NUL, tab, LF, CR, space, [#], [/], [:], [<], [>], [?], [@], [[],
    [\], []], [^], [|] *)
Definition forbidden_host (c : ascii) : bool :=
  code_in [0; 9; 10; 13; 32; 35; 47; 58; 60; 62; 63; 64; 91; 92; 93; 94; 124]
    c.

Definition forbidden_domain (c : ascii) : bool :=
  forbidden_host c || (code c <=? 31) || code_in [37; 127] c.

Fixpoint starts_with (p l : list ascii) : bool :=
  match p, l with
  | [], _ => true
  | a :: p', b :: l' => Ascii.eqb a b && starts_with p' l'
  | _ :: _, [] => false
  end.

(** A domain on which Unicode ToASCII only lowercases: all ASCII, and no
    label starts with [xn--]. *)
Definition ascii_only_domain (d : list ascii) : bool :=
  forallb is_ascii d
  && forallb (fun label => negb (starts_with (lit "xn--") (map lower label)))
       (split_on is_dot d).

Section Host.

(** Unicode ToASCII of UTS 46 (with the flags the URL Standard fixes) on
    the domains that need it: those with a byte outside ASCII or a
    label that starts with [xn--].  The tables of UTS 46 and Punycode
    are not part of the program and stay a parameter. *)
Variable unicodeToASCII : list ascii -> option (list ascii).

Definition domain_to_ASCII (domain : list ascii) : option (list ascii) :=
  let result :=
    if ascii_only_domain domain then Some (map lower domain)
    else unicodeToASCII domain in
  match result with
  | Some [] => None
  | r => r
  end.

Definition parse_host (input : list ascii) : option Host :=
  match input with
  | c :: rest =>
      if Ascii.eqb c "[" then
        match rev rest with
        | c' :: inner_rev =>
            if Ascii.eqb c' "]"
            then option_map IPv6 (parse_ipv6 (rev inner_rev))
            else None
        | [] => None
        end
      else
        match domain_to_ASCII (percent_decode input) with
        | None => None
        | Some asciiDomain =>
            if existsb forbidden_domain asciiDomain then None
            else if ends_in_number asciiDomain
                 then option_map IPv4 (parse_ipv4 asciiDomain)
                 else Some (Domain asciiDomain)
        end
  | [] => None
  end.

End Host.

(** The assumption on the parameter: Unicode ToASCII leaves its own
    results as they are. *)
Definition toASCII_stable
  (unicodeToASCII : list ascii -> option (list ascii)) : Prop :=
  forall d a,
    ascii_only_domain d = false -> unicodeToASCII d = Some a ->
    domain_to_ASCII unicodeToASCII a = Some a.

Definition serialize_host (h : Host) : list ascii :=
  match h with
  | Domain d => d
  | IPv4 a => serialize_ipv4 a
  | IPv6 p => lit "[" ++ serialize_ipv6 p ++ lit "]"
  end.

(** *** URL records *)

Record URL := {
  scheme : string;
  username : list ascii;
  password : list ascii;
  host : Host;
  port : option N;
  path : list (list ascii);
  query : option (list ascii);
  fragment : option (list ascii)
}.

(** Default port of the special schemes that have an authority; [None]
    for every other scheme. *)
Definition default_port (scheme : string) : option N :=
  if String.eqb scheme "http" then Some 80
  else if String.eqb scheme "https" then Some 443
  else if String.eqb scheme "ftp" then Some 21
  else if String.eqb scheme "ws" then Some 80
  else if String.eqb scheme "wss" then Some 443
  else None.

Definition is_c0_or_space (c : ascii) : bool := code c <=? 32.
Definition is_tab_or_newline (c : ascii) : bool := code_in [9; 10; 13] c.
Definition is_slash (c : ascii) : bool := code_in [47; 92] c.
Definition is_authority_end (c : ascii) : bool := code_in [47; 63; 35; 92] c.
Definition is_path_end (c : ascii) : bool := code_in [63; 35] c.
Definition is_hash (c : ascii) : bool := Ascii.eqb c "#".
Definition is_at (c : ascii) : bool := Ascii.eqb c "@".

Definition scheme_char (c : ascii) : bool :=
  is_alnum c || code_in [43; 45; 46] c.

(** Scheme start state and scheme state: the lowercased scheme and the
    input after its colon.  Without a base URL an input with no scheme
    is a failure. *)
Definition parse_scheme (l : list ascii) : option (string * list ascii) :=
  match l with
  | c :: _ =>
      if is_alpha c then
        match drop_while scheme_char l with
        | d :: rest =>
            if is_colon d
            then Some (string_of_list_ascii
                         (map lower (take_while scheme_char l)), rest)
            else None
        | [] => None
        end
      else None
  | [] => None
  end.

(** Authority state: the input before the last [@] holds the
    credentials. *)
Fixpoint split_last_at (l : list ascii)
  : option (list ascii * list ascii) :=
  match l with
  | [] => None
  | c :: l' =>
      match split_last_at l' with
      | Some (cred, hostport) => Some (c :: cred, hostport)
      | None => if is_at c then Some ([], l') else None
      end
  end.

(** The first colon ends the user name; both parts are percent-encoded
    with the userinfo set. *)
Definition parse_credentials (cred : list ascii)
  : list ascii * list ascii :=
  let user := take_while (fun c => negb (is_colon c)) cred in
  let pass :=
    match drop_while (fun c => negb (is_colon c)) cred with
    | _ :: p => p
    | [] => []
    end in
  (percent_encode userinfo_set user, percent_encode userinfo_set pass).

(** Host state: the host ends at the first colon outside brackets. *)
Fixpoint split_host_port (inside : bool) (l : list ascii)
  : list ascii * option (list ascii) :=
  match l with
  | [] => ([], None)
  | c :: l' =>
      if is_colon c && negb inside then ([], Some l')
      else
        let inside' :=
          if Ascii.eqb c "[" then true
          else if Ascii.eqb c "]" then false
          else inside in
        let '(h, p) := split_host_port inside' l' in
        (c :: h, p)
  end.

(** Port state.  The outer [None] is failure, the inner one the null
    port (no digits, or the default port of the scheme). *)
Definition parse_port (scheme : string) (buffer : list ascii)
  : option (option N) :=
  if forallb is_digit buffer then
    match buffer with
    | [] => Some None
    | _ =>
        match digits_value 10 0 buffer with
        | Some p =>
            if 65535 <? p then None
            else match default_port scheme with
                 | Some d => if p =? d then Some None else Some (Some p)
                 | None => Some (Some p)
                 end
        | None => None
        end
    end
  else None.

Definition is_single_dot (buffer : list ascii) : bool :=
  let b := map lower buffer in
  list_eqb b (lit ".") || list_eqb b (lit "%2e").

Definition is_double_dot (buffer : list ascii) : bool :=
  let b := map lower buffer in
  list_eqb b (lit "..") || list_eqb b (lit ".%2e")
  || list_eqb b (lit "%2e.") || list_eqb b (lit "%2e%2e").

(** Path state of a special URL, one segment per turn; [path] is the
    path built so far. *)
Fixpoint path_segments (segs : list (list ascii)) (path : list (list ascii))
  : list (list ascii) :=
  match segs with
  | [] => path
  | seg :: rest =>
      let buffer := percent_encode path_set seg in
      let last := is_nil rest in
      let path' :=
        if is_double_dot buffer then
          if last then removelast path ++ [[]] else removelast path
        else if is_single_dot buffer then
          if last then path ++ [[]] else path
        else path ++ [buffer] in
      path_segments rest path'
  end.

Section Parser.

Variable unicodeToASCII : list ascii -> option (list ascii).

(** The states after the scheme of a special URL that is not a file
    URL: special authority slashes, authority, host, port, path start,
    path, query and fragment. *)
Definition parse_special (scheme : string) (r : list ascii) : option URL :=
  let r := drop_while is_slash r in
  let authority := take_while (fun c => negb (is_authority_end c)) r in
  let rest := drop_while (fun c => negb (is_authority_end c)) r in
  let '(cred, hostport) :=
    match split_last_at authority with
    | Some (cred, hostport) => (cred, hostport)
    | None => ([], authority)
    end in
  let '(user, pass) := parse_credentials cred in
  let '(hostname, portbuf) := split_host_port false hostport in
  if is_nil hostname then None
  else
    match parse_host unicodeToASCII hostname with
    | None => None
    | Some h =>
        match
          match portbuf with
          | Some buffer => parse_port scheme buffer
          | None => Some None
          end
        with
        | None => None
        | Some p =>
            let rest :=
              match rest with
              | c :: rest' => if is_slash c then rest' else rest
              | [] => []
              end in
            let segs :=
              split_on is_slash
                (take_while (fun c => negb (is_path_end c)) rest) in
            let rest := drop_while (fun c => negb (is_path_end c)) rest in
            let '(q, rest) :=
              match rest with
              | c :: rest' =>
                  if Ascii.eqb c "?" then
                    (Some (percent_encode special_query_set
                             (take_while (fun c => negb (is_hash c)) rest')),
                     drop_while (fun c => negb (is_hash c)) rest')
                  else (None, rest)
              | [] => (None, [])
              end in
            let f :=
              match rest with
              | _ :: rest' => Some (percent_encode fragment_set rest')
              | [] => None
              end in
            Some {| scheme := scheme; username := user; password := pass;
                    host := h; port := p; path := path_segments segs [];
                    query := q; fragment := f |}
        end
    end.

Inductive ParseResult :=
| Failure            (* the constructor throws a TypeError *)
| Parsed (url : URL)
| Unmodelled.        (* a [file] URL or a URL whose scheme is not special *)

Definition strip_c0_or_space (l : list ascii) : list ascii :=
  rev (drop_while is_c0_or_space (rev (drop_while is_c0_or_space l))).

(** The basic URL parser without a base URL. *)
Definition basic_URL_parse (input : list ascii) : ParseResult :=
  let input := strip_c0_or_space input in
  let input := List.filter (fun c => negb (is_tab_or_newline c)) input in
  match parse_scheme input with
  | None => Failure
  | Some (scheme, rest) =>
      match default_port scheme with
      | Some _ =>
          match parse_special scheme rest with
          | Some url => Parsed url
          | None => Failure
          end
      | None => Unmodelled
      end
  end.

End Parser.

(** *** Serialisation *)

Definition serialize_path (path : list (list ascii)) : list ascii :=
  flat_map (fun seg => "/"%char :: seg) path.

(** The [href] getter: the URL serialiser. *)
Definition href (u : URL) : list ascii :=
  lit (scheme u) ++ lit "://"
  ++ (if is_nil (username u) && is_nil (password u) then []
      else username u
           ++ (if is_nil (password u) then [] else lit ":" ++ password u)
           ++ lit "@")
  ++ serialize_host (host u)
  ++ match port u with Some p => lit ":" ++ to_radix 10 p | None => [] end
  ++ serialize_path (path u)
  ++ match query u with Some q => lit "?" ++ q | None => [] end
  ++ match fragment u with Some f => lit "#" ++ f | None => [] end.

(** The [protocol] getter. *)
Definition protocol (u : URL) : string := (scheme u +:+ ":")%string.

End WHATWG.

(** ** URL normaliser *)

(** [/^https?:\/\//i.test(url)] *)
Definition has_http_prefix (url : list ascii) : bool :=
  WHATWG.starts_with (WHATWG.lit "http://") (map Char.lower (firstn 7 url))
  || WHATWG.starts_with (WHATWG.lit "https://") (map Char.lower (firstn 8 url)).

Section Normalize.

Variable unicodeToASCII : list ascii -> option (list ascii).

Definition normalizeUrl (url : string) : option string :=
  let url := list_ascii_of_string url in
  let withProtocol :=
    if has_http_prefix url then url else WHATWG.lit "https://" ++ url in
  match WHATWG.basic_URL_parse unicodeToASCII withProtocol with
  | WHATWG.Parsed parsed =>
      if negb (String.eqb (WHATWG.protocol parsed) "http:")
         && negb (String.eqb (WHATWG.protocol parsed) "https:")
      then None
      else Some (string_of_list_ascii (WHATWG.href parsed))
  | _ => None
  end.

End Normalize.

(** [normalizeUrl] of the first version of the server, which kept its
    records in a JSON file: the protocol is added and nothing is
    checked. *)
Module JsonFile.

Definition normalizeUrl (url : string) : string :=
  if negb (has_http_prefix (list_ascii_of_string url))
  then String.append "https://" url
  else url.

End JsonFile.

(** ** [String.prototype.trim] *)

(** White space and line terminators of ECMAScript, as UTF-8 bytes:
    U+0009 to U+000D and U+0020 in one byte; U+00A0 in two; U+1680,
    U+2000 to U+200A, U+2028, U+2029, U+202F, U+205F, U+3000 and U+FEFF
    in three. *)
Definition ws1 (a : ascii) : bool :=
  Char.between 9 13 a || (Char.code a =? 32).

Definition ws2 (a b : ascii) : bool :=
  (Char.code a =? 194) && (Char.code b =? 160).

Definition ws3 (a b c : ascii) : bool :=
  let '(a, b, c) := (Char.code a, Char.code b, Char.code c) in
  ((a =? 225) && (b =? 154) && (c =? 128))
  || ((a =? 226) && (b =? 128)
      && (((128 <=? c) && (c <=? 138)) || (c =? 168) || (c =? 169)
          || (c =? 175)))
  || ((a =? 226) && (b =? 129) && (c =? 159))
  || ((a =? 227) && (b =? 128) && (c =? 128))
  || ((a =? 239) && (b =? 187) && (c =? 191)).

Fixpoint trimStart (l : list ascii) : list ascii :=
  match l with
  | [] => []
  | a :: l1 =>
      if ws1 a then trimStart l1
      else
        match l1 with
        | [] => l
        | b :: l2 =>
            if ws2 a b then trimStart l2
            else
              match l2 with
              | [] => l
              | c :: l3 => if ws3 a b c then trimStart l3 else l
              end
        end
  end.

(** The same from the end, on the reversed string. *)
Fixpoint trimStart_rev (l : list ascii) : list ascii :=
  match l with
  | [] => []
  | a :: l1 =>
      if ws1 a then trimStart_rev l1
      else
        match l1 with
        | [] => l
        | b :: l2 =>
            if ws2 b a then trimStart_rev l2
            else
              match l2 with
              | [] => l
              | c :: l3 => if ws3 c b a then trimStart_rev l3 else l
              end
        end
  end.

Definition trimEnd (l : list ascii) : list ascii :=
  rev (trimStart_rev (rev l)).

Definition trim (s : string) : string :=
  string_of_list_ascii (trimEnd (trimStart (list_ascii_of_string s))).

(** ** Persistent store: the table [urls] *)

Record UrlRow := {
  code : string;
  original_url : string;
  created_at : string;
  visits : N
}.

(** The prepared statements.  The table is the list of its rows in
    insertion order, which is the order a scan returns them in. *)
Module stmts.

Definition findByUrl (url : string) (rows : list UrlRow) : option UrlRow :=
  List.find (fun r => String.eqb (original_url r) url) rows.

Definition findByCode (c : string) (rows : list UrlRow) : option UrlRow :=
  List.find (fun r => String.eqb (code r) c) rows.

(** [code] is the primary key: inserting a code that is present raises
    a constraint error ([None]). *)
Definition insert (c url now : string) (rows : list UrlRow)
  : option (list UrlRow) :=
  match findByCode c rows with
  | Some _ => None
  | None =>
      Some (rows ++ [ {| code := c; original_url := url;
                         created_at := now; visits := 0 |} ])
  end.

Definition listAll (rows : list UrlRow) : list UrlRow := rows.

(** The rows that stay and [changes], the number of rows deleted. *)
Definition deleteByCode (c : string) (rows : list UrlRow)
  : list UrlRow * nat :=
  (List.filter (fun r => negb (String.eqb (code r) c)) rows,
   length (List.filter (fun r => String.eqb (code r) c) rows)).

Definition incrementVisits (c : string) (rows : list UrlRow) : list UrlRow :=
  List.map
    (fun r =>
       if String.eqb (code r) c
       then {| code := code r; original_url := original_url r;
               created_at := created_at r; visits := visits r + 1 |}
       else r)
    rows.

End stmts.

(** ** Server state and cache helpers *)

Record State := {
  urls : list UrlRow;
  redisConnected : bool;
  redis : gmap string string
}.

Definition set_urls (rows : list UrlRow) (s : State) : State :=
  {| urls := rows; redisConnected := redisConnected s; redis := redis s |}.

Definition set_redis (m : gmap string string) (s : State) : State :=
  {| urls := urls s; redisConnected := redisConnected s; redis := m |}.

Definition set_redisConnected (b : bool) (s : State) : State :=
  {| urls := urls s; redisConnected := b; redis := redis s |}.

Definition cache_key (c : string) : string := String.append "url:" c.

(** In the three helpers [ok] tells whether the Redis call resolves; a
    rejected call is caught and ignored. *)
Definition cacheGet (ok : bool) (c : string) (s : State) : option string :=
  if negb (redisConnected s) then None
  else if ok then redis s !! cache_key c
  else None.

Definition cacheSet (ok : bool) (c url : string) (s : State) : State :=
  if negb (redisConnected s) then s
  else if ok then set_redis (<[cache_key c := url]> (redis s)) s
  else s.

Definition cacheDel (ok : bool) (c : string) (s : State) : State :=
  if negb (redisConnected s) then s
  else if ok then set_redis (delete (cache_key c) (redis s)) s
  else s.

(** ** Requests and responses *)

(** The [url] field of the request body. *)
Inductive JsValue :=
| JsString (s : string)
| JsOther.           (* absent, or any value that is not a string *)

Record Entry := {
  shortUrl : string;
  entry_code : string;
  originalUrl : string;
  createdAt : string;
  entry_visits : N
}.

Inductive Body :=
| ErrorBody (error : string)
| ShortenBody (shortUrl code originalUrl : string)
| EntryBody (e : Entry)
| EntriesBody (es : list Entry)
| MessageBody (message : string).

(** What the handler does with [res]: [res.status(n).json(body)] or
    [res.redirect(url)]. *)
Inductive Response :=
| Json (status : N) (body : Body)
| Redirect (url : string).

Inductive Outcome :=
| Reply (r : Response) (s : State)
| Throws              (* an uncaught exception of the store *)
| OutOfDraws.         (* every code drawn so far is taken *)

(** The collision loop of [POST /shorten]: the first drawn code that is
    not in the table. *)
Fixpoint freshCode (draws : list RandomBytes4) (rows : list UrlRow)
  : option string :=
  match draws with
  | [] => None
  | d :: draws' =>
      match stmts.findByCode (generateCode d) rows with
      | Some _ => freshCode draws' rows
      | None => Some (generateCode d)
      end
  end.

Section Server.

Variable unicodeToASCII : list ascii -> option (list ascii).
Variable PORT : N.

Definition BASE_URL : string :=
  String.append "http://localhost:"
    (string_of_list_ascii (WHATWG.to_radix 10 PORT)).

Definition short_url (c : string) : string :=
  String.append BASE_URL (String.append "/" c).

Definition entry_of (row : UrlRow) : Entry :=
  {| shortUrl := short_url (code row); entry_code := code row;
     originalUrl := original_url row; createdAt := created_at row;
     entry_visits := visits row |}.

Definition not_found : Response :=
  Json 404 (ErrorBody "Short URL not found").

(** [POST /shorten] *)
Definition shorten (url : JsValue) (now : string)
  (draws : list RandomBytes4) (set_ok : bool) (s : State) : Outcome :=
  match url with
  | JsOther => Reply (Json 400 (ErrorBody "Missing 'url' in request body")) s
  | JsString url =>
      if String.eqb url ""
      then Reply (Json 400 (ErrorBody "Missing 'url' in request body")) s
      else
        match normalizeUrl unicodeToASCII (trim url) with
        | None => Reply (Json 400 (ErrorBody "Invalid URL")) s
        | Some normalizedUrl =>
            if String.eqb normalizedUrl ""
            then Reply (Json 400 (ErrorBody "Invalid URL")) s
            else
              match stmts.findByUrl normalizedUrl (urls s) with
              | Some existing =>
                  Reply (Json 200 (ShortenBody (short_url (code existing))
                                     (code existing) normalizedUrl)) s
              | None =>
                  match freshCode draws (urls s) with
                  | None => OutOfDraws
                  | Some c =>
                      match stmts.insert c normalizedUrl now (urls s) with
                      | None => Throws
                      | Some rows =>
                          Reply (Json 201 (ShortenBody (short_url c) c
                                             normalizedUrl))
                            (cacheSet set_ok c normalizedUrl (set_urls rows s))
                      end
                  end
              end
        end
  end.

(** [GET /stats] *)
Definition stats (s : State) : Response :=
  Json 200 (EntriesBody (List.map entry_of (stmts.listAll (urls s)))).

(** [GET /stats/:code] *)
Definition stats_code (c : string) (s : State) : Response :=
  match stmts.findByCode c (urls s) with
  | None => not_found
  | Some row => Json 200 (EntryBody (entry_of row))
  end.

(** [DELETE /stats/:code] *)
Definition remove (c : string) (del_ok : bool) (s : State)
  : Response * State :=
  let '(rows, changes) := stmts.deleteByCode c (urls s) in
  if (changes =? 0)%nat then (not_found, set_urls rows s)
  else (Json 200 (MessageBody "Deleted"), cacheDel del_ok c (set_urls rows s)).

(** [GET /:code] *)
Definition resolve (c : string) (get_ok set_ok : bool) (s : State)
  : Response * State :=
  let miss :=
    match stmts.findByCode c (urls s) with
    | None => (not_found, s)
    | Some row =>
        let s := cacheSet set_ok c (original_url row) s in
        (Redirect (original_url row),
         set_urls (stmts.incrementVisits c (urls s)) s)
    end in
  match cacheGet get_ok c s with
  | Some cachedUrl =>
      if String.eqb cachedUrl "" then miss
      else (Redirect cachedUrl,
            set_urls (stmts.incrementVisits c (urls s)) s)
  | None => miss
  end.

(** ** Runs of the server *)

Inductive Request :=
| Shorten (url : JsValue) (now : string) (draws : list RandomBytes4)
    (set_ok : bool)
| Resolve (c : string) (get_ok set_ok : bool)
| Remove (c : string) (del_ok : bool)
| Stats
| StatsCode (c : string).

Definition handle (req : Request) (s : State) : Outcome :=
  match req with
  | Shorten url now draws set_ok => shorten url now draws set_ok s
  | Resolve c get_ok set_ok =>
      let '(r, s') := resolve c get_ok set_ok s in Reply r s'
  | Remove c del_ok => let '(r, s') := remove c del_ok s in Reply r s'
  | Stats => Reply (stats s) s
  | StatsCode c => Reply (stats_code c s) s
  end.

(** What happens between requests: the Redis client reports [ready] or
    [error], or a cache entry reaches the end of its hour. *)
Inductive Event :=
| RedisReady
| RedisError
| Expired (key : string).

Definition on_event (e : Event) (s : State) : State :=
  match e with
  | RedisReady => set_redisConnected true s
  | RedisError => if redisConnected s then set_redisConnected false s else s
  | Expired key => set_redis (delete key (redis s)) s
  end.

(** The server starts with an empty table and not yet connected to
    Redis, whose contents are arbitrary. *)
Definition initial (cache : gmap string string) : State :=
  {| urls := []; redisConnected := false; redis := cache |}.

Inductive reachable : State -> Prop :=
| reachable_initial cache : reachable (initial cache)
| reachable_request req s r s' :
    reachable s -> handle req s = Reply r s' -> reachable s'
| reachable_event e s : reachable s -> reachable (on_event e s).

End Server.

(** ** The version without Redis

    The version of the server before the cache was added: the same
    routes on the same table, on port 3000. *)

Module SqliteOnly.

(** The state is the table. *)
Inductive Outcome :=
| Reply (r : Response) (rows : list UrlRow)
| Throws
| OutOfDraws.

Definition PORT : N := 3000.

Section Server.

Variable unicodeToASCII : list ascii -> option (list ascii).

(** [POST /shorten] *)
Definition shorten (url : JsValue) (now : string)
  (draws : list RandomBytes4) (rows : list UrlRow) : Outcome :=
  match url with
  | JsOther => Reply (Json 400 (ErrorBody "Missing 'url' in request body")) rows
  | JsString url =>
      if String.eqb url ""
      then Reply (Json 400 (ErrorBody "Missing 'url' in request body")) rows
      else
        match normalizeUrl unicodeToASCII (trim url) with
        | None => Reply (Json 400 (ErrorBody "Invalid URL")) rows
        | Some normalizedUrl =>
            if String.eqb normalizedUrl ""
            then Reply (Json 400 (ErrorBody "Invalid URL")) rows
            else
              match stmts.findByUrl normalizedUrl rows with
              | Some existing =>
                  Reply (Json 200 (ShortenBody (short_url PORT (code existing))
                                     (code existing) normalizedUrl)) rows
              | None =>
                  match freshCode draws rows with
                  | None => OutOfDraws
                  | Some c =>
                      match stmts.insert c normalizedUrl now rows with
                      | None => Throws
                      | Some rows' =>
                          Reply (Json 201 (ShortenBody (short_url PORT c) c
                                             normalizedUrl)) rows'
                      end
                  end
              end
        end
  end.

(** [GET /stats] *)
Definition stats (rows : list UrlRow) : Response :=
  Json 200 (EntriesBody (List.map (entry_of PORT) (stmts.listAll rows))).

(** [GET /stats/:code] *)
Definition stats_code (c : string) (rows : list UrlRow) : Response :=
  match stmts.findByCode c rows with
  | None => not_found
  | Some row => Json 200 (EntryBody (entry_of PORT row))
  end.

(** [DELETE /stats/:code] *)
Definition remove (c : string) (rows : list UrlRow)
  : Response * list UrlRow :=
  let '(rows', changes) := stmts.deleteByCode c rows in
  if (changes =? 0)%nat then (not_found, rows')
  else (Json 200 (MessageBody "Deleted"), rows').

(** [GET /:code] *)
Definition resolve (c : string) (rows : list UrlRow)
  : Response * list UrlRow :=
  match stmts.findByCode c rows with
  | None => (not_found, rows)
  | Some row => (Redirect (original_url row), stmts.incrementVisits c rows)
  end.

Inductive Request :=
| Shorten (url : JsValue) (now : string) (draws : list RandomBytes4)
| Resolve (c : string)
| Remove (c : string)
| Stats
| StatsCode (c : string).

Definition handle (req : Request) (rows : list UrlRow) : Outcome :=
  match req with
  | Shorten url now draws => shorten url now draws rows
  | Resolve c => let '(r, rows') := resolve c rows in Reply r rows'
  | Remove c => let '(r, rows') := remove c rows in Reply r rows'
  | Stats => Reply (stats rows) rows
  | StatsCode c => Reply (stats_code c rows) rows
  end.

(** The server starts with an empty table. *)
Inductive reachable : list UrlRow -> Prop :=
| reachable_initial : reachable []
| reachable_request req rows r rows' :
    reachable rows -> handle req rows = Reply r rows' -> reachable rows'.

End Server.

End SqliteOnly.

(** ** Sequences of requests and events *)

Inductive Step :=
| Req (req : Request)
| Ev (e : Event).

Definition is_resolve_of (c : string) (st : Step) : bool :=
  match st with
  | Req (Resolve c' _ _) => String.eqb c' c
  | _ => false
  end.

Definition is_remove_of (c : string) (st : Step) : bool :=
  match st with
  | Req (Remove c' _) => String.eqb c' c
  | _ => false
  end.

Section Sequences.

Variable unicodeToASCII : list ascii -> option (list ascii).
Variable PORT : N.

(** The state after the steps, when every request gets its reply. *)
Fixpoint run (steps : list Step) (s : State) : option State :=
  match steps with
  | [] => Some s
  | Req req :: steps' =>
      match handle unicodeToASCII PORT req s with
      | Reply _ s' => run steps' s'
      | _ => None
      end
  | Ev e :: steps' => run steps' (on_event e s)
  end.

End Sequences.

(** ** Vocabulary of the statements *)

(** The codes of the table, row by row. *)
Definition codes (rows : list UrlRow) : list string := List.map code rows.

(** The primary key constraint. *)
Definition codes_unique (rows : list UrlRow) : Prop := List.NoDup (codes rows).

(** A row after one more visit, and a row as [POST /shorten] inserts
    it. *)
Definition visited (row : UrlRow) : UrlRow :=
  {| code := code row; original_url := original_url row;
     created_at := created_at row; visits := visits row + 1 |}.

Definition new_row (c url now : string) : UrlRow :=
  {| code := c; original_url := url; created_at := now; visits := 0 |}.

(** [c] is one of the 64 symbols. *)
Definition in_alphabet (c : ascii) : bool :=
  existsb (Ascii.eqb c) base64url_alphabet.

(** The cache layer answers for both calls or is out of the way at the
    lookup: if the lookup gets an answer from Redis, the write before it
    had been accepted. *)
Definition cache_present_or_absent (s : State) (set_ok get_ok : bool)
  : Prop :=
  redisConnected s = true -> get_ok = true -> set_ok = true.

(** [w] consists of white space only. *)
Definition whitespace (w : string) : Prop :=
  trimStart (list_ascii_of_string w) = [].

(** The same request to the version without Redis. *)
Definition without_cache (req : Request) : SqliteOnly.Request :=
  match req with
  | Shorten url now draws _ => SqliteOnly.Shorten url now draws
  | Resolve c _ _ => SqliteOnly.Resolve c
  | Remove c _ => SqliteOnly.Remove c
  | Stats => SqliteOnly.Stats
  | StatsCode c => SqliteOnly.StatsCode c
  end.

(** A request of the version without Redis, to the version with it. *)
Definition with_cache (req : SqliteOnly.Request) : Request :=
  match req with
  | SqliteOnly.Shorten url now draws => Shorten url now draws false
  | SqliteOnly.Resolve c => Resolve c false false
  | SqliteOnly.Remove c => Remove c false
  | SqliteOnly.Stats => Stats
  | SqliteOnly.StatsCode c => StatsCode c
  end.

(** The outcome of the version with Redis, seen from the table. *)
Definition table_outcome (o : Outcome) : SqliteOnly.Outcome :=
  match o with
  | Reply r s => SqliteOnly.Reply r (urls s)
  | Throws => SqliteOnly.Throws
  | OutOfDraws => SqliteOnly.OutOfDraws
  end.

(** Every cache entry under the key of a code is the URL of the row
    with that code. *)
Definition cache_coherent (s : State) : Prop :=
  forall c url,
    redis s !! cache_key c = Some url ->
    exists row, stmts.findByCode c (urls s) = Some row
                /\ original_url row = url.

(** A removal reaches the cache: when the request removes a row, Redis
    is connected and takes the delete. *)
Definition invalidated (req : Request) (s : State) : Prop :=
  match req with
  | Remove c del_ok =>
      stmts.findByCode c (urls s) = None
      \/ (redisConnected s = true /\ del_ok = true)
  | _ => True
  end.

Section CoherentRuns.

Variable unicodeToASCII : list ascii -> option (list ascii).
Variable PORT : N.

(** The runs from an empty table and an empty cache in which every
    removal reaches the cache. *)
Inductive coherent_run : State -> Prop :=
| coherent_initial : coherent_run (initial ∅)
| coherent_request req s r s' :
    coherent_run s -> invalidated req s ->
    handle unicodeToASCII PORT req s = Reply r s' -> coherent_run s'
| coherent_event e s : coherent_run s -> coherent_run (on_event e s).

End CoherentRuns.

(** Neither a control character nor a space, nor an angle bracket. *)
Definition markup_free (c : ascii) : bool :=
  negb (WHATWG.is_c0_or_space c) && negb (WHATWG.code_in [60; 62] c).

(** A byte of printable ASCII: above the space and below DEL. *)
Definition printable (c : ascii) : bool := Char.between 33 126 c.

(** The place of a symbol in a list of symbols. *)
Fixpoint index_of (c : ascii) (l : list ascii) : N :=
  match l with
  | [] => 0
  | x :: l' => if Ascii.eqb x c then 0 else 1 + index_of c l'
  end.

(** * Properties *)

(** ** The model on the standard's examples *)

Section Examples.

Variable unicodeToASCII : list ascii -> option (list ascii).

Local Abbreviation normalizeUrl := (normalizeUrl unicodeToASCII).

Example normalize_bare_host :
  normalizeUrl "github.com" = Some "https://github.com/"%string.
Proof. reflexivity. Qed.

Example normalize_case_port_dots :
  normalizeUrl "HTTP://EXAMPLE.com:80/a/./b/../c d?x='y'#fr ag"
  = Some "http://example.com/a/c%20d?x=%27y%27#fr%20ag"%string.
Proof. reflexivity. Qed.

Example normalize_credentials :
  normalizeUrl "http://a@b:p w@c/" = Some "http://a%40b:p%20w@c/"%string.
Proof. reflexivity. Qed.

Example normalize_ipv4_forms :
  normalizeUrl "http://0x7f.1/" = Some "http://127.0.0.1/"%string
  /\ normalizeUrl "http://4294967295" = Some "http://255.255.255.255/"%string
  /\ normalizeUrl "http://4294967296" = None
  /\ normalizeUrl "http://1.2.3.4.5/" = None.
Proof. repeat split; reflexivity. Qed.

Example normalize_ipv6_forms :
  normalizeUrl "http://[1:0:0:2:0:0:0:3]/" = Some "http://[1:0:0:2::3]/"%string
  /\ normalizeUrl "http://[::FFFF:1.2.3.4]:8080"
     = Some "http://[::ffff:102:304]:8080/"%string
  /\ normalizeUrl "http://[1::2:3:4:5:6:7]"
     = Some "http://[1:0:2:3:4:5:6:7]/"%string
  /\ normalizeUrl "http://[::1" = None.
Proof. repeat split; reflexivity. Qed.

Example normalize_rejects :
  normalizeUrl "" = None
  /\ normalizeUrl "http://" = None
  /\ normalizeUrl "exa mple.com" = None
  /\ normalizeUrl "example.com:99999" = None.
Proof. repeat split; reflexivity. Qed.

End Examples.

(** ** The code generator *)

Lemma base64url_symbol_in_alphabet i :
  i < 64 -> in_alphabet (base64url_symbol i) = true.
Proof.
  intros Hi.
  assert (H : forallb (fun n => in_alphabet (base64url_symbol (N.of_nat n)))
                (seq 0 64) = true) by (vm_compute; reflexivity).
  rewrite forallb_forall in H. specialize (H (N.to_nat i)).
  rewrite N2Nat.id in H. apply H. apply in_seq. lia.
Qed.

Lemma sextet_shiftr a : a < 256 -> N.shiftr a 2 < 64.
Proof.
  intros H. rewrite N.shiftr_div_pow2. change (2 ^ 2) with 4.
  apply N.Div0.div_lt_upper_bound. lia.
Qed.

Lemma sextet_land a : N.land a 63 < 64.
Proof.
  change 63 with (N.ones 6). rewrite N.land_ones. apply N.mod_lt. discriminate.
Qed.

Lemma sextet_lor a b : a < 64 -> b < 64 -> N.lor a b < 64.
Proof.
  intros Ha Hb.
  destruct (N.eq_dec (N.lor a b) 0) as [E | E]; [rewrite E; reflexivity |].
  apply N.log2_lt_pow2 with (b := 6); [lia |].
  rewrite N.log2_lor.
  assert (La : a = 0 \/ N.log2 a < 6)
    by (destruct (N.eq_dec a 0); [left | right; apply N.log2_lt_pow2]; lia).
  assert (Lb : b = 0 \/ N.log2 b < 6)
    by (destruct (N.eq_dec b 0); [left | right; apply N.log2_lt_pow2]; lia).
  destruct La as [-> | La], Lb as [-> | Lb]; cbn [N.log2]; lia.
Qed.

Lemma sextet_high a : N.shiftl (N.land a 3) 4 < 64.
Proof.
  rewrite N.shiftl_mul_pow2. change 3 with (N.ones 2).
  rewrite N.land_ones. change (2 ^ 4) with 16. change (2 ^ 2) with 4.
  pose proof (N.mod_lt a 4). lia.
Qed.

Lemma sextet_mid a : N.shiftl (N.land a 15) 2 < 64.
Proof.
  rewrite N.shiftl_mul_pow2. change 15 with (N.ones 4).
  rewrite N.land_ones. change (2 ^ 4) with 16. change (2 ^ 2) with 4.
  pose proof (N.mod_lt a 16). lia.
Qed.

Lemma sextet_low4 a : a < 256 -> N.shiftr a 4 < 64.
Proof.
  intros H. rewrite N.shiftr_div_pow2. change (2 ^ 4) with 16.
  apply N.Div0.div_lt_upper_bound. lia.
Qed.

Lemma sextet_low6 a : a < 256 -> N.shiftr a 6 < 64.
Proof.
  intros H. rewrite N.shiftr_div_pow2. change (2 ^ 6) with 64.
  apply N.Div0.div_lt_upper_bound. lia.
Qed.

Lemma byte_lt_256 b : Byte.to_N b < 256.
Proof. pose proof (Byte.to_N_bounded b). lia. Qed.

Create HintDb sextet.

#[local] Hint Resolve base64url_symbol_in_alphabet sextet_shiftr sextet_land
  sextet_lor sextet_high sextet_mid sextet_low4 sextet_low6 byte_lt_256
  : sextet.

(** Every symbol [base64url] writes is in the alphabet, whatever the
    bytes. *)
Lemma base64url_alphabet_only bs :
  forallb in_alphabet (base64url bs) = true.
Proof.
  remember (length bs) as n eqn:Hn. revert bs Hn.
  induction n as [n IH] using lt_wf_ind. intros bs ->.
  destruct bs as [| a [| b [| c rest]]]; cbn [base64url forallb].
  - reflexivity.
  - rewrite !base64url_symbol_in_alphabet; auto with sextet.
  - rewrite !base64url_symbol_in_alphabet; auto 6 with sextet.
  - rewrite !base64url_symbol_in_alphabet; auto 6 with sextet.
    apply (IH (length rest)); [cbn; lia | reflexivity].
Qed.

Lemma substring_0_list n l :
  list_ascii_of_string (substring 0 n (string_of_list_ascii l)) = firstn n l.
Proof.
  revert l. induction n as [| n IH]; intros [| c l]; cbn;
    try reflexivity.
  f_equal. apply IH.
Qed.

Lemma length_list_ascii_of_string s :
  length (list_ascii_of_string s) = String.length s.
Proof. induction s; cbn; congruence. Qed.

(** C7: every code [generateCode] returns has exactly six characters, and
    each of them is one of the 64 symbols of the URL-safe alphabet
    (A-Z, a-z, 0-9, [-], [_]), whatever the four random bytes are. *)
Theorem generateCode_six_url_safe (rnd : RandomBytes4) :
  String.length (generateCode rnd) = 6%nat
  /\ forallb in_alphabet (list_ascii_of_string (generateCode rnd)) = true
  /\ length base64url_alphabet = 64%nat
  /\ forallb (fun c => Char.is_alnum c || Char.one_of "-_" c)
       base64url_alphabet = true.
Proof.
  destruct rnd as [[[b0 b1] b2] b3]. unfold generateCode, slice0.
  rewrite <- length_list_ascii_of_string, substring_0_list.
  split; [reflexivity |]. split; [| split; vm_compute; reflexivity].
  pose proof (base64url_alphabet_only [b0; b1; b2; b3]) as H.
  cbn [base64url] in H. exact H.
Qed.

(** ** The table and its statements *)

Lemma findByCode_Some c rows row :
  stmts.findByCode c rows = Some row -> In row rows /\ code row = c.
Proof.
  intros H. apply find_some in H as [Hin Heq].
  split; [assumption | now apply String.eqb_eq].
Qed.

Lemma findByCode_None c rows :
  stmts.findByCode c rows = None <-> ~ In c (codes rows).
Proof.
  unfold stmts.findByCode, codes. induction rows as [| r rows IH]; cbn.
  - tauto.
  - destruct (String.eqb_spec (code r) c) as [E | E].
    + split; [discriminate | intros H; exfalso; auto].
    + rewrite IH. tauto.
Qed.

Lemma findByCode_app c rows rows' :
  stmts.findByCode c (rows ++ rows') =
  match stmts.findByCode c rows with
  | Some row => Some row
  | None => stmts.findByCode c rows'
  end.
Proof.
  unfold stmts.findByCode. induction rows as [| r rows IH]; cbn;
    [reflexivity |].
  destruct (String.eqb (code r) c); [reflexivity | exact IH].
Qed.

Lemma findByUrl_app url rows rows' :
  stmts.findByUrl url (rows ++ rows') =
  match stmts.findByUrl url rows with
  | Some row => Some row
  | None => stmts.findByUrl url rows'
  end.
Proof.
  unfold stmts.findByUrl. induction rows as [| r rows IH]; cbn;
    [reflexivity |].
  destruct (String.eqb (original_url r) url); [reflexivity | exact IH].
Qed.

Lemma freshCode_unused draws rows c :
  freshCode draws rows = Some c -> stmts.findByCode c rows = None.
Proof.
  induction draws as [| d draws IH]; cbn; [discriminate |].
  destruct (stmts.findByCode (generateCode d) rows) eqn:E; [exact IH |].
  intros [= <-]. exact E.
Qed.

(** The loop ends as soon as a drawn code is not in the table. *)
Lemma freshCode_terminates draws rows :
  (exists d, In d draws /\ stmts.findByCode (generateCode d) rows = None) ->
  exists c, freshCode draws rows = Some c.
Proof.
  induction draws as [| d draws IH]; cbn; intros (d' & Hin & Hd');
    [contradiction |].
  destruct (stmts.findByCode (generateCode d) rows) eqn:E; [| eauto].
  destruct Hin as [-> | Hin]; [congruence | eauto].
Qed.

Lemma insert_fresh c url now rows :
  stmts.findByCode c rows = None ->
  stmts.insert c url now rows =
  Some (rows ++ [ {| code := c; original_url := url; created_at := now;
                     visits := 0 |} ]).
Proof. unfold stmts.insert. now intros ->. Qed.

Lemma insert_unique c url now rows rows' :
  codes_unique rows -> stmts.insert c url now rows = Some rows' ->
  codes_unique rows'.
Proof.
  unfold stmts.insert, codes_unique, codes. intros Hu.
  destruct (stmts.findByCode c rows) eqn:E; [discriminate |].
  intros [= <-]. rewrite List.map_app. cbn.
  apply findByCode_None in E.
  apply List.NoDup_app; [assumption | repeat constructor; cbn; tauto |].
  intros x Hx [<- | []]. contradiction.
Qed.

Lemma codes_incrementVisits c rows :
  codes (stmts.incrementVisits c rows) = codes rows.
Proof.
  unfold codes, stmts.incrementVisits. rewrite List.map_map.
  apply List.map_ext. intros r. now destruct (String.eqb (code r) c).
Qed.

Lemma codes_filter p rows :
  List.NoDup (codes rows) -> List.NoDup (codes (List.filter p rows)).
Proof.
  unfold codes. induction rows as [| r rows IH]; cbn; [trivial |].
  intros H. inversion H as [| ? ? Hnotin Hnd]; subst.
  destruct (p r); cbn; [constructor |]; auto.
  intros Hin. apply Hnotin. apply in_map_iff in Hin as (r' & <- & Hr').
  apply in_map. now apply filter_In in Hr'.
Qed.

Lemma filter_all_true {A} (p : A -> bool) l :
  (forall x, In x l -> p x = true) -> List.filter p l = l.
Proof.
  induction l as [| x l IH]; cbn; intros H; [reflexivity |].
  rewrite (H x) by auto. f_equal. auto.
Qed.

Lemma findByCode_deleteByCode c c' rows :
  stmts.findByCode c' (fst (stmts.deleteByCode c rows)) =
  if String.eqb c c' then None else stmts.findByCode c' rows.
Proof.
  unfold stmts.deleteByCode, stmts.findByCode. cbn [fst].
  induction rows as [| r rows IH]; cbn.
  - now destruct (String.eqb c c').
  - destruct (String.eqb_spec (code r) c) as [E | E]; cbn.
    + rewrite IH. destruct (String.eqb_spec c c') as [E' | E'];
        [reflexivity |].
      destruct (String.eqb_spec (code r) c'); congruence.
    + destruct (String.eqb_spec (code r) c') as [E' | E']; [| exact IH].
      destruct (String.eqb_spec c c'); congruence.
Qed.

(** With unique codes a delete removes one row or none. *)
Lemma deleteByCode_changes c rows :
  codes_unique rows ->
  snd (stmts.deleteByCode c rows) =
  match stmts.findByCode c rows with Some _ => 1%nat | None => 0%nat end.
Proof.
  unfold stmts.deleteByCode, stmts.findByCode, codes_unique, codes.
  cbn [snd]. induction rows as [| r rows IH]; cbn; [reflexivity |].
  intros H. inversion H as [| ? ? Hnotin Hnd]; subst.
  destruct (String.eqb_spec (code r) c) as [E | E]; cbn.
  - rewrite IH by assumption. subst c.
    apply findByCode_None in Hnotin. unfold stmts.findByCode in Hnotin.
    now rewrite Hnotin.
  - auto.
Qed.

Lemma deleteByCode_absent c rows :
  stmts.findByCode c rows = None ->
  stmts.deleteByCode c rows = (rows, 0%nat).
Proof.
  intros H. apply findByCode_None in H. unfold stmts.deleteByCode. f_equal.
  - apply filter_all_true. intros r Hr.
    destruct (String.eqb_spec (code r) c) as [E | E]; [| reflexivity].
    exfalso. apply H. subst c. now apply in_map.
  - replace (List.filter _ rows) with (@nil UrlRow); [reflexivity |].
    symmetry. induction rows as [| r rows IH]; cbn; [reflexivity |].
    cbn in H. destruct (String.eqb_spec (code r) c) as [E | E];
      [tauto | apply IH; tauto].
Qed.

Lemma findByCode_incrementVisits c c' rows :
  stmts.findByCode c' (stmts.incrementVisits c rows) =
  if String.eqb c c'
  then option_map visited (stmts.findByCode c' rows)
  else stmts.findByCode c' rows.
Proof.
  unfold stmts.findByCode, stmts.incrementVisits.
  induction rows as [| r rows IH]; cbn.
  - now destruct (String.eqb c c').
  - destruct (String.eqb_spec (code r) c) as [E | E]; cbn.
    + destruct (String.eqb_spec (code r) c') as [E' | E'].
      * destruct (String.eqb_spec c c'); [reflexivity | congruence].
      * exact IH.
    + destruct (String.eqb_spec (code r) c') as [E' | E']; [| exact IH].
      destruct (String.eqb_spec c c'); [congruence | reflexivity].
Qed.

Lemma incrementVisits_absent c rows :
  stmts.findByCode c rows = None -> stmts.incrementVisits c rows = rows.
Proof.
  intros H. apply findByCode_None in H. unfold stmts.incrementVisits.
  rewrite <- (List.map_id rows) at 2. apply List.map_ext_in. intros r Hr.
  destruct (String.eqb_spec (code r) c) as [E | E]; [| reflexivity].
  exfalso. apply H. subst c. now apply in_map.
Qed.

(** ** The handlers *)

Lemma set_urls_same s : set_urls (urls s) s = s.
Proof. now destruct s. Qed.

Lemma urls_cacheSet ok c url s : urls (cacheSet ok c url s) = urls s.
Proof.
  unfold cacheSet. now destruct (redisConnected s), ok.
Qed.

Lemma urls_cacheDel ok c s : urls (cacheDel ok c s) = urls s.
Proof.
  unfold cacheDel. now destruct (redisConnected s), ok.
Qed.

Lemma negb_eqb_empty s : String.eqb s "" = false -> s <> ""%string.
Proof. intros H ->. discriminate. Qed.

Section ServerProperties.

Variable unicodeToASCII : list ascii -> option (list ascii).
Variable PORT : N.

Local Abbreviation normalizeUrl := (normalizeUrl unicodeToASCII).
Local Abbreviation shorten := (shorten unicodeToASCII PORT).
Local Abbreviation handle := (handle unicodeToASCII PORT).
Local Abbreviation reachable := (reachable unicodeToASCII PORT).
Local Abbreviation short_url := (short_url PORT).
Local Abbreviation stats_code := (stats_code PORT).
Local Abbreviation entry_of := (entry_of PORT).

Lemma normalizeUrl_empty : normalizeUrl "" = None.
Proof. reflexivity. Qed.

(** The three ways [POST /shorten] replies. *)
Inductive shorten_spec (url : JsValue) (now : string)
  (draws : list RandomBytes4) (set_ok : bool) (s : State)
  : Response -> State -> Prop :=
| shorten_rejected msg :
    match url with
    | JsOther => True
    | JsString u =>
        u = ""%string \/ normalizeUrl (trim u) = None
        \/ normalizeUrl (trim u) = Some ""%string
    end ->
    shorten_spec url now draws set_ok s (Json 400 (ErrorBody msg)) s
| shorten_existing u n existing :
    url = JsString u -> u <> ""%string ->
    normalizeUrl (trim u) = Some n -> n <> ""%string ->
    stmts.findByUrl n (urls s) = Some existing ->
    shorten_spec url now draws set_ok s
      (Json 200 (ShortenBody (short_url (code existing)) (code existing) n)) s
| shorten_created u n c :
    url = JsString u -> u <> ""%string ->
    normalizeUrl (trim u) = Some n -> n <> ""%string ->
    stmts.findByUrl n (urls s) = None ->
    freshCode draws (urls s) = Some c ->
    shorten_spec url now draws set_ok s
      (Json 201 (ShortenBody (short_url c) c n))
      (cacheSet set_ok c n (set_urls (urls s ++ [new_row c n now]) s)).

Lemma shorten_cases url now draws set_ok s r s' :
  shorten url now draws set_ok s = Reply r s' ->
  shorten_spec url now draws set_ok s r s'.
Proof.
  unfold shorten. destruct url as [u |].
  2: { intros [= <- <-]. now constructor. }
  destruct (String.eqb_spec u "") as [E | E].
  { intros [= <- <-]. constructor. now left. }
  destruct (normalizeUrl (trim u)) as [n |] eqn:En.
  2: { intros [= <- <-]. constructor. auto. }
  destruct (String.eqb_spec n "") as [E' | E'].
  { intros [= <- <-]. constructor. subst n. auto. }
  destruct (stmts.findByUrl n (urls s)) as [existing |] eqn:Ef.
  { intros [= <- <-]. now apply shorten_existing with (u := u). }
  destruct (freshCode draws (urls s)) as [c |] eqn:Ec; [| discriminate].
  rewrite insert_fresh by now apply freshCode_unused with (draws := draws).
  intros [= <- <-]. now apply shorten_created with (u := u).
Qed.

(** The insert of [POST /shorten] never violates the primary key. *)
Lemma shorten_never_throws url now draws set_ok s :
  shorten url now draws set_ok s <> Throws.
Proof.
  unfold shorten. destruct url as [u |]; [| discriminate].
  destruct (String.eqb u ""); [discriminate |].
  destruct (normalizeUrl (trim u)) as [n |]; [| discriminate].
  destruct (String.eqb n ""); [discriminate |].
  destruct (stmts.findByUrl n (urls s)); [discriminate |].
  destruct (freshCode draws (urls s)) as [c |] eqn:Ec; [| discriminate].
  rewrite insert_fresh by now apply freshCode_unused with (draws := draws).
  discriminate.
Qed.

(** A draw that is not in the table is enough for the loop to end. *)
Lemma shorten_replies url now draws set_ok s :
  (exists d, In d draws
             /\ stmts.findByCode (generateCode d) (urls s) = None) ->
  exists r s', shorten url now draws set_ok s = Reply r s'.
Proof.
  intros H. apply freshCode_terminates in H as [c Hc].
  unfold shorten. destruct url as [u |]; [| eauto].
  destruct (String.eqb u ""); [eauto |].
  destruct (normalizeUrl (trim u)) as [n |]; [| eauto].
  destruct (String.eqb n ""); [eauto |].
  destruct (stmts.findByUrl n (urls s)); [eauto |].
  rewrite Hc.
  rewrite insert_fresh by now apply freshCode_unused with (draws := draws).
  eauto.
Qed.

Lemma urls_resolve c get_ok set_ok s :
  urls (snd (resolve c get_ok set_ok s)) = urls s
  \/ urls (snd (resolve c get_ok set_ok s)) = stmts.incrementVisits c (urls s).
Proof.
  unfold resolve.
  assert (Hmiss :
    forall p, p = match stmts.findByCode c (urls s) with
                  | None => (not_found, s)
                  | Some row =>
                      (Redirect (original_url row),
                       set_urls (stmts.incrementVisits c
                                   (urls (cacheSet set_ok c (original_url row) s)))
                         (cacheSet set_ok c (original_url row) s))
                  end ->
    urls (snd p) = urls s \/ urls (snd p) = stmts.incrementVisits c (urls s)).
  { intros p ->. destruct (stmts.findByCode c (urls s)); cbn; [| auto].
    rewrite urls_cacheSet. auto. }
  destruct (cacheGet get_ok c s) as [cached |]; [| now apply Hmiss].
  destruct (String.eqb cached ""); [now apply Hmiss | cbn; auto].
Qed.

Lemma urls_remove c del_ok s :
  urls (snd (remove c del_ok s)) = fst (stmts.deleteByCode c (urls s)).
Proof.
  unfold remove. destruct (stmts.deleteByCode c (urls s)) as [rows n].
  destruct (n =? 0)%nat; cbn; [reflexivity |]. now rewrite urls_cacheDel.
Qed.

Lemma urls_on_event e s : urls (on_event e s) = urls s.
Proof. destruct e; cbn; [| destruct (redisConnected s) |]; reflexivity. Qed.

(** How one request changes the table. *)
Lemma handle_urls req s r s' :
  handle req s = Reply r s' ->
  urls s' = urls s
  \/ (exists c url now,
        stmts.findByCode c (urls s) = None
        /\ urls s' = urls s ++ [new_row c url now])
  \/ (exists c, urls s' = stmts.incrementVisits c (urls s))
  \/ (exists c, urls s' = fst (stmts.deleteByCode c (urls s))).
Proof.
  destruct req as [url now draws ok | c g o | c d | | c];
    cbn [handle].
  - intros H. apply shorten_cases in H. destruct H; auto.
    right. left. exists c, n, now. rewrite urls_cacheSet. cbn.
    split; [| reflexivity]. now apply freshCode_unused with (draws := draws).
  - destruct (resolve c g o s) as [r0 s0] eqn:E. intros [= <- <-].
    pose proof (urls_resolve c g o s) as H. rewrite E in H. cbn in H.
    destruct H; eauto.
  - destruct (remove c d s) as [r0 s0] eqn:E. intros [= <- <-].
    pose proof (urls_remove c d s) as H. rewrite E in H. cbn [snd] in H.
    eauto 6.
  - intros [= <- <-]. auto.
  - intros [= <- <-]. auto.
Qed.

Lemma handle_unique req s r s' :
  codes_unique (urls s) -> handle req s = Reply r s' -> codes_unique (urls s').
Proof.
  intros Hu H. apply handle_urls in H
    as [-> | [(c & u & n & Hc & ->) | [(c & ->) | (c & ->)]]].
  - assumption.
  - apply insert_unique with (c := c) (url := u) (now := n) (rows := urls s);
      [assumption | now apply insert_fresh].
  - unfold codes_unique. now rewrite codes_incrementVisits.
  - now apply codes_filter.
Qed.

(** The primary key holds along every run. *)
Lemma reachable_unique s : reachable s -> codes_unique (urls s).
Proof.
  induction 1 as [cache | req s r s' _ IH H | e s _ IH].
  - constructor.
  - now apply handle_unique with (req := req) (s := s) (r := r).
  - now rewrite urls_on_event.
Qed.


(** C4: in a reachable state, [remove c] succeeds exactly when a row
    with code [c] exists, and then deletes exactly one row; otherwise it
    answers not found and leaves the state as it was.  After a
    successful remove the code is gone from the table, and a resolve
    that gets no answer from the cache (absent, failing or without an
    entry for [c]) answers not found. *)
Theorem remove_exact c del_ok s :
  reachable s ->
  match stmts.findByCode c (urls s) with
  | Some _ =>
      fst (remove c del_ok s) = Json 200 (MessageBody "Deleted")
      /\ snd (stmts.deleteByCode c (urls s)) = 1%nat
      /\ stmts.findByCode c (urls (snd (remove c del_ok s))) = None
      /\ (forall c', c' <> c ->
            stmts.findByCode c' (urls (snd (remove c del_ok s)))
            = stmts.findByCode c' (urls s))
      /\ (forall get_ok set_ok,
            cacheGet get_ok c (snd (remove c del_ok s)) = None ->
            resolve c get_ok set_ok (snd (remove c del_ok s))
            = (not_found, snd (remove c del_ok s)))
  | None => remove c del_ok s = (not_found, s)
  end.
Proof.
  intros Hr. apply reachable_unique in Hr.
  pose proof (deleteByCode_changes c (urls s) Hr) as Hn.
  pose proof (urls_remove c del_ok s) as Hu.
  destruct (stmts.findByCode c (urls s)) as [row |] eqn:E.
  - assert (Hgone : stmts.findByCode c (urls (snd (remove c del_ok s))) = None).
    { rewrite Hu, findByCode_deleteByCode. now rewrite String.eqb_refl. }
    repeat split.
    + unfold remove. destruct (stmts.deleteByCode c (urls s)) as [rows n].
      cbn in Hn. now subst n.
    + assumption.
    + assumption.
    + intros c' Hc'. rewrite Hu, findByCode_deleteByCode.
      destruct (String.eqb_spec c c'); congruence.
    + intros get_ok set_ok Hget. unfold resolve. now rewrite Hget, Hgone.
  - unfold remove. rewrite deleteByCode_absent by assumption. cbn.
    now rewrite set_urls_same.
Qed.

Lemma cacheGet_cacheSet set_ok get_ok c url s :
  cache_present_or_absent s set_ok get_ok ->
  cacheGet get_ok c (cacheSet set_ok c url s) = None
  \/ cacheGet get_ok c (cacheSet set_ok c url s) = Some url.
Proof.
  unfold cache_present_or_absent, cacheGet, cacheSet. intros H.
  destruct (redisConnected s) eqn:Ec; cbn; [| rewrite Ec; auto].
  destruct get_ok.
  - rewrite H by reflexivity. cbn. rewrite Ec. cbn. right.
    apply lookup_insert_eq.
  - destruct set_ok; cbn; rewrite Ec; auto.
Qed.


(** C6: when a first [shorten] call answers with code [c] for the
    normalised URL [n], a second call whose input normalises to the same
    string answers with the same code, creates no record and leaves the
    whole state as it is. *)
Theorem shorten_twice_same_code u1 now1 draws1 ok1 s st su c n s1
  u2 now2 draws2 ok2 :
  shorten (JsString u1) now1 draws1 ok1 s
  = Reply (Json st (ShortenBody su c n)) s1 ->
  normalizeUrl (trim u2) = Some n ->
  shorten (JsString u2) now2 draws2 ok2 s1
  = Reply (Json 200 (ShortenBody su c n)) s1.
Proof.
  intros H Hn2. apply shorten_cases in H.
  assert (Hu2 : String.eqb u2 "" = false).
  { destruct (String.eqb_spec u2 "") as [-> |]; [| reflexivity].
    change (trim "") with ""%string in Hn2. rewrite normalizeUrl_empty in Hn2.
    discriminate. }
  assert (Hstored : exists row, stmts.findByUrl n (urls s1) = Some row
                                /\ code row = c /\ su = short_url c
                                /\ n <> ""%string).
  { inversion H as [| u n' existing Hu Hne Hn Hn' Hf
                     | u n' c' Hu Hne Hn Hn' Hf Hc]; subst; clear H.
    - eauto.
    - exists (new_row c n now1). rewrite urls_cacheSet. cbn [urls set_urls].
      rewrite findByUrl_app, Hf. unfold stmts.findByUrl. cbn.
      now rewrite String.eqb_refl. }
  destruct Hstored as (row & Hrow & <- & -> & Hne).
  unfold shorten. rewrite Hu2, Hn2.
  destruct (String.eqb_spec n ""); [contradiction |]. now rewrite Hrow.
Qed.

Lemma resolve_existing c get_ok set_ok s row :
  stmts.findByCode c (urls s) = Some row ->
  urls (snd (resolve c get_ok set_ok s)) = stmts.incrementVisits c (urls s).
Proof.
  intros E. unfold resolve. rewrite E.
  destruct (cacheGet get_ok c s) as [cached |];
    [destruct (String.eqb cached "") |]; cbn [snd urls set_urls];
    now rewrite ?urls_cacheSet.
Qed.

Lemma resolve_missing c get_ok set_ok s :
  stmts.findByCode c (urls s) = None ->
  urls (snd (resolve c get_ok set_ok s)) = urls s.
Proof.
  intros E. destruct (urls_resolve c get_ok set_ok s) as [-> | ->];
    [reflexivity | now apply incrementVisits_absent].
Qed.

(** One request leaves a row that stays in the table as it is, or counts
    one more visit on it. *)
Lemma handle_row req s r s' c row row' :
  handle req s = Reply r s' ->
  stmts.findByCode c (urls s) = Some row ->
  stmts.findByCode c (urls s') = Some row' ->
  row' = row \/ row' = visited row.
Proof.
  intros H Hrow Hrow'. apply handle_urls in H
    as [E | [(c0 & u & n & Hc & E) | [(c0 & E) | (c0 & E)]]];
    rewrite E in Hrow'.
  - left. congruence.
  - rewrite findByCode_app, Hrow in Hrow'. left. congruence.
  - rewrite findByCode_incrementVisits, Hrow in Hrow'.
    destruct (String.eqb c0 c); cbn in Hrow'; [right | left]; congruence.
  - rewrite findByCode_deleteByCode in Hrow'.
    destruct (String.eqb c0 c); [discriminate | left; congruence].
Qed.


(** C9: [resolve c] changes nothing in the table but the visits of the
    row with code [c]: row by row, the code, the original URL and the
    creation time are the same, and a row with another code is the same
    row.  No request changes the creation time (or the code or URL) of a
    row that stays in the table, and the events between requests do not
    touch the table. *)
Theorem resolve_changes_only_visits c get_ok set_ok s :
  Forall2
    (fun row row' =>
       code row' = code row /\ original_url row' = original_url row
       /\ created_at row' = created_at row
       /\ (code row <> c -> row' = row))
    (urls s) (urls (snd (resolve c get_ok set_ok s)))
  /\ (forall req r s' c' row row',
        handle req s = Reply r s' ->
        stmts.findByCode c' (urls s) = Some row ->
        stmts.findByCode c' (urls s') = Some row' ->
        code row' = code row /\ original_url row' = original_url row
        /\ created_at row' = created_at row)
  /\ (forall e, urls (on_event e s) = urls s).
Proof.
  split; [| split].
  - destruct (urls_resolve c get_ok set_ok s) as [-> | ->].
    + induction (urls s); constructor; auto.
    + unfold stmts.incrementVisits.
      induction (urls s) as [| row rows IH]; cbn; constructor; [| exact IH].
      destruct (String.eqb_spec (code row) c); cbn; tauto.
  - intros req r s' c' row row' H Hrow Hrow'.
    destruct (handle_row _ _ _ _ _ _ _ H Hrow Hrow') as [-> | ->]; cbn; auto.
  - intros e. apply urls_on_event.
Qed.

End ServerProperties.

(** ** A run of the server

    The input [github.com] is shortened with the cache connected; then Redis drops out, the record is removed, and
    Redis comes back with the entry of the removed code still in it. *)

Module Demo.

(** No domain of the run needs Unicode ToASCII. *)
Definition no_idna : list ascii -> option (list ascii) := fun _ => None.

Definition PORT : N := 3000.
Definition now : string := "2024-01-01T00:00:00.000Z".
Definition draw : RandomBytes4 := (x00, x01, x02, x03)%byte.

Definition started : State := on_event RedisReady (initial ∅).

Definition created : State :=
  {| urls := [new_row "AAECAw" "https://github.com/" now];
     redisConnected := true;
     redis := {[ "url:AAECAw"%string := "https://github.com/"%string ]} |}.

Definition stale : State :=
  {| urls := [];
     redisConnected := true;
     redis := {[ "url:AAECAw"%string := "https://github.com/"%string ]} |}.

Lemma shorten_github :
  shorten no_idna PORT (JsString "github.com") now [draw] true started
  = Reply (Json 201 (ShortenBody "http://localhost:3000/AAECAw" "AAECAw"
                       "https://github.com/")) created.
Proof. vm_compute. reflexivity. Qed.

Lemma reachable_created : reachable no_idna PORT created.
Proof.
  apply reachable_request
    with (req := Shorten (JsString "github.com") now [draw] true)
         (s := started)
         (r := Json 201 (ShortenBody "http://localhost:3000/AAECAw" "AAECAw"
                           "https://github.com/")).
  - apply reachable_event, reachable_initial.
  - exact shorten_github.
Qed.

Lemma reachable_stale : reachable no_idna PORT stale.
Proof.
  change stale with
    (on_event RedisReady
       (snd (remove "AAECAw" true (on_event RedisError created)))).
  apply reachable_event.
  apply reachable_request
    with (req := Remove "AAECAw" true) (s := on_event RedisError created)
         (r := Json 200 (MessageBody "Deleted")).
  - apply reachable_event, reachable_created.
  - vm_compute. reflexivity.
Qed.

End Demo.



Lemma remove_exact_witness :
  fst (remove "AAECAw" true Demo.created) = Json 200 (MessageBody "Deleted")
  /\ remove "zzzzzz" true Demo.created = (not_found, Demo.created).
Proof.
  split.
  - exact (proj1 (remove_exact Demo.no_idna Demo.PORT "AAECAw" true
                    Demo.created Demo.reachable_created)).
  - exact (remove_exact Demo.no_idna Demo.PORT "zzzzzz" true
             Demo.created Demo.reachable_created).
Defined.

Lemma shorten_twice_same_code_witness :
  shorten Demo.no_idna Demo.PORT (JsString "  HTTPS://GitHub.com  ")
    "2024-01-02T00:00:00.000Z" [] false Demo.created
  = Reply (Json 200 (ShortenBody "http://localhost:3000/AAECAw" "AAECAw"
                       "https://github.com/")) Demo.created.
Proof.
  apply (shorten_twice_same_code Demo.no_idna Demo.PORT "github.com"
           Demo.now [Demo.draw] true Demo.started 201).
  - vm_compute. reflexivity.
  - vm_compute. reflexivity.
Defined.



Lemma resolve_changes_only_visits_witness :
  created_at (new_row "AAECAw" "https://github.com/" Demo.now)
  = created_at (visited (new_row "AAECAw" "https://github.com/" Demo.now)).
Proof.
  symmetry.
  refine (proj2 (proj2 (proj1 (proj2 (resolve_changes_only_visits
    Demo.no_idna Demo.PORT "AAECAw" true true Demo.created))
    (Resolve "AAECAw" true true) (Redirect "https://github.com/")
    (snd (resolve "AAECAw" true true Demo.created)) "AAECAw"%string
    _ _ _ _ _))).
  - vm_compute. reflexivity.
  - vm_compute. reflexivity.
  - vm_compute. reflexivity.
Defined.

(** ** Trimming *)

Lemma ascii_forallb (P : ascii -> bool) :
  forallb P (List.map ascii_of_nat (seq 0 256)) = true ->
  forall c, P c = true.
Proof.
  intros H c. rewrite forallb_forall in H. apply H.
  apply in_map_iff. exists (nat_of_ascii c). split.
  - apply ascii_nat_embedding.
  - apply in_seq. pose proof (nat_ascii_bounded c). lia.
Qed.

Lemma implb_negb_elim (x y : bool) :
  implb x (negb y) = true -> x = true -> y = false.
Proof. now destruct x, y. Qed.

(** First bytes of the white space codes, and the bytes that continue
    the longer ones. *)
Definition ws_lead (c : ascii) : bool :=
  ws1 c || WHATWG.code_in [194; 225; 226; 227; 239] c.

Definition ws_second (c : ascii) : bool :=
  WHATWG.code_in [160; 154; 128; 129; 187] c.

Definition ws_third (c : ascii) : bool :=
  Char.between 128 138 c || WHATWG.code_in [128; 168; 169; 175; 159; 191] c.

Ltac ws_cases H :=
  unfold ws2, ws3 in H;
  repeat rewrite ?orb_true_iff, ?andb_true_iff in H;
  decompose [and or] H; clear H;
  unfold ws_lead, ws_second, ws_third, WHATWG.code_in, Char.between;
  cbn [existsb];
  repeat match goal with
         | E : (_ =? _) = true |- _ => rewrite E
         | E : (_ <=? _) = true |- _ => rewrite E
         end;
  rewrite ?orb_true_r; reflexivity.

Lemma ws2_lead a b : ws2 a b = true -> ws_lead a = true.
Proof. intros H. ws_cases H. Qed.

Lemma ws2_second a b : ws2 a b = true -> ws_second b = true.
Proof. intros H. ws_cases H. Qed.

Lemma ws3_lead a b c : ws3 a b c = true -> ws_lead a = true.
Proof. intros H. ws_cases H. Qed.

Lemma ws3_second a b c : ws3 a b c = true -> ws_second b = true.
Proof. intros H. ws_cases H. Qed.

Lemma ws3_third a b c : ws3 a b c = true -> ws_third c = true.
Proof. intros H. ws_cases H. Qed.

Lemma ws_lead_not_second c : ws_lead c = true -> ws_second c = false.
Proof.
  apply implb_negb_elim. revert c. apply ascii_forallb.
  vm_compute. reflexivity.
Qed.

Lemma ws_lead_not_third c : ws_lead c = true -> ws_third c = false.
Proof.
  apply implb_negb_elim. revert c. apply ascii_forallb.
  vm_compute. reflexivity.
Qed.

Lemma ws_second_not_ws1 c : ws_second c = true -> ws1 c = false.
Proof.
  apply implb_negb_elim. revert c. apply ascii_forallb.
  vm_compute. reflexivity.
Qed.

Lemma ws_third_not_ws1 c : ws_third c = true -> ws1 c = false.
Proof.
  apply implb_negb_elim. revert c. apply ascii_forallb.
  vm_compute. reflexivity.
Qed.

Lemma ws_lead_not_ws2 a b : ws_lead b = true -> ws2 a b = false.
Proof.
  intros H. destruct (ws2 a b) eqn:E; [| reflexivity].
  apply ws2_second in E. rewrite (ws_lead_not_second _ H) in E. discriminate.
Qed.

Lemma ws_lead_not_ws3_second a b c : ws_lead b = true -> ws3 a b c = false.
Proof.
  intros H. destruct (ws3 a b c) eqn:E; [| reflexivity].
  apply ws3_second in E. rewrite (ws_lead_not_second _ H) in E. discriminate.
Qed.

Lemma ws_lead_not_ws3_third a b c : ws_lead c = true -> ws3 a b c = false.
Proof.
  intros H. destruct (ws3 a b c) eqn:E; [| reflexivity].
  apply ws3_third in E. rewrite (ws_lead_not_third _ H) in E. discriminate.
Qed.

Lemma ws_second_not_ws2 (a b c : ascii) :
  ws_second b = true -> ws2 b c = false.
Proof.
  intros H. destruct (ws2 b c) eqn:E; [| reflexivity].
  apply ws2_lead in E. apply ws_lead_not_second in E. congruence.
Qed.

(** Induction on a list through all its shorter lists. *)
Lemma list_length_ind {A} (P : list A -> Prop) :
  (forall l, (forall l', (length l' < length l)%nat -> P l') -> P l) ->
  forall l, P l.
Proof.
  intros H l. remember (length l) as n eqn:Hn. revert l Hn.
  induction n as [n IH] using lt_wf_ind. intros l ->.
  apply H. intros l' Hl'. now apply (IH (length l')).
Qed.

Lemma trimStart_ws_app w x :
  trimStart w = [] -> trimStart (w ++ x) = trimStart x.
Proof.
  induction w as [w IH] using list_length_ind.
  destruct w as [| a w1]; [reflexivity |]. cbn [trimStart app].
  destruct (ws1 a) eqn:E1; [intros H; apply IH; [cbn; lia | exact H] |].
  destruct w1 as [| b w2]; [discriminate |]. cbn [app].
  destruct (ws2 a b) eqn:E2; [intros H; apply IH; [cbn; lia | exact H] |].
  destruct w2 as [| c w3]; [discriminate |]. cbn [app].
  destruct (ws3 a b c) eqn:E3; [intros H; apply IH; [cbn; lia | exact H] |].
  discriminate.
Qed.

Lemma trimStart_rev_ws_app w x :
  trimStart_rev w = [] -> trimStart_rev (w ++ x) = trimStart_rev x.
Proof.
  induction w as [w IH] using list_length_ind.
  destruct w as [| a w1]; [reflexivity |]. cbn [trimStart_rev app].
  destruct (ws1 a) eqn:E1; [intros H; apply IH; [cbn; lia | exact H] |].
  destruct w1 as [| b w2]; [discriminate |]. cbn [app].
  destruct (ws2 b a) eqn:E2; [intros H; apply IH; [cbn; lia | exact H] |].
  destruct w2 as [| c w3]; [discriminate |]. cbn [app].
  destruct (ws3 c b a) eqn:E3; [intros H; apply IH; [cbn; lia | exact H] |].
  discriminate.
Qed.

(** A string of white space is consumed from either end. *)
Lemma trimStart_rev_ws w : trimStart w = [] -> trimStart_rev (rev w) = [].
Proof.
  induction w as [w IH] using list_length_ind.
  destruct w as [| a w1]; [reflexivity |]. cbn [trimStart].
  destruct (ws1 a) eqn:E1.
  { intros H. cbn [rev]. rewrite trimStart_rev_ws_app
      by (apply IH; [cbn; lia | exact H]).
    cbn [app trimStart_rev]. now rewrite E1. }
  destruct w1 as [| b w2]; [discriminate |].
  destruct (ws2 a b) eqn:E2.
  { intros H. cbn [rev]. rewrite <- app_assoc. rewrite trimStart_rev_ws_app
      by (apply IH; [cbn; lia | exact H]).
    cbn [app trimStart_rev].
    now rewrite (ws_second_not_ws1 _ (ws2_second _ _ E2)), E2. }
  destruct w2 as [| c w3]; [discriminate |].
  destruct (ws3 a b c) eqn:E3; [| discriminate].
  intros H. cbn [rev]. rewrite <- !app_assoc. rewrite trimStart_rev_ws_app
    by (apply IH; [cbn; lia | exact H]).
  cbn [app trimStart_rev]. rewrite (ws_third_not_ws1 _ (ws3_third _ _ _ E3)).
  now rewrite (ws_second_not_ws2 a b c (ws3_second _ _ _ E3)), E3.
Qed.

Lemma trimStart_ws_lead b w : trimStart (b :: w) = [] -> ws_lead b = true.
Proof.
  cbn [trimStart]. destruct (ws1 b) eqn:E1.
  { intros _. unfold ws_lead. now rewrite E1. }
  destruct w as [| c w2]; [discriminate |].
  destruct (ws2 b c) eqn:E2; [intros _; now apply ws2_lead with (b := c) |].
  destruct w2 as [| d w3]; [discriminate |].
  destruct (ws3 b c d) eqn:E3; [| discriminate].
  intros _. now apply ws3_lead with (b := c) (c := d).
Qed.

(** White space after [u] does not change where [trimStart] stops. *)
Lemma trimStart_app_ws u w :
  trimStart w = [] ->
  trimStart (u ++ w) =
  match trimStart u with [] => [] | rest => rest ++ w end.
Proof.
  intros Hw. induction u as [u IH] using list_length_ind.
  destruct u as [| a u1]; [cbn; exact Hw |]. cbn [trimStart app].
  destruct (ws1 a) eqn:E1; [apply IH; cbn; lia |].
  destruct u1 as [| b u2].
  { cbn [app]. destruct w as [| b w1]; [reflexivity |].
    pose proof (trimStart_ws_lead _ _ Hw) as Hb.
    rewrite (ws_lead_not_ws2 a b Hb).
    destruct w1 as [| c w2]; [reflexivity |].
    now rewrite (ws_lead_not_ws3_second a b c Hb). }
  cbn [app]. destruct (ws2 a b) eqn:E2; [apply IH; cbn; lia |].
  destruct u2 as [| c u3].
  { cbn [app]. destruct w as [| c w1]; [reflexivity |].
    pose proof (trimStart_ws_lead _ _ Hw) as Hc.
    now rewrite (ws_lead_not_ws3_third a b c Hc). }
  cbn [app]. destruct (ws3 a b c) eqn:E3; [apply IH; cbn; lia |].
  reflexivity.
Qed.

Lemma trimEnd_app_ws u w : trimStart w = [] -> trimEnd (u ++ w) = trimEnd u.
Proof.
  intros Hw. unfold trimEnd. rewrite rev_app_distr.
  now rewrite trimStart_rev_ws_app by now apply trimStart_rev_ws.
Qed.

Lemma list_ascii_of_string_app a b :
  list_ascii_of_string (String.append a b)
  = list_ascii_of_string a ++ list_ascii_of_string b.
Proof.
  induction a as [| c a IH]; [reflexivity |].
  change (c :: list_ascii_of_string (String.append a b)
          = c :: (list_ascii_of_string a ++ list_ascii_of_string b)).
  now rewrite IH.
Qed.

Lemma trim_padding w1 u w2 :
  whitespace w1 -> whitespace w2 ->
  trim (String.append w1 (String.append u w2)) = trim u.
Proof.
  unfold whitespace, trim. intros H1 H2. f_equal.
  rewrite !list_ascii_of_string_app.
  rewrite trimStart_ws_app by assumption.
  rewrite trimStart_app_ws by assumption.
  destruct (trimStart (list_ascii_of_string u)) as [| c rest] eqn:E;
    [reflexivity |].
  now apply trimEnd_app_ws.
Qed.

Section TrimmedInput.

Variable unicodeToASCII : list ascii -> option (list ascii).
Variable PORT : N.

Local Abbreviation shorten := (shorten unicodeToASCII PORT).

(** C10 (amended): [shorten] trims the white space around its input
    before it normalises it.  For every non-empty [u] and white space
    [w1], [w2], the padded input gets the same reply and leaves the same
    state as [u].  For the empty [u] both inputs are rejected with
    status 400 and the state is kept, but not with the same message: the
    empty string fails the presence check that comes before the
    trimming, a string of blanks fails in the normaliser. *)
Theorem shorten_ignores_padding w1 u w2 now draws set_ok s :
  whitespace w1 -> whitespace w2 ->
  trim (String.append w1 (String.append u w2)) = trim u
  /\ (u <> ""%string ->
      shorten (JsString (String.append w1 (String.append u w2)))
        now draws set_ok s
      = shorten (JsString u) now draws set_ok s)
  /\ (u = ""%string ->
      shorten (JsString u) now draws set_ok s
      = Reply (Json 400 (ErrorBody "Missing 'url' in request body")) s
      /\ shorten (JsString (String.append w1 (String.append u w2)))
           now draws set_ok s
         = Reply (Json 400 (ErrorBody
                              (if String.eqb (String.append w1 w2) ""
                               then "Missing 'url' in request body"
                               else "Invalid URL"))) s).
Proof.
  intros H1 H2. pose proof (trim_padding w1 u w2 H1 H2) as Ht.
  split; [exact Ht |]. split.
  - intros Hu. unfold shorten.
    destruct (String.eqb_spec u "") as [E | _]; [contradiction |].
    destruct (String.eqb_spec (String.append w1 (String.append u w2)) "")
      as [E | _].
    + exfalso. apply Hu. destruct w1; [| discriminate].
      destruct u; [reflexivity | discriminate].
    + now rewrite Ht.
  - intros ->. split; [reflexivity |]. unfold shorten.
    change (String.append "" w2) with w2 in *.
    destruct (String.eqb (String.append w1 w2) ""); [reflexivity |].
    rewrite Ht. change (trim "") with ""%string.
    assert (E : normalizeUrl unicodeToASCII "" = None) by reflexivity.
    now rewrite E.
Qed.

(** C2: the inputs the claim itself lists.  [javascript:alert(1)] and
    [data:text/html,x] are rejected, because what follows the colon is
    no port number; [ftp://example.com] is accepted, with [ftp] as the
    host name, and so is [javascript://x]. *)
Theorem normalizeUrl_accepts_ftp_input :
  normalizeUrl unicodeToASCII "ftp://example.com"
  = Some "https://ftp//example.com"%string
  /\ normalizeUrl unicodeToASCII "javascript://x"
     = Some "https://javascript//x"%string
  /\ normalizeUrl unicodeToASCII "javascript:alert(1)" = None
  /\ normalizeUrl unicodeToASCII "data:text/html,x" = None.
Proof. repeat split; reflexivity. Qed.

End TrimmedInput.

Lemma shorten_ignores_padding_witness :
  shorten Demo.no_idna Demo.PORT (JsString "  github.com ") Demo.now
    [Demo.draw] true Demo.started
  = shorten Demo.no_idna Demo.PORT (JsString "github.com") Demo.now
      [Demo.draw] true Demo.started.
Proof.
  refine (proj1 (proj2 (shorten_ignores_padding Demo.no_idna Demo.PORT
    "  " "github.com" " " Demo.now [Demo.draw] true Demo.started _ _)) _).
  - reflexivity.
  - reflexivity.
  - discriminate.
Defined.

(** C10, as stated, fails at the empty input: one blank is answered
    with "Invalid URL", the empty string with "Missing 'url' in request
    body". *)
Lemma shorten_padding_of_empty_differs :
  ~ (forall w1 u w2 now draws set_ok s,
       whitespace w1 -> whitespace w2 ->
       shorten Demo.no_idna Demo.PORT
         (JsString (String.append w1 (String.append u w2))) now draws set_ok s
       = shorten Demo.no_idna Demo.PORT (JsString u) now draws set_ok s).
Proof.
  intros H.
  specialize (H " "%string ""%string ""%string Demo.now [] true Demo.started
                eq_refl eq_refl).
  vm_compute in H. discriminate H.
Qed.

(** ** Facts about the URL parser *)

Module URLFacts.

Import Char WHATWG.

(** *** Lists *)

Definition head_fails {A} (p : A -> bool) (l : list A) : Prop :=
  match l with
  | [] => True
  | c :: _ => p c = false
  end.

Lemma take_while_app {A} (p : A -> bool) a r :
  forallb p a = true -> head_fails p r -> take_while p (a ++ r) = a.
Proof.
  intros Ha Hr. induction a as [| x a IH]; cbn in *.
  - destruct r as [| c r]; [reflexivity | cbn in Hr |- *; now rewrite Hr].
  - apply andb_true_iff in Ha as [-> Ha]. f_equal. auto.
Qed.

Lemma drop_while_app {A} (p : A -> bool) a r :
  forallb p a = true -> head_fails p r -> drop_while p (a ++ r) = r.
Proof.
  intros Ha Hr. induction a as [| x a IH]; cbn in *.
  - destruct r as [| c r]; [reflexivity | cbn in Hr |- *; now rewrite Hr].
  - apply andb_true_iff in Ha as [-> Ha]. auto.
Qed.

Lemma drop_while_none {A} (p : A -> bool) l :
  head_fails p l -> drop_while p l = l.
Proof. destruct l as [| c l]; cbn; [reflexivity | now intros ->]. Qed.

Lemma forallb_weaken (p q : ascii -> bool) l :
  forallb (fun c => implb (p c) (q c)) (List.map ascii_of_nat (seq 0 256))
  = true ->
  forallb p l = true -> forallb q l = true.
Proof.
  intros H Hp. apply forallb_forall. intros c Hc.
  rewrite forallb_forall in Hp. specialize (Hp c Hc).
  pose proof (ascii_forallb _ H c) as E. cbn beta in E.
  now rewrite Hp in E.
Qed.

Lemma char_weaken (p q : ascii -> bool) c :
  forallb (fun c => implb (p c) (q c)) (List.map ascii_of_nat (seq 0 256))
  = true ->
  p c = true -> q c = true.
Proof.
  intros H Hp. pose proof (ascii_forallb _ H c) as E. cbn beta in E.
  now rewrite Hp in E.
Qed.

(** [weaken H] proves that every character of a list satisfies [q] from
    [H], which says that they satisfy [p], by checking the 256 bytes. *)
Ltac weaken H :=
  first [ eapply forallb_weaken; [| exact H]
        | eapply char_weaken; [| exact H] ];
  vm_compute; reflexivity.

Lemma strip_none l :
  forallb (fun c => negb (is_c0_or_space c)) l = true ->
  strip_c0_or_space l = l.
Proof.
  intros H. unfold strip_c0_or_space.
  assert (D : forall l', forallb (fun c => negb (is_c0_or_space c)) l' = true ->
                         drop_while is_c0_or_space l' = l').
  { intros [| c l']; cbn; [reflexivity |].
    intros E. apply andb_true_iff in E as [E _].
    apply negb_true_iff in E. now rewrite E. }
  rewrite (D l H), D, rev_involutive; [reflexivity |].
  rewrite forallb_forall in *. intros c Hc. apply H. now apply in_rev.
Qed.

Lemma filter_none l :
  forallb (fun c => negb (is_c0_or_space c)) l = true ->
  List.filter (fun c => negb (is_tab_or_newline c)) l = l.
Proof.
  intros H. apply filter_all_true. apply forallb_forall. weaken H.
Qed.

(** *** Splitting and joining *)

Fixpoint join (sep : ascii) (items : list (list ascii)) : list ascii :=
  match items with
  | [] => []
  | [item] => item
  | item :: items' => item ++ sep :: join sep items'
  end.

Lemma split_on_app sep item c r :
  forallb (fun c => negb (sep c)) item = true -> sep c = true ->
  split_on sep (item ++ c :: r) = item :: split_on sep r.
Proof.
  intros Hi Hc. induction item as [| x item IH]; cbn in *.
  - now rewrite Hc.
  - apply andb_true_iff in Hi as [Hx Hi]. apply negb_true_iff in Hx.
    now rewrite Hx, IH.
Qed.

Lemma split_on_item sep item :
  forallb (fun c => negb (sep c)) item = true -> split_on sep item = [item].
Proof.
  intros Hi. induction item as [| x item IH]; cbn in *; [reflexivity |].
  apply andb_true_iff in Hi as [Hx Hi]. apply negb_true_iff in Hx.
  now rewrite Hx, IH.
Qed.

Lemma split_on_join sep c items :
  sep c = true -> items <> [] ->
  forallb (fun item => forallb (fun c => negb (sep c)) item) items = true ->
  split_on sep (join c items) = items.
Proof.
  intros Hc. induction items as [| item items IH]; [congruence |].
  intros _ H. cbn [forallb] in H. apply andb_true_iff in H as [Hi H].
  destruct items as [| item' items].
  - now apply split_on_item.
  - change (join c (item :: item' :: items))
      with (item ++ c :: join c (item' :: items)).
    rewrite split_on_app by assumption. f_equal. now apply IH.
Qed.

Lemma split_on_not_nil sep l : split_on sep l <> [].
Proof.
  destruct l as [| c l]; cbn; [discriminate |].
  destruct (sep c); [discriminate |]. now destruct (split_on sep l).
Qed.

Lemma split_on_items sep l :
  forallb (fun item => forallb (fun c => negb (sep c)) item) (split_on sep l)
  = true.
Proof.
  induction l as [| c l IH]; cbn; [reflexivity |].
  destruct (sep c) eqn:E; cbn; [exact IH |].
  destruct (split_on sep l) as [| item items]; cbn in *; now rewrite ?E.
Qed.

Lemma split_on_map sep (f : ascii -> ascii) l :
  (forall c, sep (f c) = sep c) ->
  split_on sep (List.map f l) = List.map (List.map f) (split_on sep l).
Proof.
  intros Hf. induction l as [| c l IH]; cbn; [reflexivity |].
  rewrite Hf, IH. destruct (sep c); [reflexivity |].
  now destruct (split_on sep l).
Qed.

(** *** Numbers *)

(** [P] on every number of [bits] bits written after the bits of
    [base]. *)
Fixpoint all_below (bits : nat) (P : N -> bool) (base : N) : bool :=
  match bits with
  | O => P base
  | S k => all_below k P (2 * base) && all_below k P (2 * base + 1)
  end.

Lemma all_below_spec bits P base :
  all_below bits P base = true ->
  forall n, n < 2 ^ N.of_nat bits -> P (base * 2 ^ N.of_nat bits + n) = true.
Proof.
  revert base. induction bits as [| k IH]; intros base H n Hn.
  - cbn in Hn. replace n with 0 by lia.
    now rewrite N.mul_1_r, N.add_0_r.
  - cbn [all_below] in H. apply andb_true_iff in H as [H0 H1].
    rewrite Nat2N.inj_succ, N.pow_succ_r' in *.
    destruct (N.lt_ge_cases n (2 ^ N.of_nat k)) as [Hlt | Hge].
    + replace (base * (2 * 2 ^ N.of_nat k) + n)
        with (2 * base * 2 ^ N.of_nat k + n) by lia.
      now apply IH.
    + replace (base * (2 * 2 ^ N.of_nat k) + n)
        with ((2 * base + 1) * 2 ^ N.of_nat k + (n - 2 ^ N.of_nat k)) by lia.
      apply IH; [assumption | lia].
Qed.

Lemma N_forallb (P : N -> bool) (bits : nat) :
  all_below bits P 0 = true -> forall n, n < 2 ^ N.of_nat bits -> P n = true.
Proof. intros H n Hn. exact (all_below_spec bits P 0 H n Hn). Qed.

(** What the printed form of a number below [bound] is for a reader of
    radix [R]. *)
Definition prints_well (R : N) (n : N) : bool :=
  let ds := to_radix R n in
  negb (is_nil ds)
  && forallb (fun c => match radix_digit R c with
                       | Some _ => negb (is_upper c)
                       | None => false
                       end) ds
  && match digits_value R 0 ds with Some v => v =? n | None => false end.

Lemma decimal_prints_well n : n < 65536 -> prints_well 10 n = true.
Proof.
  apply (N_forallb (prints_well 10) 16). vm_compute. reflexivity.
Qed.

Lemma hex_prints_well n :
  n < 65536 ->
  prints_well 16 n = true /\ (length (to_radix 16 n) <= 4)%nat.
Proof.
  intros H.
  pose proof (N_forallb
    (fun n => prints_well 16 n && (length (to_radix 16 n) <=? 4)%nat) 16
    ltac:(vm_compute; reflexivity) n H) as E.
  apply andb_true_iff in E as [E1 E2]. split; [exact E1 |].
  now apply Nat.leb_le.
Qed.

Lemma prints_well_digits R n :
  prints_well R n = true ->
  to_radix R n <> []
  /\ forallb (fun c => match radix_digit R c with
                       | Some _ => negb (is_upper c)
                       | None => false
                       end) (to_radix R n) = true
  /\ digits_value R 0 (to_radix R n) = Some n.
Proof.
  unfold prints_well. rewrite !andb_true_iff. intros [[H1 H2] H3].
  split; [| split].
  - now destruct (to_radix R n).
  - exact H2.
  - destruct (digits_value R 0 (to_radix R n)) as [v |]; [| discriminate].
    apply N.eqb_eq in H3. now subst.
Qed.

Lemma byte_prints_well n :
  n < 256 ->
  parse_ipv4_number (to_radix 10 n) = Some n
  /\ forallb is_digit (to_radix 10 n) = true
  /\ to_radix 10 n <> [].
Proof.
  intros H.
  pose proof (N_forallb
    (fun n => match parse_ipv4_number (to_radix 10 n) with
              | Some v => v =? n
              | None => false
              end
              && forallb is_digit (to_radix 10 n)
              && negb (is_nil (to_radix 10 n))) 8
    ltac:(vm_compute; reflexivity) n H) as E.
  apply andb_true_iff in E as [E E3]. apply andb_true_iff in E as [E1 E2].
  split; [| split].
  - destruct (parse_ipv4_number (to_radix 10 n)); [| discriminate].
    apply N.eqb_eq in E1. now subst.
  - exact E2.
  - now destruct (to_radix 10 n).
Qed.

(** *** Percent encoding *)

Definition clean (in_set : ascii -> bool) (l : list ascii) : bool :=
  forallb (fun c => negb (in_set c)) l.

Lemma upper_hex_char_in n : In (upper_hex_char n) (lit "0123456789ABCDEF").
Proof.
  unfold upper_hex_char.
  destruct (Nat.lt_ge_cases (N.to_nat n) 16) as [H | H].
  - apply nth_In. exact H.
  - rewrite nth_overflow by exact H. cbn. auto.
Qed.

Lemma percent_encode_clean in_set l :
  clean in_set (lit "%0123456789ABCDEF") = true ->
  clean in_set (percent_encode in_set l) = true.
Proof.
  unfold clean, percent_encode. intros H.
  induction l as [| c l IH]; cbn [flat_map]; [reflexivity |].
  rewrite forallb_app, IH, andb_true_r.
  destruct (in_set c) eqn:E; cbn; [| now rewrite E].
  rewrite forallb_forall in H.
  rewrite !H; [reflexivity | | | cbn; auto];
    right; apply upper_hex_char_in.
Qed.

Lemma percent_encode_id in_set l :
  clean in_set l = true -> percent_encode in_set l = l.
Proof.
  unfold clean, percent_encode.
  induction l as [| c l IH]; cbn; [reflexivity |].
  intros H. apply andb_true_iff in H as [Hc H].
  apply negb_true_iff in Hc. rewrite Hc. cbn. f_equal. auto.
Qed.

Lemma clean_userinfo l : clean userinfo_set (percent_encode userinfo_set l) = true.
Proof. apply percent_encode_clean. reflexivity. Qed.

Lemma clean_path l : clean path_set (percent_encode path_set l) = true.
Proof. apply percent_encode_clean. reflexivity. Qed.

Lemma clean_query l :
  clean special_query_set (percent_encode special_query_set l) = true.
Proof. apply percent_encode_clean. reflexivity. Qed.

Lemma clean_fragment l :
  clean fragment_set (percent_encode fragment_set l) = true.
Proof. apply percent_encode_clean. reflexivity. Qed.

Lemma percent_decode_id l :
  forallb (fun c => negb (Ascii.eqb c "%")) l = true -> percent_decode l = l.
Proof.
  induction l as [| c l IH]; cbn [percent_decode forallb]; [reflexivity |].
  intros H. apply andb_true_iff in H as [Hc H].
  apply negb_true_iff in Hc. rewrite Hc. f_equal. auto.
Qed.

(** *** IPv4 addresses *)

Definition digit_or_dot (c : ascii) : bool := is_digit c || is_dot c.

Definition ipv4_parts (a : N) : list (list ascii) :=
  [ to_radix 10 (a / 256 ^ 3 mod 256); to_radix 10 (a / 256 ^ 2 mod 256);
    to_radix 10 (a / 256 mod 256); to_radix 10 (a mod 256) ].

Lemma serialize_ipv4_join a :
  serialize_ipv4 a = join "." (ipv4_parts a).
Proof.
  reflexivity.
Qed.

Lemma mod_256_lt n : n mod 256 < 256.
Proof. now apply N.mod_lt. Qed.

Lemma ipv4_parts_digits a :
  forallb (fun item => forallb is_digit item) (ipv4_parts a) = true.
Proof.
  unfold ipv4_parts. cbn [forallb].
  now rewrite !(proj1 (proj2 (byte_prints_well _ (mod_256_lt _)))).
Qed.

Lemma split_serialize_ipv4 a :
  split_on is_dot (serialize_ipv4 a) = ipv4_parts a.
Proof.
  rewrite serialize_ipv4_join.
  apply split_on_join; [reflexivity | discriminate |].
  pose proof (ipv4_parts_digits a) as H. rewrite forallb_forall in *.
  intros item Hi. specialize (H item Hi). weaken H.
Qed.

Lemma forallb_join (p : ascii -> bool) c items :
  p c = true -> forallb (fun item => forallb p item) items = true ->
  forallb p (join c items) = true.
Proof.
  intros Hc. induction items as [| item items IH]; [reflexivity |].
  cbn [forallb]. intros H. apply andb_true_iff in H as [Hi H].
  destruct items as [| item' items]; [exact Hi |].
  change (join c (item :: item' :: items))
    with (item ++ c :: join c (item' :: items)).
  rewrite forallb_app. cbn [forallb]. now rewrite Hi, Hc, IH.
Qed.

Lemma serialize_ipv4_chars a :
  forallb digit_or_dot (serialize_ipv4 a) = true.
Proof.
  rewrite serialize_ipv4_join. apply forallb_join; [reflexivity |].
  pose proof (ipv4_parts_digits a) as H. rewrite forallb_forall in *.
  intros item Hi. specialize (H item Hi). weaken H.
Qed.

Lemma ipv4_bytes a :
  a < 2 ^ 32 ->
  a mod 256 + (a / 256 ^ 3 mod 256 * 256 ^ 3
               + (a / 256 ^ 2 mod 256 * 256 ^ 2
                  + (a / 256 mod 256 * 256 ^ 1 + 0))) = a.
Proof.
  intros H. change (256 ^ 3) with (256 * 256 * 256).
  change (256 ^ 2) with (256 * 256). change (256 ^ 1) with 256.
  rewrite <- !N.Div0.div_div.
  pose proof (N.div_mod a 256 ltac:(discriminate)) as E0.
  pose proof (N.div_mod (a / 256) 256 ltac:(discriminate)) as E1.
  pose proof (N.div_mod (a / 256 / 256) 256 ltac:(discriminate)) as E2.
  assert (E3 : a / 256 / 256 / 256 < 256).
  { rewrite !N.Div0.div_div. apply N.Div0.div_lt_upper_bound.
    change (2 ^ 32) with (256 * 256 * 256 * 256) in H. lia. }
  rewrite (N.mod_small (a / 256 / 256 / 256) 256) by exact E3.
  lia.
Qed.

Lemma parse_serialize_ipv4 a :
  a < 2 ^ 32 -> parse_ipv4 (serialize_ipv4 a) = Some a.
Proof.
  intros H. unfold parse_ipv4. rewrite split_serialize_ipv4.
  unfold ipv4_parts. cbn [rev app].
  destruct (byte_prints_well (a mod 256) (mod_256_lt _)) as (E0 & _ & N0).
  destruct (byte_prints_well (a / 256 mod 256) (mod_256_lt _)) as (E1 & _ & _).
  destruct (byte_prints_well (a / 256 ^ 2 mod 256) (mod_256_lt _))
    as (E2 & _ & _).
  destruct (byte_prints_well (a / 256 ^ 3 mod 256) (mod_256_lt _))
    as (E3 & _ & _).
  destruct (to_radix 10 (a mod 256)) as [| c ds] eqn:Ed; [congruence |].
  cbn [length Nat.ltb Nat.leb mapM]. rewrite E3, E2, E1, E0.
  cbn [rev app existsb length N.of_nat Pos.of_succ_nat Pos.succ N.sub].
  pose proof (mod_256_lt a). pose proof (mod_256_lt (a / 256)).
  pose proof (mod_256_lt (a / 256 ^ 2)). pose proof (mod_256_lt (a / 256 ^ 3)).
  repeat match goal with
         | |- context [255 <? ?x] =>
             destruct (N.ltb_spec 255 x); [lia |]
         end.
  cbn [orb]. change (256 ^ (5 - N.of_nat 4)) with 256.
  destruct (N.leb_spec 256 (a mod 256)); [lia |].
  cbn [ipv4_front]. f_equal.
  change (3 - 0) with 3. change (3 - (0 + 1)) with 2.
  change (3 - (0 + 1 + 1)) with 1. now apply ipv4_bytes.
Qed.

Lemma ends_in_number_ipv4 a : ends_in_number (serialize_ipv4 a) = true.
Proof.
  unfold ends_in_number. rewrite split_serialize_ipv4.
  unfold ipv4_parts. cbn [rev app].
  destruct (byte_prints_well (a mod 256) (mod_256_lt _)) as (_ & D0 & N0).
  destruct (to_radix 10 (a mod 256)) as [| c ds] eqn:Ed; [congruence |].
  unfold last_is_number. now rewrite D0.
Qed.

Lemma mapM_length {A B} (f : A -> option B) l l' :
  mapM f l = Some l' -> length l' = length l.
Proof.
  revert l'. induction l as [| x l IH]; cbn; intros l'.
  - now intros [= <-].
  - destruct (f x); [| discriminate]. destruct (mapM f l); [| discriminate].
    intros [= <-]. cbn. f_equal. now apply IH.
Qed.

(** An address the IPv4 parser returns fits in 32 bits. *)
Lemma parse_ipv4_bound input a : parse_ipv4 input = Some a -> a < 2 ^ 32.
Proof.
  unfold parse_ipv4.
  set (parts := match rev (split_on is_dot input) with
                | [] :: p :: ps => rev (p :: ps)
                | _ => split_on is_dot input
                end).
  destruct (Nat.ltb_spec 4 (length parts)) as [| Hlen]; [discriminate |].
  destruct (mapM parse_ipv4_number parts) as [numbers |] eqn:E;
    [| discriminate].
  apply mapM_length in E. rewrite <- E in Hlen. clear E.
  rewrite <- (rev_involutive numbers) in Hlen |- *.
  rewrite length_rev in Hlen |- *. rewrite rev_involutive.
  destruct (rev numbers) as [| last front]; [discriminate |].
  destruct (existsb (fun n => 255 <? n) front) eqn:Ef; [discriminate |].
  destruct (N.leb_spec (256 ^ (5 - N.of_nat (length (last :: front)))) last)
    as [| Hlast]; [discriminate |].
  intros [= <-].
  assert (Hb : forall n, In n front -> n <= 255).
  { intros n Hn. destruct (N.ltb_spec 255 n) as [Hgt |]; [| assumption].
    assert (existsb (fun n => 255 <? n) front = true); [| congruence].
    apply existsb_exists. exists n. split; [assumption |].
    now apply N.ltb_lt. }
  change (2 ^ 32) with 4294967296.
  destruct front as [| n1 [| n2 [| n3 [| n4 front]]]];
    cbn [length rev app ipv4_front] in Hlen, Hlast |- *;
    repeat match goal with
           | H : context [256 ^ ?e] |- _ =>
               let v := eval vm_compute in (256 ^ e) in
               change (256 ^ e) with v in H
           | |- context [256 ^ ?e] =>
               let v := eval vm_compute in (256 ^ e) in
               change (256 ^ e) with v
           end.
  - lia.
  - pose proof (Hb n1 ltac:(cbn; auto)). lia.
  - pose proof (Hb n1 ltac:(cbn; auto)). pose proof (Hb n2 ltac:(cbn; auto)).
    lia.
  - pose proof (Hb n1 ltac:(cbn; auto)). pose proof (Hb n2 ltac:(cbn; auto)).
    pose proof (Hb n3 ltac:(cbn; auto)). lia.
  - lia.
Qed.

(** *** IPv6 addresses *)

Definition hexs (p : N) : list ascii := to_radix 16 p.

Definition is_hex16 (c : ascii) : bool :=
  match radix_digit 16 c with Some _ => true | None => false end.

Definition hex_lower (c : ascii) : bool :=
  match radix_digit 16 c with Some _ => negb (is_upper c) | None => false end.

Definition piece (p : N) : Prop := p < 65536.

Lemma read_hex_app n ds rest value len v :
  (length ds <= n)%nat -> digits_value 16 value ds = Some v ->
  head_fails is_hex16 rest ->
  read_hex n value len (ds ++ rest) = (v, (len + length ds)%nat, rest).
Proof.
  revert n value len. induction ds as [| c ds IH]; intros n value len Hn Hv Hr.
  - cbn in Hv. injection Hv as <-. cbn [app length]. rewrite Nat.add_0_r.
    destruct n as [| n]; [reflexivity |].
    destruct rest as [| c r]; [reflexivity |].
    cbn in Hr |- *. unfold is_hex16 in Hr.
    now destruct (radix_digit 16 c).
  - destruct n as [| n]; [cbn in Hn; lia |].
    cbn in Hv |- *. destruct (radix_digit 16 c) as [d |]; [| discriminate].
    rewrite (IH n _ (S len)); [f_equal; f_equal; lia | cbn in Hn; lia | | ];
      assumption.
Qed.

Lemma hexs_facts p :
  piece p ->
  hexs p <> [] /\ forallb hex_lower (hexs p) = true
  /\ digits_value 16 0 (hexs p) = Some p /\ (length (hexs p) <= 4)%nat.
Proof.
  intros H. destruct (hex_prints_well p H) as [Hw Hl].
  apply prints_well_digits in Hw as (H1 & H2 & H3). auto.
Qed.

Lemma read_hexs p rest :
  piece p -> head_fails is_hex16 rest ->
  read_hex 4 0 0 (hexs p ++ rest) = (p, length (hexs p), rest).
Proof.
  intros H Hr. destruct (hexs_facts p H) as (_ & _ & Hv & Hl).
  now apply read_hex_app.
Qed.

Lemma hexs_head p :
  piece p -> exists c ds, hexs p = c :: ds /\ hex_lower c = true.
Proof.
  intros H. destruct (hexs_facts p H) as (Hn & Hc & _).
  destruct (hexs p) as [| c ds]; [congruence |].
  cbn in Hc. apply andb_true_iff in Hc as [Hc _]. eauto.
Qed.

Lemma hex_lower_not_colon c : hex_lower c = true -> is_colon c = false.
Proof.
  intros H. apply negb_true_iff.
  apply (char_weaken hex_lower (fun c => negb (is_colon c)) c);
    [vm_compute; reflexivity | exact H].
Qed.

Definition text (B : list N) : list ascii := join ":" (List.map hexs B).

Lemma text_cons b b' B :
  text (b :: b' :: B) = hexs b ++ ":"%char :: text (b' :: B).
Proof. reflexivity. Qed.

Lemma text_head b B :
  piece b -> exists c r, text (b :: B) = c :: r /\ hex_lower c = true.
Proof.
  intros H. destruct (hexs_head b H) as (c & ds & E & Hc).
  destruct B as [| b' B].
  - exists c, ds. now rewrite <- E.
  - rewrite text_cons, E. cbn. eauto.
Qed.

Lemma loop_nil fuel pieces compress :
  ipv6_loop fuel pieces compress [] = Some (pieces, compress).
Proof. now destruct fuel. Qed.

Lemma read_hex_length n :
  forall value len l v len' r,
    read_hex n value len l = (v, len', r) -> (length r <= length l)%nat.
Proof.
  induction n as [| n IH]; intros value len l v len' r; cbn [read_hex].
  - now intros [= _ _ <-].
  - destruct l as [| c l]; [now intros [= _ _ <-] |].
    destruct (radix_digit 16 c); [| now intros [= _ _ <-]].
    intros H. apply IH in H. cbn [length]. lia.
Qed.

(** The loop of the IPv6 parser never runs out of fuel: with at least
    the length of the input, the result does not depend on the fuel. *)
Lemma ipv6_loop_fuel n :
  forall m pieces compress l,
    (length l <= n)%nat -> (length l <= m)%nat ->
    ipv6_loop n pieces compress l = ipv6_loop m pieces compress l.
Proof.
  induction n as [| n IH]; intros m pieces compress l Hn Hm;
    destruct l as [| c l]; try (now rewrite !loop_nil);
    cbn [length] in Hn, Hm; [lia |].
  destruct m as [| m]; [lia |]. cbn [ipv6_loop].
  destruct (length pieces =? 8)%nat; [reflexivity |].
  destruct (is_colon c).
  { destruct compress; [reflexivity |]. apply IH; lia. }
  destruct (read_hex 4 0 0 (c :: l)) as [[value len] r] eqn:E.
  apply read_hex_length in E. cbn [length] in E.
  destruct r as [| d r]; [reflexivity |]. cbn [length] in E.
  destruct (is_dot d); [reflexivity |].
  destruct (is_colon d); [| reflexivity].
  destruct r as [| d' r]; [reflexivity |]. apply IH; cbn [length] in *; lia.
Qed.

(** One turn of the loop on a piece that is followed by a colon and
    more input. *)
Lemma loop_step fuel pieces compress b T :
  piece b -> (length pieces < 8)%nat -> T <> [] ->
  ipv6_loop (S fuel) pieces compress (hexs b ++ ":"%char :: T)
  = ipv6_loop fuel (pieces ++ [b]) compress T.
Proof.
  intros Hb Hlen HT. destruct (hexs_head b Hb) as (c & ds & E & Hc).
  pose proof (read_hexs b (":"%char :: T) Hb eq_refl) as Hr.
  rewrite E in Hr |- *. cbn [app] in Hr |- *. cbn [ipv6_loop].
  destruct (Nat.eqb_spec (length pieces) 8) as [| _]; [lia |].
  rewrite (hex_lower_not_colon c Hc), Hr.
  change (is_dot ":") with false. change (is_colon ":") with true. cbn match.
  destruct T; [congruence | reflexivity].
Qed.

Lemma loop_last fuel pieces compress b :
  piece b -> (length pieces < 8)%nat ->
  ipv6_loop (S fuel) pieces compress (hexs b)
  = Some (pieces ++ [b], compress).
Proof.
  intros Hb Hlen. destruct (hexs_head b Hb) as (c & ds & E & Hc).
  pose proof (read_hexs b [] Hb I) as Hr. rewrite app_nil_r in Hr.
  rewrite E in Hr |- *. cbn [ipv6_loop].
  destruct (Nat.eqb_spec (length pieces) 8) as [| _]; [lia |].
  now rewrite (hex_lower_not_colon c Hc), Hr.
Qed.

Lemma loop_pieces B :
  forall pieces compress fuel,
    B <> [] -> Forall piece B -> (length pieces + length B <= 8)%nat ->
    (length (text B) <= fuel)%nat ->
    ipv6_loop fuel pieces compress (text B) = Some (pieces ++ B, compress).
Proof.
  induction B as [| b B IH]; [congruence |].
  intros pieces compress fuel _ HB Hlen Hfuel.
  inversion HB as [| ? ? Hb HB']; subst.
  destruct (text_head b B Hb) as (c & r & E & _).
  destruct fuel as [| fuel]; [rewrite E in Hfuel; cbn in Hfuel; lia |].
  cbn [length] in Hlen. destruct B as [| b' B].
  - apply loop_last; [assumption | lia].
  - rewrite text_cons in Hfuel |- *.
    destruct (text_head b' B ltac:(now inversion HB')) as (c' & r' & E' & _).
    rewrite loop_step; [| assumption | lia | rewrite E'; discriminate].
    rewrite IH; [now rewrite <- app_assoc | discriminate | assumption | |].
    + rewrite length_app. cbn [length] in *. lia.
    + rewrite length_app in Hfuel. cbn [length] in Hfuel. lia.
Qed.

Definition prefix (A : list N) : list ascii :=
  flat_map (fun a => hexs a ++ lit ":") A.

Lemma loop_prefix A :
  forall pieces fuel rest R,
    Forall piece A -> (length pieces + length A < 8)%nat -> rest <> [] ->
    (forall fuel', (length rest <= fuel')%nat ->
                   ipv6_loop fuel' (pieces ++ A) None rest = R) ->
    (length (prefix A ++ rest) <= fuel)%nat ->
    ipv6_loop fuel pieces None (prefix A ++ rest) = R.
Proof.
  induction A as [| a A IH]; intros pieces fuel rest R HA Hlen Hrest HR Hfuel.
  - rewrite app_nil_r in HR. now apply HR.
  - inversion HA as [| ? ? Ha HA']; subst.
    cbn [prefix flat_map] in Hfuel |- *. fold (prefix A) in Hfuel |- *.
    rewrite <- !app_assoc in Hfuel |- *.
    cbn [lit list_ascii_of_string app] in Hfuel |- *.
    destruct (hexs_head a Ha) as (c & ds & E & _).
    destruct fuel as [| fuel];
      [rewrite E in Hfuel; cbn in Hfuel; lia |].
    cbn [length] in Hlen.
    rewrite loop_step; [| assumption | lia |].
    2: { destruct (prefix A); [assumption | discriminate]. }
    apply IH; [assumption | rewrite length_app; cbn; lia | assumption | |].
    + intros fuel' Hf. rewrite <- app_assoc. now apply HR.
    + rewrite length_app in Hfuel. cbn [length] in Hfuel. lia.
Qed.

(** The serialiser. *)

Lemma out_plain B :
  forall idx compress,
    match compress with Some k => (k < idx)%nat | None => True end ->
    (idx + length B = 8)%nat ->
    ipv6_out B idx compress false = text B.
Proof.
  induction B as [| b B IH]; intros idx compress Hc Hlen; [reflexivity |].
  cbn [ipv6_out andb length] in *.
  assert (E : ipv6_out B (S idx) compress false = text B).
  { apply IH; [destruct compress; lia | lia]. }
  assert (Hout : to_radix 16 b ++ (if (idx =? 7)%nat then [] else lit ":")
                 ++ ipv6_out B (S idx) compress false = text (b :: B)).
  { rewrite E. destruct B as [| b' B].
    - cbn [length] in Hlen.
      destruct (Nat.eqb_spec idx 7) as [_ |]; [| lia].
      unfold text. cbn. now rewrite app_nil_r.
    - cbn [length] in Hlen.
      destruct (Nat.eqb_spec idx 7) as [| _]; [lia |]. reflexivity. }
  destruct compress as [k |]; [| exact Hout].
  destruct (Nat.eqb_spec k idx) as [| _]; [lia | exact Hout].
Qed.

Definition starts_nonzero (B : list N) : Prop :=
  match B with [] => True | b :: _ => b <> 0 end.

Lemma out_skip m B :
  forall idx k,
    (k < idx)%nat -> starts_nonzero B -> (idx + m + length B = 8)%nat ->
    ipv6_out (repeat 0 m ++ B) idx (Some k) true = text B.
Proof.
  induction m as [| m IH]; intros idx k Hk HB Hlen.
  - cbn [repeat app]. destruct B as [| b B]; [reflexivity |].
    rewrite <- (out_plain (b :: B) idx (Some k)) by lia.
    cbn [ipv6_out]. cbn in HB. destruct (N.eqb_spec b 0) as [| _];
      [contradiction | reflexivity].
  - cbn [repeat app ipv6_out N.eqb andb]. apply IH; [lia | assumption | lia].
Qed.

Lemma out_compress A :
  forall idx m B,
    starts_nonzero B -> (idx + length A + S m + length B = 8)%nat ->
    ipv6_out (A ++ 0 :: repeat 0 m ++ B) idx (Some (idx + length A)%nat) false
    = prefix A
      ++ (if (idx + length A =? 0)%nat then lit "::" else lit ":")
      ++ text B.
Proof.
  induction A as [| a A IH]; intros idx m B HB Hlen.
  - cbn [length app prefix flat_map ipv6_out andb] in *.
    rewrite Nat.add_0_r in *. rewrite Nat.eqb_refl.
    rewrite out_skip; [reflexivity | lia | assumption | lia].
  - cbn [length app prefix flat_map ipv6_out andb] in *.
    fold (prefix A).
    destruct (Nat.eqb_spec (idx + S (length A)) idx) as [| _]; [lia |].
    destruct (Nat.eqb_spec idx 7) as [| _]; [lia |].
    rewrite <- Nat.add_succ_comm. rewrite IH by (assumption || lia).
    now rewrite <- !app_assoc.
Qed.

Lemma find_compress_spec l :
  forall idx best blen k,
    find_compress l idx best blen = Some k ->
    best = Some k
    \/ exists j, k = (idx + j)%nat /\ (blen < zero_run (skipn j l))%nat.
Proof.
  induction l as [| x l IH]; intros idx best blen k; [cbn; auto |].
  cbn [find_compress].
  destruct (Nat.ltb_spec blen (zero_run (x :: l))) as [Hlt | Hge]; intros H.
  - right. apply IH in H as [[= <-] | (j & -> & Hj)].
    + exists 0%nat. cbn [skipn]. split; [lia | assumption].
    + exists (S j). cbn [skipn]. split; lia.
  - apply IH in H as [-> | (j & -> & Hj)]; [now left | right].
    exists (S j). cbn [skipn]. split; [lia | assumption].
Qed.

Lemma zero_run_split l :
  exists B, l = repeat 0 (zero_run l) ++ B /\ starts_nonzero B.
Proof.
  induction l as [| x l (B & E & HB)].
  - exists []. now split.
  - destruct x as [| x].
    + exists B. cbn [zero_run repeat app]. split; [now rewrite <- E | assumption].
    + exists (N.pos x :: l). cbn. split; [reflexivity | discriminate].
Qed.

Lemma parse_ipv6_hex_start l c r :
  l = c :: r -> is_colon c = false ->
  parse_ipv6 l =
  match ipv6_loop (length l) [] None l with
  | None => None
  | Some (pieces, Some k) =>
      Some (firstn k pieces ++ repeat 0 (8 - length pieces) ++ skipn k pieces)
  | Some (pieces, None) =>
      if (length pieces =? 8)%nat then Some pieces else None
  end.
Proof. intros -> Hc. unfold parse_ipv6. now rewrite Hc. Qed.

(** Parsing what the serialiser wrote gives the address back. *)
Lemma parse_serialize_ipv6 p :
  length p = 8%nat -> Forall piece p ->
  parse_ipv6 (serialize_ipv6 p) = Some p.
Proof.
  intros Hlen Hp. unfold serialize_ipv6.
  destruct (find_compress p 0 None 1) as [k |] eqn:Ek.
  - apply find_compress_spec in Ek as [[=] | (j & -> & Hj)]. cbn [Nat.add] in *.
    destruct (zero_run_split (skipn j p)) as (B & E & HB).
    destruct (zero_run (skipn j p)) as [| m]; [lia |]. clear Hj.
    assert (Ep : p = firstn j p ++ 0 :: repeat 0 m ++ B)
      by (rewrite <- (firstn_skipn j p) at 1; now rewrite E).
    assert (Hj : j = length (firstn j p)).
    { rewrite length_firstn. apply (f_equal (@length N)) in E.
      rewrite length_skipn, length_app in E. cbn in E. lia. }
    remember (firstn j p) as A eqn:EA. clear EA E. subst j p.
    rewrite !length_app in Hlen. cbn [length] in Hlen.
    rewrite length_app, repeat_length in Hlen.
    apply Forall_app in Hp as [HA Hp]. inversion Hp as [| ? ? _ Hp']; subst.
    apply Forall_app in Hp' as [_ HB'].
    pose proof (out_compress A 0 m B HB ltac:(cbn; lia)) as Ho.
    cbn [Nat.add] in Ho. rewrite Ho. clear Ho.
    destruct A as [| a A].
    + unfold parse_ipv6. cbn [length prefix flat_map app Nat.eqb lit list_ascii_of_string
           is_colon Ascii.eqb Bool.eqb].
      change (is_colon ":") with true. cbn match.
      assert (Hloop : ipv6_loop (length (text B)) [0] (Some 1%nat) (text B)
                      = Some ([0] ++ B, Some 1%nat)).
      { destruct B as [| b B]; [apply loop_nil |].
        apply loop_pieces; [discriminate | assumption | cbn in *; lia | lia]. }
      rewrite Hloop. cbn [app firstn skipn length]. f_equal. cbn [app].
      f_equal. cbn [length] in Hlen.
      replace (8 - S (length B))%nat with m by lia. reflexivity.
    + inversion HA as [| ? ? Ha HA']; subst.
      destruct (hexs_head a Ha) as (c & ds & Eh & Hc).
      cbn [length] in Hlen. cbn [length Nat.eqb].
      change (lit ":" ++ text B) with (":"%char :: text B).
      rewrite (parse_ipv6_hex_start _ c
                 (ds ++ lit ":" ++ prefix A ++ ":"%char :: text B));
        [| | now apply hex_lower_not_colon].
      2: { cbn [prefix flat_map]. rewrite Eh. now rewrite <- !app_assoc. }
      rewrite (loop_prefix (a :: A) [] _ (":"%char :: text B)
                 (Some ((a :: A) ++ 0 :: B, Some (S (S (length A))))));
        [| assumption | cbn; lia | discriminate | | lia].
      * cbn [fst snd]. rewrite firstn_app.
        replace (S (S (length A)) - length (a :: A))%nat with 1%nat
          by (cbn; lia).
        rewrite firstn_all2 by (cbn; lia).
        rewrite skipn_app.
        replace (S (S (length A)) - length (a :: A))%nat with 1%nat
          by (cbn; lia).
        rewrite skipn_all2 by (cbn; lia).
        rewrite length_app. cbn [length].
        replace (8 - (S (length A) + S (length B)))%nat with m by lia.
        cbn [firstn skipn app]. rewrite <- app_assoc. reflexivity.
      * intros fuel' Hf. cbn [app]. destruct fuel' as [| fuel'];
          [cbn in Hf; lia |].
        cbn [ipv6_loop].
        destruct (Nat.eqb_spec (length (a :: A)) 8) as [E8 | _];
          [cbn in E8; lia |].
        change (is_colon ":") with true. cbn match.
        destruct B as [| b B].
        -- change (text []) with (@nil ascii). now rewrite loop_nil.
        -- rewrite loop_pieces;
             [now rewrite <- app_assoc | discriminate | assumption | |].
           ++ rewrite length_app. cbn [length] in *. lia.
           ++ cbn [length] in Hf. lia.
  - rewrite (out_plain p 0 None I) by (cbn; lia).
    destruct p as [| a p]; [discriminate |].
    inversion Hp as [| ? ? Ha _]; subst.
    destruct (text_head a p Ha) as (c & r & E & Hc).
    rewrite (parse_ipv6_hex_start _ c r E (hex_lower_not_colon c Hc)).
    rewrite loop_pieces; [| discriminate | assumption | cbn in *; lia | lia].
    cbn [app]. now rewrite Hlen.
Qed.
(** What the IPv6 parser returns is an address: eight pieces of 16
    bits. *)

Lemma read_hex_bound n :
  forall value len l v len' r k,
    read_hex n value len l = (v, len', r) ->
    value < 16 ^ k -> v < 16 ^ (k + N.of_nat n).
Proof.
  induction n as [| n IH]; intros value len l v len' r k H Hv.
  - cbn in H. injection H as <- _ _. now rewrite N.add_0_r.
  - assert (Hmono : 16 ^ k <= 16 ^ (k + N.of_nat (S n)))
      by (apply N.pow_le_mono_r; lia).
    cbn [read_hex] in H. destruct l as [| c l].
    { injection H as <- _ _. lia. }
    unfold radix_digit in H.
    destruct (digit_value c) as [d |]; [| injection H as <- _ _; lia].
    destruct (N.ltb_spec d 16) as [Hd |]; [| injection H as <- _ _; lia].
    apply (IH _ _ _ _ _ _ (k + 1)) in H.
    + now replace (k + N.of_nat (S n)) with (k + 1 + N.of_nat n) by lia.
    + rewrite N.pow_add_r. change (16 ^ 1) with 16. lia.
Qed.

Lemma ipv4_piece_bound l :
  forall acc v r,
    ipv4_piece acc l = Some (v, r) ->
    match acc with Some a => a <= 255 | None => True end -> v <= 255.
Proof.
  induction l as [| c l IH]; intros acc v r; cbn [ipv4_piece].
  - destruct acc as [a |]; [| discriminate]. now intros [= <- _].
  - destruct (is_digit c) eqn:Ed.
    + destruct acc as [[| a] |]; [discriminate | |].
      * destruct (N.ltb_spec 255 (N.pos a * 10 + (code c - 48))) as [| Hle];
          [discriminate |].
        intros H _. apply IH in H; [assumption | cbn; lia].
      * intros H _. apply IH in H; [assumption |]. cbn.
        assert (Hc : code c <= 57).
        { unfold is_digit, between in Ed.
          apply andb_true_iff in Ed as [_ Ed]. now apply N.leb_le. }
        lia.
    + destruct acc as [a |]; [| discriminate]. now intros [= <- _].
Qed.

Lemma ipv4_in_ipv6_pieces l p1 p2 :
  ipv4_in_ipv6 l = Some (p1, p2) -> piece p1 /\ piece p2.
Proof.
  unfold ipv4_in_ipv6.
  destruct (ipv4_piece None l) as [[n1 [| c1 l1]] |] eqn:E1;
    try discriminate.
  destruct (is_dot c1); [| discriminate]. cbn [negb].
  destruct (ipv4_piece None l1) as [[n2 [| c2 l2]] |] eqn:E2;
    try discriminate.
  destruct (is_dot c2); [| discriminate]. cbn [negb].
  destruct (ipv4_piece None l2) as [[n3 [| c3 l3]] |] eqn:E3;
    try discriminate.
  destruct (is_dot c3); [| discriminate]. cbn [negb].
  destruct (ipv4_piece None l3) as [[n4 [| c4 l4]] |] eqn:E4;
    try discriminate.
  apply ipv4_piece_bound in E1, E2, E3, E4; try exact I.
  intros [= <- <-]. unfold piece. lia.
Qed.

Definition loop_invariant (pieces : list N) (compress : option nat) : Prop :=
  Forall piece pieces /\ (length pieces <= 8)%nat
  /\ match compress with Some k => (k <= length pieces)%nat | None => True end.

Lemma ipv6_loop_invariant fuel :
  forall pieces compress l pieces' compress',
    ipv6_loop fuel pieces compress l = Some (pieces', compress') ->
    loop_invariant pieces compress -> loop_invariant pieces' compress'.
Proof.
  induction fuel as [| fuel IH]; intros pieces compress l pieces' compress';
    destruct l as [| c l]; cbn [ipv6_loop];
    try discriminate; try (now intros [= <- <-]).
  intros H (Hp & Hlen & Hc).
  destruct (Nat.eqb_spec (length pieces) 8) as [| Hne]; [discriminate |].
  destruct (is_colon c).
  { destruct compress; [discriminate |].
    apply IH in H; [assumption |]. repeat split.
    - apply Forall_app. split; [assumption |]. repeat constructor.
    - rewrite length_app. cbn. lia.
    - rewrite length_app. cbn. lia. }
  destruct (read_hex 4 0 0 (c :: l)) as [[value len] r] eqn:Er.
  assert (Hv : piece value).
  { apply (read_hex_bound 4 _ _ _ _ _ _ 0) in Er; [exact Er | reflexivity]. }
  assert (Hnext : loop_invariant (pieces ++ [value]) compress).
  { repeat split.
    - apply Forall_app. split; [assumption |]. now repeat constructor.
    - rewrite length_app. cbn. lia.
    - destruct compress; [| exact I]. rewrite length_app. lia. }
  destruct r as [| d r']; [now injection H as <- <- |].
  destruct (is_dot d).
  - destruct (len =? 0)%nat; [discriminate |].
    destruct (Nat.ltb_spec 6 (length pieces)) as [| H6]; [discriminate |].
    destruct (ipv4_in_ipv6 (c :: l)) as [[p1 p2] |] eqn:E4; [| discriminate].
    apply ipv4_in_ipv6_pieces in E4 as [H1 H2]. injection H as <- <-.
    repeat split.
    + apply Forall_app. split; [assumption |]. now repeat constructor.
    + rewrite length_app. cbn. lia.
    + destruct compress; [| exact I]. rewrite length_app. lia.
  - destruct (is_colon d); [| discriminate].
    destruct r'; [discriminate |]. now apply IH in H.
Qed.

Lemma parse_ipv6_address input p :
  parse_ipv6 input = Some p -> length p = 8%nat /\ Forall piece p.
Proof.
  unfold parse_ipv6.
  set (start := match input with
                | [] => Some ([], None, input)
                | c :: l' => _
                end).
  assert (Hstart : forall pieces compress l,
             start = Some (pieces, compress, l) ->
             loop_invariant pieces compress).
  { subst start. intros pieces compress l.
    destruct input as [| c l'].
    - intros [= <- <- _]. repeat split; [constructor | cbn; lia].
    - destruct (is_colon c).
      + destruct l' as [| c' l'']; [discriminate |].
        destruct (is_colon c'); [| discriminate].
        intros [= <- <- _]. repeat split; cbn; try lia.
        now repeat constructor.
      + intros [= <- <- _]. repeat split; [constructor | cbn; lia]. }
  destruct start as [[[pieces compress] l] |]; [| discriminate].
  specialize (Hstart _ _ _ eq_refl).
  destruct (ipv6_loop (length l) pieces compress l) as [[pieces' compress'] |]
    eqn:E; [| discriminate].
  apply ipv6_loop_invariant in E; [| assumption].
  destruct E as (Hp & Hlen & Hc). destruct compress' as [k |].
  - intros [= <-]. split.
    + rewrite !length_app, repeat_length, length_firstn, length_skipn. lia.
    + apply Forall_app. split; [now apply Forall_take |].
      apply Forall_app. split; [| now apply Forall_drop].
      apply List.Forall_forall. intros x Hx. apply repeat_spec in Hx.
      now subst.
  - destruct (Nat.eqb_spec (length pieces') 8); [| discriminate].
    now intros [= <-].
Qed.

(** *** Domains *)

Lemma existsb_false_forallb {A} (p : A -> bool) l :
  existsb p l = false -> forallb (fun x => negb (p x)) l = true.
Proof.
  induction l as [| x l IH]; cbn; [reflexivity |].
  intros H. apply orb_false_iff in H as [-> H]. now rewrite IH.
Qed.

Lemma forallb_existsb_false {A} (p : A -> bool) l :
  forallb (fun x => negb (p x)) l = true -> existsb p l = false.
Proof.
  induction l as [| x l IH]; cbn; [reflexivity |].
  intros H. apply andb_true_iff in H as [Hx H].
  apply negb_true_iff in Hx. now rewrite Hx, IH.
Qed.

Lemma map_fixed (f : ascii -> ascii) l :
  forallb (fun c => Ascii.eqb (f c) c) l = true -> List.map f l = l.
Proof.
  induction l as [| c l IH]; cbn; [reflexivity |].
  intros H. apply andb_true_iff in H as [Hc H].
  apply Ascii.eqb_eq in Hc. now rewrite Hc, IH.
Qed.

Lemma lower_lower c : lower (lower c) = lower c.
Proof.
  apply Ascii.eqb_eq. revert c. apply ascii_forallb. vm_compute. reflexivity.
Qed.

Lemma is_dot_lower c : is_dot (lower c) = is_dot c.
Proof.
  apply Bool.eqb_prop. revert c.
  apply (ascii_forallb (fun c => Bool.eqb (is_dot (lower c)) (is_dot c))).
  vm_compute. reflexivity.
Qed.

Lemma map_lower_lower l : List.map lower (List.map lower l) = List.map lower l.
Proof.
  rewrite List.map_map. apply List.map_ext. intros c. apply lower_lower.
Qed.

Lemma ascii_only_lower d :
  ascii_only_domain d = true -> ascii_only_domain (List.map lower d) = true.
Proof.
  unfold ascii_only_domain. rewrite !andb_true_iff. intros [Ha Hl]. split.
  - rewrite forallb_forall in *. intros c Hc.
    apply in_map_iff in Hc as (c' & <- & Hc'). specialize (Ha c' Hc').
    apply (char_weaken is_ascii (fun c => is_ascii (lower c)) c');
      [vm_compute; reflexivity | exact Ha].
  - rewrite (split_on_map is_dot lower d is_dot_lower).
    rewrite forallb_forall in *. intros label Hlabel.
    apply in_map_iff in Hlabel as (label' & <- & Hl').
    rewrite map_lower_lower. now apply Hl.
Qed.

Section Domains.

Variable unicodeToASCII : list ascii -> option (list ascii).

Lemma domain_to_ASCII_stable d a :
  toASCII_stable unicodeToASCII ->
  domain_to_ASCII unicodeToASCII d = Some a ->
  domain_to_ASCII unicodeToASCII a = Some a.
Proof.
  intros Hs. unfold domain_to_ASCII at 1.
  destruct (ascii_only_domain d) eqn:Ed.
  - destruct (List.map lower d) as [| c l] eqn:E; [discriminate |].
    intros [= <-]. unfold domain_to_ASCII. rewrite <- E.
    rewrite (ascii_only_lower d Ed), map_lower_lower.
    now rewrite E.
  - destruct (unicodeToASCII d) as [[| c l] |] eqn:E; try discriminate.
    intros [= <-]. now apply (Hs d).
Qed.

Definition wf_host (h : Host) : Prop :=
  match h with
  | Domain d =>
      domain_to_ASCII unicodeToASCII d = Some d
      /\ forallb (fun c => negb (forbidden_domain c)) d = true
      /\ ends_in_number d = false
  | IPv4 a => a < 2 ^ 32
  | IPv6 p => length p = 8%nat /\ Forall piece p
  end.

Lemma parse_host_wf input h :
  toASCII_stable unicodeToASCII -> parse_host unicodeToASCII input = Some h -> wf_host h.
Proof.
  intros Hs. unfold parse_host. destruct input as [| c rest]; [discriminate |].
  destruct (Ascii.eqb c "[").
  - destruct (rev rest) as [| c' inner]; [discriminate |].
    destruct (Ascii.eqb c' "]"); [| discriminate].
    destruct (parse_ipv6 (rev inner)) as [p |] eqn:E; [| discriminate].
    intros [= <-]. now apply parse_ipv6_address with (input := rev inner).
  - destruct (domain_to_ASCII unicodeToASCII (percent_decode (c :: rest)))
      as [a |] eqn:Ea; [| discriminate].
    destruct (existsb forbidden_domain a) eqn:Ef; [discriminate |].
    destruct (ends_in_number a) eqn:En.
    + destruct (parse_ipv4 a) as [v |] eqn:E; [| discriminate].
      intros [= <-]. now apply parse_ipv4_bound with (input := a).
    + intros [= <-]. cbn. repeat split; [| | assumption].
      * now apply domain_to_ASCII_stable with (d := percent_decode (c :: rest)).
      * now apply existsb_false_forallb.
Qed.

Lemma digits_not_punycode label :
  forallb is_digit label = true ->
  starts_with (lit "xn--") (List.map lower label) = false.
Proof.
  destruct label as [| c label]; [reflexivity |]. cbn [forallb].
  intros H. apply andb_true_iff in H as [Hc _].
  cbn [List.map starts_with lit list_ascii_of_string].
  apply andb_false_iff. left. apply negb_true_iff.
  apply (char_weaken is_digit (fun c => negb (Ascii.eqb "x" (lower c))) c);
    [vm_compute; reflexivity | exact Hc].
Qed.

Lemma serialize_ipv4_not_nil a : serialize_ipv4 a <> [].
Proof.
  unfold serialize_ipv4.
  destruct (to_radix 10 (a / 256 ^ 3 mod 256)); discriminate.
Qed.

Lemma domain_to_ASCII_ipv4 a :
  domain_to_ASCII unicodeToASCII (serialize_ipv4 a) = Some (serialize_ipv4 a).
Proof.
  pose proof (serialize_ipv4_chars a) as Hc.
  assert (Ha : ascii_only_domain (serialize_ipv4 a) = true).
  { unfold ascii_only_domain. apply andb_true_iff. split; [weaken Hc |].
    rewrite split_serialize_ipv4.
    pose proof (ipv4_parts_digits a) as H. rewrite forallb_forall in *.
    intros label Hl. apply negb_true_iff, digits_not_punycode. auto. }
  unfold domain_to_ASCII. rewrite Ha.
  rewrite map_fixed by weaken Hc.
  pose proof (serialize_ipv4_not_nil a).
  now destruct (serialize_ipv4 a).
Qed.

Lemma parse_serialize_host h :
  wf_host h -> parse_host unicodeToASCII (serialize_host h) = Some h.
Proof.
  destruct h as [d | a | p]; cbn [wf_host serialize_host].
  - intros (Ha & Hf & Hn). unfold parse_host.
    destruct d as [| c d]; [discriminate |].
    assert (Hc : Ascii.eqb c "[" = false).
    { cbn [forallb] in Hf. apply andb_true_iff in Hf as [Hf _].
      apply negb_true_iff.
      apply (char_weaken (fun c => negb (forbidden_domain c))
               (fun c => negb (Ascii.eqb c "[")) c);
        [vm_compute; reflexivity | exact Hf]. }
    rewrite Hc, percent_decode_id by weaken Hf.
    now rewrite Ha, (forallb_existsb_false _ _ Hf), Hn.
  - intros Ha. unfold parse_host.
    pose proof (serialize_ipv4_chars a) as Hc.
    pose proof (serialize_ipv4_not_nil a) as Hne.
    destruct (serialize_ipv4 a) as [| c s] eqn:E; [congruence |].
    assert (Hb : Ascii.eqb c "[" = false).
    { cbn [forallb] in Hc. apply andb_true_iff in Hc as [Hc _].
      apply negb_true_iff.
      apply (char_weaken digit_or_dot (fun c => negb (Ascii.eqb c "[")) c);
        [vm_compute; reflexivity | exact Hc]. }
    rewrite Hb, percent_decode_id by weaken Hc. rewrite <- E in *.
    rewrite domain_to_ASCII_ipv4.
    rewrite forallb_existsb_false by weaken Hc.
    now rewrite ends_in_number_ipv4, parse_serialize_ipv4.
  - intros [Hlen Hp]. unfold parse_host.
    cbn [lit list_ascii_of_string app]. cbn [Ascii.eqb Bool.eqb].
    rewrite rev_app_distr. cbn [rev app]. cbn [Ascii.eqb Bool.eqb].
    now rewrite rev_involutive, parse_serialize_ipv6.
Qed.

End Domains.
(** *** Well-formed URL records *)

Definition wf_segment (seg : list ascii) : bool :=
  clean path_set seg
  && forallb (fun c => negb (is_slash c)) seg
  && negb (is_double_dot seg) && negb (is_single_dot seg).

Definition wf_port (scheme : string) (p : option N) : Prop :=
  match p with
  | Some n => n < 65536 /\ default_port scheme <> Some n
  | None => True
  end.

Definition wf_part (in_set : ascii -> bool) (part : option (list ascii))
  : Prop :=
  match part with
  | Some l => clean in_set l = true
  | None => True
  end.

Lemma percent_encode_forallb (q in_set : ascii -> bool) l :
  forallb q (lit "%0123456789ABCDEF") = true ->
  forallb q l = true -> forallb q (percent_encode in_set l) = true.
Proof.
  unfold percent_encode. intros H.
  induction l as [| c l IH]; cbn [flat_map forallb]; [reflexivity |].
  intros Hl. apply andb_true_iff in Hl as [Hc Hl].
  rewrite forallb_app, IH, andb_true_r by assumption.
  destruct (in_set c); cbn; [| now rewrite Hc].
  rewrite forallb_forall in H.
  rewrite !H; [reflexivity | | | cbn; auto];
    right; apply upper_hex_char_in.
Qed.

Lemma forallb_removelast {A} (p : A -> bool) l :
  forallb p l = true -> forallb p (removelast l) = true.
Proof.
  induction l as [| x l IH]; [reflexivity |]. cbn [forallb removelast].
  intros H. apply andb_true_iff in H as [Hx H].
  destruct l; [reflexivity |]. cbn [forallb]. now rewrite Hx, IH.
Qed.

Lemma path_segments_wf segs :
  forall acc,
    forallb (fun item => forallb (fun c => negb (is_slash c)) item) segs
    = true ->
    forallb wf_segment acc = true ->
    forallb wf_segment (path_segments segs acc) = true
    /\ (segs <> [] -> path_segments segs acc <> []).
Proof.
  induction segs as [| seg segs IH]; intros acc Hs Hacc; [now split |].
  cbn [forallb] in Hs. apply andb_true_iff in Hs as [Hseg Hs].
  cbn [path_segments].
  set (buffer := percent_encode path_set seg).
  set (acc' := if is_double_dot buffer then _ else _).
  assert (Hacc' : forallb wf_segment acc' = true /\ acc' <> []
                  \/ forallb wf_segment acc' = true /\ segs <> []).
  { subst acc'. destruct (is_double_dot buffer) eqn:Edd.
    - destruct segs; cbn [is_nil]; [left | right].
      + split; [| now destruct (removelast acc)].
        rewrite forallb_app, forallb_removelast by assumption. reflexivity.
      + split; [now apply forallb_removelast | discriminate].
    - destruct (is_single_dot buffer) eqn:Esd.
      + destruct segs; cbn [is_nil]; [left | right].
        * split; [| now destruct acc].
          rewrite forallb_app, Hacc. reflexivity.
        * split; [assumption | discriminate].
      + left. split; [| now destruct acc].
        rewrite forallb_app, Hacc. cbn [forallb]. rewrite andb_true_r.
        unfold wf_segment. rewrite Edd, Esd. subst buffer.
        rewrite clean_path. cbn [negb andb]. rewrite !andb_true_r.
        now apply percent_encode_forallb. }
  destruct Hacc' as [[H1 H2] | [H1 H2]].
  - destruct (IH acc' Hs H1) as [H3 H4]. split; [assumption |].
    intros _. destruct segs; [exact H2 | apply H4; discriminate].
  - destruct (IH acc' Hs H1) as [H3 H4]. split; [assumption | auto].
Qed.

Lemma path_segments_id segs :
  forall acc,
    forallb wf_segment segs = true -> path_segments segs acc = acc ++ segs.
Proof.
  induction segs as [| seg segs IH]; intros acc H.
  - now rewrite app_nil_r.
  - cbn [forallb] in H. apply andb_true_iff in H as [Hseg H].
    unfold wf_segment in Hseg. rewrite !andb_true_iff in Hseg.
    destruct Hseg as [[[Hc _] Hdd] Hsd].
    apply negb_true_iff in Hdd, Hsd.
    cbn [path_segments]. rewrite (percent_encode_id _ _ Hc), Hdd, Hsd.
    rewrite IH by assumption. now rewrite <- app_assoc.
Qed.

Lemma default_port_cases s d :
  default_port s = Some d ->
  s = "http"%string \/ s = "https"%string \/ s = "ftp"%string
  \/ s = "ws"%string \/ s = "wss"%string.
Proof.
  unfold default_port.
  repeat match goal with
         | |- context [String.eqb s ?x] =>
             destruct (String.eqb_spec s x); [tauto |]
         end.
  discriminate.
Qed.

Section URLs.

Variable unicodeToASCII : list ascii -> option (list ascii).

Definition wf_URL (u : URL) : Prop :=
  (exists d, default_port (scheme u) = Some d)
  /\ clean userinfo_set (username u) = true
  /\ clean userinfo_set (password u) = true
  /\ wf_host unicodeToASCII (host u)
  /\ wf_port (scheme u) (port u)
  /\ path u <> [] /\ forallb wf_segment (path u) = true
  /\ wf_part special_query_set (query u)
  /\ wf_part fragment_set (fragment u).

Lemma parse_port_wf scheme buffer p :
  parse_port scheme buffer = Some p -> wf_port scheme p.
Proof.
  unfold parse_port. destruct (forallb is_digit buffer); [| discriminate].
  destruct buffer as [| c buffer]; [now intros [= <-] |].
  destruct (digits_value 10 0 (c :: buffer)) as [n |]; [| discriminate].
  destruct (N.ltb_spec 65535 n) as [| Hn]; [discriminate |].
  unfold wf_port. destruct (default_port scheme) as [d |].
  - destruct (N.eqb_spec n d) as [| Hd]; intros [= <-]; [exact I |].
    split; [lia | congruence].
  - intros [= <-]. split; [lia | discriminate].
Qed.

(** What the parser returns is well formed. *)
Lemma parse_special_wf scheme r u d :
  toASCII_stable unicodeToASCII ->
  default_port scheme = Some d ->
  parse_special unicodeToASCII scheme r = Some u -> wf_URL u.
Proof.
  intros Hs Hd. unfold parse_special.
  set (r1 := drop_while is_slash r).
  set (authority := take_while (fun c => negb (is_authority_end c)) r1).
  set (rest := drop_while (fun c => negb (is_authority_end c)) r1).
  destruct (match split_last_at authority with
            | Some (cred, hostport) => (cred, hostport)
            | None => ([], authority)
            end) as [cred hostport].
  unfold parse_credentials.
  set (user := percent_encode userinfo_set _).
  set (pass := percent_encode userinfo_set _).
  destruct (split_host_port false hostport) as [hostname portbuf].
  destruct (is_nil hostname); [discriminate |].
  destruct (parse_host unicodeToASCII hostname) as [h |] eqn:Eh;
    [| discriminate].
  destruct (match portbuf with
            | Some buffer => parse_port scheme buffer
            | None => Some None
            end) as [p |] eqn:Ep; [| discriminate].
  set (rest1 := match rest with
                | [] => []
                | c :: rest' => if is_slash c then rest' else rest
                end).
  set (segs := split_on is_slash _).
  set (rest2 := drop_while (fun c => negb (is_path_end c)) rest1).
  destruct (match rest2 with
            | [] => (None, [])
            | c :: rest' => _
            end) as [q rest3] eqn:Eq.
  intros [= <-]. unfold wf_URL. cbn [WHATWG.scheme username password host
    port path query fragment].
  destruct (path_segments_wf segs [] (split_on_items _ _) eq_refl) as [P1 P2].
  repeat split.
  - eauto.
  - apply clean_userinfo.
  - apply clean_userinfo.
  - now apply parse_host_wf with (input := hostname).
  - destruct portbuf as [buffer |]; [| now injection Ep as <-].
    now apply parse_port_wf with (buffer := buffer).
  - apply P2, split_on_not_nil.
  - exact P1.
  - destruct rest2 as [| c rest']; [now injection Eq as <- _ |].
    destruct (Ascii.eqb c "?"); injection Eq as <- _; [| exact I].
    apply clean_query.
  - destruct rest3; [exact I | apply clean_fragment].
Qed.

End URLs.
(** *** Parsing a serialised URL *)

Lemma split_last_at_none l :
  forallb (fun c => negb (is_at c)) l = true -> split_last_at l = None.
Proof.
  induction l as [| c l IH]; cbn; [reflexivity |].
  intros H. apply andb_true_iff in H as [Hc H].
  apply negb_true_iff in Hc. now rewrite IH, Hc.
Qed.

Lemma split_last_at_app cred hostport :
  forallb (fun c => negb (is_at c)) hostport = true ->
  split_last_at (cred ++ "@"%char :: hostport) = Some (cred, hostport).
Proof.
  intros H. induction cred as [| c cred IH]; cbn [app split_last_at].
  - now rewrite split_last_at_none.
  - now rewrite IH.
Qed.

(** Characters that do not end the host: no bracket, and no colon
    unless inside brackets. *)
Definition in_host (inside : bool) (c : ascii) : bool :=
  negb (Ascii.eqb c "[") && negb (Ascii.eqb c "]")
  && (inside || negb (is_colon c)).

Lemma split_host_port_app inside h r :
  forallb (in_host inside) h = true ->
  split_host_port inside (h ++ r) =
  (h ++ fst (split_host_port inside r), snd (split_host_port inside r)).
Proof.
  induction h as [| c h IH]; cbn [app forallb split_host_port].
  - intros _. now destruct (split_host_port inside r).
  - intros H. apply andb_true_iff in H as [Hc H]. unfold in_host in Hc.
    rewrite !andb_true_iff, !negb_true_iff in Hc.
    destruct Hc as [[Hl Hr] Hc]. rewrite Hl, Hr.
    assert (E : is_colon c && negb inside = false).
    { destruct inside; [apply andb_false_r |].
      cbn in Hc. apply negb_true_iff in Hc. now rewrite Hc. }
    rewrite E, IH by assumption. reflexivity.
Qed.

Definition port_text (p : option N) : list ascii :=
  match p with
  | Some n => lit ":" ++ to_radix 10 n
  | None => []
  end.

Lemma split_port_text p :
  split_host_port false (port_text p)
  = ([], option_map (to_radix 10) p).
Proof. now destruct p. Qed.

Lemma split_host_port_plain h p :
  forallb (in_host false) h = true ->
  split_host_port false (h ++ port_text p) = (h, option_map (to_radix 10) p).
Proof.
  intros H. rewrite split_host_port_app, split_port_text by assumption.
  cbn. now rewrite app_nil_r.
Qed.

Lemma split_host_port_brackets body p :
  forallb (in_host true) body = true ->
  split_host_port false (lit "[" ++ body ++ lit "]" ++ port_text p)
  = (lit "[" ++ body ++ lit "]", option_map (to_radix 10) p).
Proof.
  intros H. cbn [lit list_ascii_of_string app split_host_port].
  cbn [is_colon Ascii.eqb Bool.eqb andb].
  rewrite split_host_port_app by assumption.
  cbn [split_host_port is_colon Ascii.eqb Bool.eqb andb].
  rewrite split_port_text. reflexivity.
Qed.

Definition hex_or_colon (c : ascii) : bool := hex_lower c || is_colon c.

Lemma ipv6_out_chars pieces :
  Forall piece pieces ->
  forall idx compress ignore0,
    forallb hex_or_colon (ipv6_out pieces idx compress ignore0) = true.
Proof.
  induction 1 as [| p pieces Hp _ IH]; intros idx compress ignore0;
    [reflexivity |].
  cbn [ipv6_out].
  assert (Hhex : forallb hex_or_colon
                   (to_radix 16 p ++ (if (idx =? 7)%nat then [] else lit ":")
                    ++ ipv6_out pieces (S idx) compress false) = true).
  { rewrite !forallb_app, IH.
    destruct (hexs_facts p Hp) as (_ & Hc & _). unfold hexs in Hc.
    assert (forallb hex_or_colon (to_radix 16 p) = true) as -> by weaken Hc.
    now destruct (idx =? 7)%nat. }
  destruct (ignore0 && (p =? 0)); [apply IH |].
  destruct compress as [k |]; [| exact Hhex].
  destruct (k =? idx)%nat; [| exact Hhex].
  rewrite forallb_app, IH. now destruct (idx =? 0)%nat.
Qed.

(** Characters of an authority: none ends it, and none is blank. *)
Definition authority_char (c : ascii) : bool :=
  negb (is_authority_end c) && negb (is_c0_or_space c).

(** Characters of a host and port: those, without the at sign. *)
Definition hostport_char (c : ascii) : bool :=
  authority_char c && negb (is_at c).

Section Reparse.

Variable unicodeToASCII : list ascii -> option (list ascii).

Lemma host_text h p :
  wf_host unicodeToASCII h ->
  serialize_host h <> []
  /\ forallb hostport_char (serialize_host h) = true
  /\ split_host_port false (serialize_host h ++ port_text p)
     = (serialize_host h, option_map (to_radix 10) p).
Proof.
  destruct h as [d | a | pieces]; cbn [wf_host serialize_host].
  - intros (Ha & Hf & _). repeat split.
    + unfold domain_to_ASCII in Ha. destruct d; [| discriminate].
      destruct (if ascii_only_domain [] then _ else _) as [[| ? ?] |];
        discriminate.
    + weaken Hf.
    + apply split_host_port_plain. weaken Hf.
  - intros _. pose proof (serialize_ipv4_chars a) as Hc. repeat split.
    + apply serialize_ipv4_not_nil.
    + weaken Hc.
    + apply split_host_port_plain. weaken Hc.
  - intros [_ Hp].
    pose proof (ipv6_out_chars pieces Hp 0 (find_compress pieces 0 None 1)
                  false) as Hc.
    fold (serialize_ipv6 pieces) in Hc. repeat split.
    + discriminate.
    + cbn [lit list_ascii_of_string app forallb]. rewrite forallb_app.
      cbn [forallb].
      assert (forallb hostport_char (serialize_ipv6 pieces) = true) as ->
        by weaken Hc.
      reflexivity.
    + rewrite <- !app_assoc. apply split_host_port_brackets. weaken Hc.
Qed.

End Reparse.

Lemma parse_port_text scheme p :
  wf_port scheme (Some p) ->
  parse_port scheme (to_radix 10 p) = Some (Some p).
Proof.
  intros [Hp Hd]. unfold parse_port.
  destruct (prints_well_digits 10 p (decimal_prints_well p Hp))
    as (Hne & Hc & Hv).
  assert (forallb is_digit (to_radix 10 p) = true) as ->.
  { eapply forallb_weaken; [| exact Hc]. vm_compute. reflexivity. }
  destruct (to_radix 10 p) as [| c ds] eqn:E; [congruence |].
  rewrite Hv. destruct (N.ltb_spec 65535 p) as [| _]; [lia |].
  destruct (default_port scheme) as [d |]; [| reflexivity].
  destruct (N.eqb_spec p d) as [-> | _]; [congruence | reflexivity].
Qed.

Lemma port_text_chars p :
  match p with Some n => n < 65536 | None => True end ->
  forallb hostport_char (port_text p) = true.
Proof.
  destruct p as [n |]; [| reflexivity]. intros Hn.
  destruct (prints_well_digits 10 n (decimal_prints_well n Hn))
    as (_ & Hc & _).
  cbn [port_text lit list_ascii_of_string app forallb].
  assert (forallb hostport_char (to_radix 10 n) = true) as ->.
  { eapply forallb_weaken; [| exact Hc]. vm_compute. reflexivity. }
  reflexivity.
Qed.

Definition credentials_text (user pass : list ascii) : list ascii :=
  if is_nil user && is_nil pass then []
  else user ++ (if is_nil pass then [] else lit ":" ++ pass) ++ lit "@".

Lemma credentials_text_chars user pass :
  clean userinfo_set user = true -> clean userinfo_set pass = true ->
  forallb authority_char (credentials_text user pass) = true.
Proof.
  unfold clean, credentials_text. intros Hu Hp.
  assert (Hu' : forallb authority_char user = true) by weaken Hu.
  assert (Hp' : forallb authority_char pass = true) by weaken Hp.
  destruct (is_nil user && is_nil pass); [reflexivity |].
  rewrite !forallb_app, Hu'. destruct (is_nil pass); cbn; [reflexivity |].
  now rewrite Hp'.
Qed.

(** The authority state finds the credentials and the host and port
    again. *)
Lemma split_credentials_text user pass hostport :
  clean userinfo_set user = true -> clean userinfo_set pass = true ->
  forallb hostport_char hostport = true ->
  exists cred,
    match split_last_at (credentials_text user pass ++ hostport) with
    | Some (cred, hostport) => (cred, hostport)
    | None => ([], credentials_text user pass ++ hostport)
    end = (cred, hostport)
    /\ parse_credentials cred = (user, pass).
Proof.
  unfold clean. intros Hu Hp Hh.
  assert (Hat : forallb (fun c => negb (is_at c)) hostport = true)
    by weaken Hh.
  assert (Hcolon : forallb (fun c => negb (is_colon c)) user = true)
    by weaken Hu.
  unfold credentials_text.
  destruct (is_nil user && is_nil pass) eqn:E.
  - exists []. cbn [app]. rewrite split_last_at_none by assumption.
    split; [reflexivity |].
    apply andb_true_iff in E as [Eu Ep].
    destruct user; [| discriminate]. now destruct pass.
  - exists (user ++ (if is_nil pass then [] else lit ":" ++ pass)).
    rewrite <- !app_assoc. cbn [lit list_ascii_of_string app].
    rewrite (app_assoc user), split_last_at_app by assumption.
    split; [reflexivity |]. unfold parse_credentials.
    destruct pass as [| c pass]; cbn [is_nil].
    + rewrite app_nil_r.
      rewrite <- (app_nil_r user) at 1 2.
      rewrite take_while_app, drop_while_app by (assumption || exact I).
      now rewrite (percent_encode_id _ _ Hu).
    + cbn [lit list_ascii_of_string app].
      rewrite take_while_app, drop_while_app by (assumption || reflexivity).
      now rewrite (percent_encode_id _ _ Hu), (percent_encode_id _ _ Hp).
Qed.

Lemma serialize_path_join path :
  path <> [] -> serialize_path path = "/"%char :: join "/" path.
Proof.
  induction path as [| seg path IH]; [congruence |]. intros _.
  cbn [serialize_path flat_map]. destruct path as [| seg' path].
  - cbn. now rewrite app_nil_r.
  - cbn [app]. f_equal. fold (serialize_path (seg' :: path)).
    rewrite IH by discriminate. reflexivity.
Qed.

Definition path_char (c : ascii) : bool :=
  negb (is_path_end c) && negb (is_c0_or_space c).

Lemma join_path_chars path :
  forallb wf_segment path = true ->
  forallb path_char (join "/" path) = true
  /\ forallb (fun seg => forallb (fun c => negb (is_slash c)) seg) path = true.
Proof.
  intros H. split.
  - apply forallb_join; [reflexivity |].
    rewrite forallb_forall in *. intros seg Hseg. specialize (H seg Hseg).
    unfold wf_segment in H. rewrite !andb_true_iff in H.
    destruct H as [[[Hc _] _] _]. unfold clean in Hc. weaken Hc.
  - rewrite forallb_forall in *. intros seg Hseg. specialize (H seg Hseg).
    unfold wf_segment in H. rewrite !andb_true_iff in H. tauto.
Qed.

Section Reparse2.

Variable unicodeToASCII : list ascii -> option (list ascii).

Definition part_text (mark : string) (part : option (list ascii))
  : list ascii :=
  match part with
  | Some l => lit mark ++ l
  | None => []
  end.

(** The serialisation after the scheme and [://]. *)
Definition after_scheme (u : URL) : list ascii :=
  credentials_text (username u) (password u)
  ++ serialize_host (host u) ++ port_text (port u)
  ++ serialize_path (path u)
  ++ part_text "?" (query u) ++ part_text "#" (fragment u).

Lemma href_after_scheme u :
  href u = lit (scheme u) ++ lit "://" ++ after_scheme u.
Proof. reflexivity. Qed.

Lemma authority_char_not_slash c : authority_char c = true -> is_slash c = false.
Proof.
  intros H. apply negb_true_iff.
  apply (char_weaken authority_char (fun c => negb (is_slash c)) c);
    [vm_compute; reflexivity | exact H].
Qed.

(** Query and fragment states on their own serialisation. *)
Lemma parse_query_fragment q f :
  wf_part special_query_set q -> wf_part fragment_set f ->
  head_fails (fun c => negb (is_path_end c))
    (part_text "?" q ++ part_text "#" f)
  /\ (let '(q', rest) :=
        match part_text "?" q ++ part_text "#" f with
        | [] => (None, [])
        | c :: rest' =>
            if Ascii.eqb c "?" then
              (Some (percent_encode special_query_set
                       (take_while (fun c => negb (is_hash c)) rest')),
               drop_while (fun c => negb (is_hash c)) rest')
            else (None, part_text "?" q ++ part_text "#" f)
        end in
      (q', match rest with
           | [] => None
           | _ :: rest' => Some (percent_encode fragment_set rest')
           end)) = (q, f).
Proof.
  intros Hq Hf. destruct q as [q |]; cbn [part_text wf_part] in *.
  - split; [reflexivity |].
    cbn [lit list_ascii_of_string app]. cbn [Ascii.eqb Bool.eqb].
    assert (Hh : forallb (fun c => negb (is_hash c)) q = true)
      by (unfold clean in Hq; weaken Hq).
    assert (Hhead : head_fails (fun c => negb (is_hash c)) (part_text "#" f))
      by now destruct f.
    rewrite take_while_app, drop_while_app by assumption.
    rewrite (percent_encode_id _ _ Hq).
    destruct f as [f |]; cbn [part_text lit list_ascii_of_string app];
      [| reflexivity].
    now rewrite (percent_encode_id _ _ Hf).
  - destruct f as [f |]; cbn [part_text lit list_ascii_of_string app wf_part]
      in *; [| now split].
    split; [reflexivity |]. cbn [Ascii.eqb Bool.eqb].
    now rewrite (percent_encode_id _ _ Hf).
Qed.

Lemma parse_special_after_scheme u :
  wf_URL unicodeToASCII u ->
  parse_special unicodeToASCII (scheme u) (lit "//" ++ after_scheme u)
  = Some u.
Proof.
  destruct u as [scheme user pass h p path q f]. unfold wf_URL, after_scheme.
  cbn [WHATWG.scheme username password host port WHATWG.path query fragment].
  intros ([d Hd] & Hu & Hp & Hh & Hport & Hpne & Hpath & Hq & Hf).
  destruct (host_text unicodeToASCII h p Hh) as (Hne & Hhc & Hsplit).
  assert (Hpc : forallb hostport_char (port_text p) = true).
  { apply port_text_chars. destruct p; [apply Hport | exact I]. }
  pose proof (credentials_text_chars user pass Hu Hp) as Hcc.
  assert (Hhp : forallb hostport_char (serialize_host h ++ port_text p) = true)
    by now rewrite forallb_app, Hhc, Hpc.
  destruct (split_credentials_text user pass _ Hu Hp Hhp)
    as (cred & Hcred & Hparse).
  destruct (join_path_chars path Hpath) as [Hjc Hjs].
  destruct (parse_query_fragment q f Hq Hf) as [Hqhead Hqf].
  set (QF := part_text "?" q ++ part_text "#" f) in *.
  set (AUTH := credentials_text user pass ++ serialize_host h ++ port_text p)
    in *.
  rewrite (serialize_path_join path Hpne).
  assert (Hauth : forallb authority_char AUTH = true).
  { subst AUTH. rewrite forallb_app, Hcc.
    assert (forallb authority_char (serialize_host h ++ port_text p) = true)
      as -> by weaken Hhp.
    reflexivity. }
  assert (Hend : forallb (fun c => negb (is_authority_end c)) AUTH = true)
    by weaken Hauth.
  assert (Ehead : exists a t, AUTH = a :: t /\ is_slash a = false).
  { destruct AUTH as [| a t] eqn:E.
    - subst AUTH. apply app_eq_nil in E as [_ E].
      apply app_eq_nil in E as [E _]. contradiction.
    - exists a, t. split; [reflexivity |].
      cbn [forallb] in Hauth. apply andb_true_iff in Hauth as [Ha _].
      now apply authority_char_not_slash. }
  set (REST := "/"%char :: join "/" path ++ QF).
  assert (Einput : lit "//"
                   ++ credentials_text user pass
                   ++ serialize_host h ++ port_text p
                   ++ ("/"%char :: join "/" path) ++ QF
                   = lit "//" ++ AUTH ++ REST).
  { subst AUTH REST. now rewrite <- !app_assoc. }
  rewrite Einput. clear Einput.
  assert (E1 : drop_while is_slash (lit "//" ++ AUTH ++ REST) = AUTH ++ REST).
  { destruct Ehead as (a & t & -> & Ha).
    cbn [lit list_ascii_of_string app drop_while].
    change (is_slash "/") with true. cbn match. now rewrite Ha. }
  assert (E2 : take_while (fun c => negb (is_authority_end c)) (AUTH ++ REST)
               = AUTH) by now apply take_while_app.
  assert (E3 : drop_while (fun c => negb (is_authority_end c)) (AUTH ++ REST)
               = REST) by now apply drop_while_app.
  assert (E4 : is_nil (serialize_host h) = false)
    by now destruct (serialize_host h).
  assert (E5 : match option_map (to_radix 10) p with
               | Some buffer => parse_port scheme buffer
               | None => Some None
               end = Some p).
  { destruct p as [n |]; [| reflexivity]. now apply parse_port_text. }
  assert (E6 : take_while (fun c => negb (is_path_end c))
                 (join "/" path ++ QF) = join "/" path).
  { apply take_while_app; [weaken Hjc | assumption]. }
  assert (E7 : drop_while (fun c => negb (is_path_end c))
                 (join "/" path ++ QF) = QF).
  { apply drop_while_app; [weaken Hjc | assumption]. }
  assert (E8 : split_on is_slash (join "/" path) = path)
    by now apply split_on_join.
  unfold parse_special. cbv zeta.
  rewrite E1, E2, E3, Hcred, Hparse, Hsplit, E4.
  rewrite (parse_serialize_host unicodeToASCII h Hh), E5.
  subst REST. cbv iota beta. change (is_slash "/") with true. cbv iota.
  rewrite E6, E7, E8. rewrite (path_segments_id path [] Hpath).
  cbn [app]. subst QF.
  destruct (match part_text "?" q ++ part_text "#" f with
            | [] => (None, [])
            | c :: rest' => _
            end) as [q' rest3].
  injection Hqf as -> ->. reflexivity.
Qed.

End Reparse2.
Section Parse.

Variable unicodeToASCII : list ascii -> option (list ascii).

Definition visible (c : ascii) : bool := negb (is_c0_or_space c).

Lemma part_text_visible in_set mark part :
  forallb visible (lit mark) = true ->
  forallb (fun c => implb (negb (in_set c)) (visible c))
    (List.map ascii_of_nat (seq 0 256)) = true ->
  wf_part in_set part -> forallb visible (part_text mark part) = true.
Proof.
  intros Hm Hset. destruct part as [l |]; [| reflexivity].
  cbn [wf_part part_text]. unfold clean. intros H.
  rewrite forallb_app, Hm. cbn [andb].
  now apply (forallb_weaken (fun c => negb (in_set c)) visible).
Qed.

Lemma href_visible u :
  wf_URL unicodeToASCII u -> forallb visible (href u) = true.
Proof.
  intros Hu. rewrite href_after_scheme. unfold after_scheme.
  destruct Hu as ([d Hd] & Hus & Hpw & Hh & Hport & Hpne & Hpath & Hq & Hf).
  destruct (host_text unicodeToASCII _ (port u) Hh) as (_ & Hhc & _).
  assert (Hpc : forallb hostport_char (port_text (port u)) = true).
  { apply port_text_chars. destruct (port u); [apply Hport | exact I]. }
  pose proof (credentials_text_chars _ _ Hus Hpw) as Hcc.
  destruct (join_path_chars _ Hpath) as [Hjc _].
  rewrite (serialize_path_join _ Hpne).
  rewrite !forallb_app. cbn [forallb].
  assert (forallb visible (lit (scheme u)) = true) as ->.
  { apply default_port_cases in Hd as [-> | [-> | [-> | [-> | ->]]]];
      reflexivity. }
  assert (forallb visible (credentials_text (username u) (password u)) = true)
    as -> by weaken Hcc.
  assert (forallb visible (serialize_host (host u)) = true) as ->
    by weaken Hhc.
  assert (forallb visible (port_text (port u)) = true) as -> by weaken Hpc.
  assert (forallb visible (join "/" (path u)) = true) as -> by weaken Hjc.
  rewrite (part_text_visible special_query_set "?" (query u));
    [| reflexivity | vm_compute; reflexivity | assumption].
  rewrite (part_text_visible fragment_set "#" (fragment u));
    [| reflexivity | vm_compute; reflexivity | assumption].
  reflexivity.
Qed.

Lemma parse_scheme_href s d x :
  default_port s = Some d ->
  parse_scheme (lit s ++ lit "://" ++ x) = Some (s, lit "//" ++ x).
Proof.
  intros H. apply default_port_cases in H as [-> | [-> | [-> | [-> | ->]]]];
    reflexivity.
Qed.

(** Parsing the serialisation of a well-formed record gives the record
    back. *)
Lemma parse_href u :
  wf_URL unicodeToASCII u -> basic_URL_parse unicodeToASCII (href u) = Parsed u.
Proof.
  intros Hu. pose proof (href_visible u Hu) as Hv.
  unfold basic_URL_parse. rewrite strip_none, filter_none by exact Hv.
  rewrite href_after_scheme. destruct (proj1 Hu) as [d Hd].
  rewrite (parse_scheme_href _ d) by assumption. rewrite Hd.
  now rewrite parse_special_after_scheme.
Qed.

Lemma basic_URL_parse_wf input u :
  toASCII_stable unicodeToASCII ->
  basic_URL_parse unicodeToASCII input = Parsed u -> wf_URL unicodeToASCII u.
Proof.
  intros Hs. unfold basic_URL_parse.
  destruct (parse_scheme _) as [[s rest] |]; [| discriminate].
  destruct (default_port s) as [d |] eqn:Hd; [| discriminate].
  destruct (parse_special unicodeToASCII s rest) as [u' |] eqn:E;
    [| discriminate].
  intros [= <-]. now apply parse_special_wf with (scheme := s) (r := rest) (d := d).
Qed.

End Parse.

End URLFacts.

(** ** The protocol check of the normaliser *)

Module SchemeFacts.

Import Char WHATWG URLFacts.

Lemma drop_while_keeps_suffix {A} (p : A -> bool) a b :
  head_fails p b -> exists a', drop_while p (a ++ b) = a' ++ b.
Proof.
  intros Hb. induction a as [| x a [a' IH]]; cbn [app drop_while].
  - exists []. now apply drop_while_none.
  - destruct (p x); [now exists a' | now exists (x :: a)].
Qed.

Lemma strip_keeps_prefix pre rest :
  forallb visible pre = true -> pre <> [] ->
  exists rest', strip_c0_or_space (pre ++ rest) = pre ++ rest'.
Proof.
  intros Hv Hne. unfold strip_c0_or_space.
  assert (Hhead : forall l, forallb visible l = true ->
                            head_fails is_c0_or_space l).
  { intros [| c l]; [easy |]. cbn. intros H.
    apply andb_true_iff in H as [H _]. now apply negb_true_iff. }
  rewrite (drop_while_none is_c0_or_space (pre ++ rest)).
  2: { destruct pre as [| c pre]; [congruence |]. apply (Hhead (c :: pre) Hv). }
  rewrite rev_app_distr.
  destruct (drop_while_keeps_suffix is_c0_or_space (rev rest) (rev pre))
    as [a' E].
  { apply Hhead. rewrite forallb_forall in *. intros c Hc.
    apply Hv. now apply in_rev. }
  rewrite E, rev_app_distr, rev_involutive. eauto.
Qed.

Lemma filter_keeps_prefix pre rest :
  forallb visible pre = true ->
  List.filter (fun c => negb (is_tab_or_newline c)) (pre ++ rest)
  = pre ++ List.filter (fun c => negb (is_tab_or_newline c)) rest.
Proof.
  intros Hv. rewrite List.filter_app. f_equal. now apply filter_none.
Qed.

Lemma starts_with_map (f : ascii -> ascii) p l :
  starts_with p (List.map f l) = true ->
  exists pre rest, l = pre ++ rest /\ List.map f pre = p.
Proof.
  revert l. induction p as [| a p IH]; intros l.
  - exists [], l. now split.
  - destruct l as [| c l]; [discriminate |]. cbn [List.map starts_with].
    intros H. apply andb_true_iff in H as [Hc H].
    apply Ascii.eqb_eq in Hc. destruct (IH l H) as (pre & rest & -> & <-).
    exists (c :: pre), rest. split; [reflexivity | cbn; congruence].
Qed.

(** The text before the colon of a string that starts with [http://] or
    [https://], in any case of the letters. *)
Definition http_prefix (pre : list ascii) : Prop :=
  List.map lower pre = lit "http://" \/ List.map lower pre = lit "https://".

Lemma has_http_prefix_split url :
  has_http_prefix url = true ->
  exists pre rest, url = pre ++ rest /\ http_prefix pre.
Proof.
  unfold has_http_prefix, http_prefix. intros H.
  apply orb_true_iff in H as [H | H];
    apply starts_with_map in H as (pre & rest & E & Hpre).
  - exists pre, (rest ++ skipn 7 url). split; [| now left].
    rewrite app_assoc, <- E. symmetry. apply firstn_skipn.
  - exists pre, (rest ++ skipn 8 url). split; [| now right].
    rewrite app_assoc, <- E. symmetry. apply firstn_skipn.
Qed.

Lemma lower_visible c : visible (lower c) = true -> visible c = true.
Proof.
  apply (char_weaken (fun c => visible (lower c)) visible).
  vm_compute. reflexivity.
Qed.

Lemma lower_letter c :
  is_lower (lower c) = true -> is_alpha c = true /\ scheme_char c = true.
Proof.
  intros H. split.
  - apply (char_weaken (fun c => is_lower (lower c)) is_alpha c);
      [vm_compute; reflexivity | exact H].
  - apply (char_weaken (fun c => is_lower (lower c)) scheme_char c);
      [vm_compute; reflexivity | exact H].
Qed.

Lemma lower_not_letter c : is_alnum (lower c) = false -> lower c = c.
Proof.
  intros H. apply Ascii.eqb_eq.
  apply (char_weaken (fun c => negb (is_alnum (lower c)))
           (fun c => Ascii.eqb (lower c) c) c);
    [vm_compute; reflexivity | now rewrite H].
Qed.

Lemma http_prefix_visible pre : http_prefix pre -> forallb visible pre = true.
Proof.
  intros H.
  assert (Hl : forallb visible (List.map lower pre) = true)
    by (destruct H as [-> | ->]; reflexivity).
  rewrite forallb_forall in *. intros c Hc. apply lower_visible, Hl.
  now apply in_map.
Qed.

Ltac letter c E :=
  let H := fresh in
  assert (H : is_lower (lower c) = true) by (rewrite E; reflexivity);
  destruct (lower_letter c H) as [? ?]; clear H.

Ltac mark c E :=
  let H := fresh in
  assert (H : is_alnum (lower c) = false) by (rewrite E; reflexivity);
  apply lower_not_letter in H; rewrite E in H; subst c.

Lemma parse_scheme_http pre x :
  http_prefix pre ->
  exists s, parse_scheme (pre ++ x) = Some (s, lit "//" ++ x)
            /\ (s = "http"%string \/ s = "https"%string).
Proof.
  intros [H | H].
  - destruct pre as [| c1 [| c2 [| c3 [| c4 [| c5 [| c6 [| c7 [| ? ?]]]]]]]];
      try discriminate H.
    injection H as E1 E2 E3 E4 E5 E6 E7.
    letter c1 E1. letter c2 E2. letter c3 E3. letter c4 E4.
    mark c5 E5. mark c6 E6. mark c7 E7.
    exists "http"%string. split; [| now left].
    unfold parse_scheme. cbn [app drop_while take_while].
    repeat match goal with H : _ = true |- _ => rewrite H end.
    cbn. now rewrite E1, E2, E3, E4.
  - destruct pre
      as [| c1 [| c2 [| c3 [| c4 [| c0 [| c5 [| c6 [| c7 [| ? ?]]]]]]]]];
      try discriminate H.
    injection H as E1 E2 E3 E4 E0 E5 E6 E7.
    letter c1 E1. letter c2 E2. letter c3 E3. letter c4 E4. letter c0 E0.
    mark c5 E5. mark c6 E6. mark c7 E7.
    exists "https"%string. split; [| now right].
    unfold parse_scheme. cbn [app drop_while take_while].
    repeat match goal with H : _ = true |- _ => rewrite H end.
    cbn. now rewrite E1, E2, E3, E4, E0.
Qed.

Section Check.

Variable unicodeToASCII : list ascii -> option (list ascii).

Lemma parse_special_scheme s r u :
  parse_special unicodeToASCII s r = Some u -> scheme u = s.
Proof.
  unfold parse_special.
  repeat match goal with
         | |- context [let '(_, _) := ?x in _] => destruct x
         | |- context [match ?x with Some _ => _ | None => None end] =>
             destruct x; [| discriminate]
         | |- context [if ?x then None else _] => destruct x; [discriminate |]
         end.
  now intros [= <-].
Qed.

(** What [normalizeUrl] hands to the parser. *)
Definition withProtocol (url : list ascii) : list ascii :=
  if has_http_prefix url then url else lit "https://" ++ url.

(** Whatever the input, the string handed to the parser starts with
    [http://] or [https://]: the parser fails, or it returns a record
    whose scheme is [http] or [https].  So the protocol check of
    [normalizeUrl] never rejects anything, and no input leaves the part
    of the parser that is modelled. *)
Lemma parsed_scheme_is_http url :
  match basic_URL_parse unicodeToASCII (withProtocol url) with
  | Failure => True
  | Parsed u => scheme u = "http"%string \/ scheme u = "https"%string
  | Unmodelled => False
  end.
Proof.
  assert (Hsplit : exists pre rest,
             withProtocol url = pre ++ rest /\ http_prefix pre).
  { unfold withProtocol. destruct (has_http_prefix url) eqn:E.
    - now apply has_http_prefix_split.
    - exists (lit "https://"), url. split; [reflexivity | now right]. }
  destruct Hsplit as (pre & rest & -> & Hpre).
  pose proof (http_prefix_visible pre Hpre) as Hv.
  assert (Hne : pre <> []) by (destruct Hpre as [H | H]; now destruct pre).
  unfold basic_URL_parse.
  destruct (strip_keeps_prefix pre rest Hv Hne) as [rest' ->].
  rewrite filter_keeps_prefix by assumption.
  destruct (parse_scheme_http pre
              (List.filter (fun c => negb (is_tab_or_newline c)) rest') Hpre)
    as (s & -> & Hs).
  assert (Hd : exists d, default_port s = Some d)
    by (destruct Hs as [-> | ->]; eauto).
  destruct Hd as [d ->].
  destruct (parse_special unicodeToASCII s _) as [u |] eqn:E; [| exact I].
  apply parse_special_scheme in E. now rewrite E.
Qed.

Lemma normalizeUrl_protocol_check_dead url :
  normalizeUrl unicodeToASCII url
  = match basic_URL_parse unicodeToASCII
            (withProtocol (list_ascii_of_string url)) with
    | Parsed u => Some (string_of_list_ascii (href u))
    | _ => None
    end.
Proof.
  unfold normalizeUrl. fold (withProtocol (list_ascii_of_string url)).
  pose proof (parsed_scheme_is_http (list_ascii_of_string url)) as H.
  destruct (basic_URL_parse unicodeToASCII _) as [| u |]; try reflexivity.
  unfold protocol. now destruct H as [-> | ->].
Qed.

End Check.

End SchemeFacts.

(** ** The normaliser on its own results *)

Section Idempotence.

Variable unicodeToASCII : list ascii -> option (list ascii).

Local Abbreviation normalizeUrl := (normalizeUrl unicodeToASCII).

(** An accepted input is normalised to the serialisation of a
    well-formed [http] or [https] record. *)
Lemma normalizeUrl_href url s :
  WHATWG.toASCII_stable unicodeToASCII ->
  normalizeUrl url = Some s ->
  exists u,
    URLFacts.wf_URL unicodeToASCII u
    /\ (WHATWG.scheme u = "http"%string \/ WHATWG.scheme u = "https"%string)
    /\ s = string_of_list_ascii (WHATWG.href u).
Proof.
  intros Hs. unfold normalizeUrl.
  destruct (WHATWG.basic_URL_parse unicodeToASCII _) as [| u |] eqn:E;
    try discriminate.
  apply URLFacts.basic_URL_parse_wf in E; [| assumption].
  destruct (negb _ && negb _) eqn:Ec; [discriminate |].
  intros [= <-]. exists u. split; [assumption |]. split; [| reflexivity].
  destruct (proj1 E) as [d Hd]. unfold WHATWG.protocol in Ec.
  apply URLFacts.default_port_cases in Hd as [H | [H | [H | [H | H]]]];
    rewrite H in Ec; try discriminate Ec; auto.
Qed.


End Idempotence.


(** * More properties *)

(** ** The code generator: how many codes there are *)


Lemma index_of_symbol i :
  i < 64 -> index_of (base64url_symbol i) base64url_alphabet = i.
Proof.
  intros Hi. apply N.eqb_eq.
  apply (URLFacts.N_forallb
           (fun i => index_of (base64url_symbol i) base64url_alphabet =? i) 6);
    [vm_compute; reflexivity | exact Hi].
Qed.

Lemma base64url_symbol_inj i j :
  i < 64 -> j < 64 -> base64url_symbol i = base64url_symbol j -> i = j.
Proof.
  intros Hi Hj E. rewrite <- (index_of_symbol i Hi), <- (index_of_symbol j Hj).
  now rewrite E.
Qed.

Lemma pair_div a b : b < 256 -> (a * 256 + b) / 256 = a.
Proof. intros H. rewrite N.div_add_l by discriminate. rewrite N.div_small; lia. Qed.

Lemma pair_mod a b : b < 256 -> (a * 256 + b) mod 256 = b.
Proof.
  intros H. rewrite N.add_comm, N.Div0.mod_add. now apply N.mod_small.
Qed.

(** The two middle sextets of three bytes, in arithmetic. *)
Lemma sextet_second a b :
  a < 256 -> b < 256 ->
  N.lor (N.shiftl (N.land a 3) 4) (N.shiftr b 4) = 16 * (a mod 4) + b / 16.
Proof.
  intros Ha Hb. apply N.eqb_eq.
  pose proof (URLFacts.N_forallb
    (fun n => N.lor (N.shiftl (N.land (n / 256) 3) 4) (N.shiftr (n mod 256) 4)
              =? 16 * ((n / 256) mod 4) + (n mod 256) / 16) 16) as H.
  specialize (H ltac:(vm_compute; reflexivity) (a * 256 + b)).
  cbv beta in H. rewrite pair_div, pair_mod in H by assumption.
  apply H. change (2 ^ N.of_nat 16) with 65536. lia.
Qed.

Lemma sextet_third b c :
  b < 256 -> c < 256 ->
  N.lor (N.shiftl (N.land b 15) 2) (N.shiftr c 6) = 4 * (b mod 16) + c / 64.
Proof.
  intros Hb Hc. apply N.eqb_eq.
  pose proof (URLFacts.N_forallb
    (fun n => N.lor (N.shiftl (N.land (n / 256) 15) 2) (N.shiftr (n mod 256) 6)
              =? 4 * ((n / 256) mod 16) + (n mod 256) / 64) 16) as H.
  specialize (H ltac:(vm_compute; reflexivity) (b * 256 + c)).
  cbv beta in H. rewrite pair_div, pair_mod in H by assumption.
  apply H. change (2 ^ N.of_nat 16) with 65536. lia.
Qed.

Lemma sextet_last d : N.shiftl (N.land d 3) 4 = 16 * (d mod 4).
Proof.
  rewrite N.shiftl_mul_pow2. change 3 with (N.ones 2). rewrite N.land_ones.
  change (2 ^ 4) with 16. change (2 ^ 2) with 4. lia.
Qed.

Lemma byte_to_N_inj b b' : Byte.to_N b = Byte.to_N b' -> b = b'.
Proof.
  intros E. pose proof (Byte.of_to_N b) as H. rewrite E, Byte.of_to_N in H.
  congruence.
Qed.

(** The six symbols of a code. *)
Lemma generateCode_symbols b0 b1 b2 b3 :
  list_ascii_of_string (generateCode (b0, b1, b2, b3))
  = [ base64url_symbol (N.shiftr (Byte.to_N b0) 2);
      base64url_symbol
        (N.lor (N.shiftl (N.land (Byte.to_N b0) 3) 4)
           (N.shiftr (Byte.to_N b1) 4));
      base64url_symbol
        (N.lor (N.shiftl (N.land (Byte.to_N b1) 15) 2)
           (N.shiftr (Byte.to_N b2) 6));
      base64url_symbol (N.land (Byte.to_N b2) 63);
      base64url_symbol (N.shiftr (Byte.to_N b3) 2);
      base64url_symbol (N.shiftl (N.land (Byte.to_N b3) 3) 4) ].
Proof.
  unfold generateCode, slice0. rewrite substring_0_list. reflexivity.
Qed.

Lemma generateCode_inj (r r' : RandomBytes4) :
  generateCode r = generateCode r' -> r = r'.
Proof.
  destruct r as [[[b0 b1] b2] b3], r' as [[[b0' b1'] b2'] b3'].
  intros E. apply (f_equal list_ascii_of_string) in E.
  rewrite !generateCode_symbols in E.
  injection E as E0 E1 E2 E3 E4 E5.
  pose proof (byte_lt_256 b0) as H0. pose proof (byte_lt_256 b1) as H1.
  pose proof (byte_lt_256 b2) as H2. pose proof (byte_lt_256 b3) as H3.
  pose proof (byte_lt_256 b0') as H0'. pose proof (byte_lt_256 b1') as H1'.
  pose proof (byte_lt_256 b2') as H2'. pose proof (byte_lt_256 b3') as H3'.
  apply base64url_symbol_inj in E0; [| now apply sextet_shiftr ..].
  apply base64url_symbol_inj in E1;
    [| apply sextet_lor; [apply sextet_high | now apply sextet_low4] ..].
  apply base64url_symbol_inj in E2;
    [| apply sextet_lor; [apply sextet_mid | now apply sextet_low6] ..].
  apply base64url_symbol_inj in E3; [| apply sextet_land ..].
  apply base64url_symbol_inj in E4; [| now apply sextet_shiftr ..].
  apply base64url_symbol_inj in E5; [| apply sextet_high ..].
  rewrite !sextet_second in E1 by assumption.
  rewrite !sextet_third in E2 by assumption.
  rewrite !sextet_last in E5.
  rewrite !N.shiftr_div_pow2 in E0, E4. change (2 ^ 2) with 4 in E0, E4.
  change 63 with (N.ones 6) in E3. rewrite !N.land_ones in E3.
  change (2 ^ 6) with 64 in E3.
  assert (Byte.to_N b0 = Byte.to_N b0' /\ Byte.to_N b1 = Byte.to_N b1'
          /\ Byte.to_N b2 = Byte.to_N b2' /\ Byte.to_N b3 = Byte.to_N b3')
    as (A0 & A1 & A2 & A3).
  { revert E0 E1 E2 E3 E4 E5 H0 H1 H2 H3 H0' H1' H2' H3'.
    generalize (Byte.to_N b0) (Byte.to_N b1) (Byte.to_N b2) (Byte.to_N b3)
      (Byte.to_N b0') (Byte.to_N b1') (Byte.to_N b2') (Byte.to_N b3').
    intros a b c d a' b' c' d'. intros.
    pose proof (N.Div0.div_mod a 4). pose proof (N.mod_lt a 4 ltac:(discriminate)).
    pose proof (N.Div0.div_mod a' 4). pose proof (N.mod_lt a' 4 ltac:(discriminate)).
    pose proof (N.Div0.div_mod b 16). pose proof (N.mod_lt b 16 ltac:(discriminate)).
    pose proof (N.Div0.div_mod b' 16). pose proof (N.mod_lt b' 16 ltac:(discriminate)).
    pose proof (N.Div0.div_mod c 64). pose proof (N.mod_lt c 64 ltac:(discriminate)).
    pose proof (N.Div0.div_mod c' 64). pose proof (N.mod_lt c' 64 ltac:(discriminate)).
    pose proof (N.Div0.div_mod d 4). pose proof (N.mod_lt d 4 ltac:(discriminate)).
    pose proof (N.Div0.div_mod d' 4). pose proof (N.mod_lt d' 4 ltac:(discriminate)).
    assert (b / 16 < 16) by (apply N.Div0.div_lt_upper_bound; lia).
    assert (b' / 16 < 16) by (apply N.Div0.div_lt_upper_bound; lia).
    assert (c / 64 < 4) by (apply N.Div0.div_lt_upper_bound; lia).
    assert (c' / 64 < 4) by (apply N.Div0.div_lt_upper_bound; lia).
    lia. }
  apply byte_to_N_inj in A0, A1, A2, A3. congruence.
Qed.

(** X1: two draws of four random bytes give the same code only if they
    are the same four bytes: the six symbols keep all 32 bits of the
    draw, so [generateCode] has exactly one code for each of the 2^32
    draws. *)
Theorem generateCode_injective (r r' : RandomBytes4) :
  generateCode r = generateCode r' -> r = r'.
Proof. apply generateCode_inj. Qed.

(** X2: the sixth symbol of a code carries the last two bits of the
    draw only: it is always one of [A], [Q], [g] and [w]. *)
Theorem generateCode_last_symbol (rnd : RandomBytes4) :
  exists c, nth_error (list_ascii_of_string (generateCode rnd)) 5 = Some c
            /\ Char.one_of "AQgw" c = true.
Proof.
  destruct rnd as [[[b0 b1] b2] b3]. rewrite generateCode_symbols.
  cbn [nth_error]. eexists. split; [reflexivity |].
  rewrite sextet_last.
  pose proof (N.mod_lt (Byte.to_N b3) 4 ltac:(discriminate)) as H.
  revert H. generalize (Byte.to_N b3 mod 4). intros m H.
  assert (C : m = 0 \/ m = 1 \/ m = 2 \/ m = 3) by lia.
  destruct C as [-> | [-> | [-> | ->]]]; reflexivity.
Qed.

(** ** The normaliser: what its results look like *)


Lemma string_prefix_lit p x :
  String.prefix p (string_of_list_ascii (WHATWG.lit p ++ x)) = true.
Proof.
  induction p as [| a p IH]; cbn.
  - now destruct (string_of_list_ascii x).
  - destruct (ascii_dec a a); [exact IH | congruence].
Qed.

Lemma has_http_prefix_https x :
  has_http_prefix (WHATWG.lit "https://" ++ x) = true.
Proof. reflexivity. Qed.


Lemma printable_not_ws c :
  printable c = true ->
  ws1 c = false /\ ws_lead c = false /\ ws_second c = false
  /\ ws_third c = false.
Proof.
  intros H.
  assert (E : negb (ws1 c || ws_lead c || ws_second c || ws_third c) = true).
  { apply (URLFacts.char_weaken printable
             (fun c => negb (ws1 c || ws_lead c || ws_second c || ws_third c))
             c); [vm_compute; reflexivity | exact H]. }
  apply negb_true_iff in E. rewrite !orb_false_iff in E. tauto.
Qed.

Lemma trimStart_printable c l :
  printable c = true -> trimStart (c :: l) = c :: l.
Proof.
  intros H. destruct (printable_not_ws c H) as (H1 & Hl & _).
  cbn [trimStart]. rewrite H1. destruct l as [| b l]; [reflexivity |].
  destruct (ws2 c b) eqn:E2; [apply ws2_lead in E2; congruence |].
  destruct l as [| d l]; [reflexivity |].
  destruct (ws3 c b d) eqn:E3; [apply ws3_lead in E3; congruence |].
  reflexivity.
Qed.

Lemma trimStart_rev_printable c l :
  printable c = true -> trimStart_rev (c :: l) = c :: l.
Proof.
  intros H. destruct (printable_not_ws c H) as (H1 & _ & Hs & Ht).
  cbn [trimStart_rev]. rewrite H1. destruct l as [| b l]; [reflexivity |].
  destruct (ws2 b c) eqn:E2; [apply ws2_second in E2; congruence |].
  destruct l as [| d l]; [reflexivity |].
  destruct (ws3 d b c) eqn:E3; [apply ws3_third in E3; congruence |].
  reflexivity.
Qed.

(** A string that starts and ends with printable ASCII has nothing to
    trim. *)
Lemma trim_printable_ends a m z :
  printable a = true -> printable z = true ->
  trim (string_of_list_ascii (a :: m ++ [z]))
  = string_of_list_ascii (a :: m ++ [z]).
Proof.
  intros Ha Hz. unfold trim, trimEnd.
  rewrite list_ascii_of_string_of_list_ascii.
  rewrite (trimStart_printable a _ Ha).
  change (a :: m ++ [z]) with ((a :: m) ++ [z]).
  rewrite rev_app_distr.
  change (rev [z] ++ rev (a :: m)) with (z :: rev (a :: m)).
  rewrite (trimStart_rev_printable z _ Hz).
  replace (z :: rev (a :: m)) with (rev ((a :: m) ++ [z]))
    by now rewrite rev_app_distr.
  now rewrite rev_involutive.
Qed.

Lemma nonempty_last {A} (l : list A) :
  l <> [] -> exists m z, l = m ++ [z].
Proof.
  intros H. destruct (exists_last H) as (m & z & E). eauto.
Qed.

(** X3: the first version of [normalizeUrl] returns a string that
    passes its own test for a protocol, whatever the input, and so
    returns its own results unchanged. *)
Theorem JsonFile_normalizeUrl_idempotent url :
  has_http_prefix (list_ascii_of_string (JsonFile.normalizeUrl url)) = true
  /\ JsonFile.normalizeUrl (JsonFile.normalizeUrl url)
     = JsonFile.normalizeUrl url.
Proof.
  assert (H : has_http_prefix
                (list_ascii_of_string (JsonFile.normalizeUrl url)) = true).
  { unfold JsonFile.normalizeUrl.
    destruct (has_http_prefix (list_ascii_of_string url)) eqn:E;
      cbn [negb]; [exact E |].
    rewrite list_ascii_of_string_app. apply has_http_prefix_https. }
  split; [exact H |].
  unfold JsonFile.normalizeUrl at 1. now rewrite H.
Qed.

Section NormalizedUrls.

Variable unicodeToASCII : list ascii -> option (list ascii).

Local Abbreviation normalizeUrl := (normalizeUrl unicodeToASCII).

Lemma normalizeUrl_http url n :
  normalizeUrl url = Some n ->
  String.prefix "http://" n = true \/ String.prefix "https://" n = true.
Proof.
  rewrite SchemeFacts.normalizeUrl_protocol_check_dead.
  pose proof (SchemeFacts.parsed_scheme_is_http unicodeToASCII
                (list_ascii_of_string url)) as H.
  destruct (WHATWG.basic_URL_parse unicodeToASCII _) as [| u |];
    try discriminate.
  intros [= <-]. rewrite URLFacts.href_after_scheme.
  destruct H as [-> | ->].
  - left. apply (string_prefix_lit "http://" (URLFacts.after_scheme u)).
  - right. apply (string_prefix_lit "https://" (URLFacts.after_scheme u)).
Qed.

(** X4: whatever [normalizeUrl] accepts, its result starts with
    [http://] or with [https://]; in particular it is never the empty
    string, so the test [!normalizedUrl] of [POST /shorten] rejects
    [null] only. *)
Theorem normalizeUrl_result_http url n :
  normalizeUrl url = Some n ->
  (String.prefix "http://" n = true \/ String.prefix "https://" n = true)
  /\ n <> ""%string.
Proof.
  intros H. apply normalizeUrl_http in H. split; [exact H |].
  intros ->. destruct H as [H | H]; discriminate H.
Qed.

(** X5: the current [normalizeUrl] gives for an input what it gives for
    the input with the protocol added as the first version of the
    function adds it: a bare [github.com] and [https://github.com] are
    the same input to it. *)
Theorem normalizeUrl_after_adding_protocol url :
  normalizeUrl url = normalizeUrl (JsonFile.normalizeUrl url).
Proof.
  unfold JsonFile.normalizeUrl.
  destruct (has_http_prefix (list_ascii_of_string url)) eqn:E;
    cbn [negb]; [reflexivity |].
  unfold normalizeUrl. rewrite list_ascii_of_string_app.
  change (list_ascii_of_string "https://") with (WHATWG.lit "https://").
  now rewrite has_http_prefix_https, E.
Qed.

(** The serialisation of a well-formed record starts with a letter of
    its scheme and ends with a printable character of its path, query
    or fragment. *)
Lemma href_ends u :
  URLFacts.wf_URL unicodeToASCII u ->
  exists a m z,
    WHATWG.href u = a :: m ++ [z] /\ printable a = true /\ printable z = true.
Proof.
  intros Hu.
  destruct Hu as ([d Hd] & _ & _ & _ & _ & Hpne & Hpath & Hq & Hf).
  assert (Htail : exists front m z,
             URLFacts.after_scheme u = front ++ m ++ [z]
             /\ printable z = true).
  { unfold URLFacts.after_scheme.
    rewrite (URLFacts.serialize_path_join _ Hpne).
    set (tail := URLFacts.join "/" (WHATWG.path u)
                 ++ URLFacts.part_text "?" (WHATWG.query u)
                 ++ URLFacts.part_text "#" (WHATWG.fragment u)).
    assert (Hp : forallb printable ("/"%char :: tail) = true).
    { subst tail. cbn [forallb]. rewrite !forallb_app.
      assert (forallb printable (URLFacts.join "/" (WHATWG.path u)) = true)
        as ->.
      { apply URLFacts.forallb_join; [reflexivity |].
        rewrite forallb_forall in *. intros seg Hseg.
        specialize (Hpath seg Hseg). unfold URLFacts.wf_segment in Hpath.
        rewrite !andb_true_iff in Hpath. destruct Hpath as [[[Hc _] _] _].
        unfold URLFacts.clean in Hc.
        apply (URLFacts.forallb_weaken
                 (fun c => negb (WHATWG.path_set c)) printable);
          [vm_compute; reflexivity | exact Hc]. }
      assert (forallb printable (URLFacts.part_text "?" (WHATWG.query u))
              = true) as ->.
      { destruct (WHATWG.query u) as [q |]; [| reflexivity].
        cbn [URLFacts.part_text URLFacts.wf_part] in *.
        rewrite forallb_app. cbn [WHATWG.lit list_ascii_of_string forallb].
        apply (URLFacts.forallb_weaken
                 (fun c => negb (WHATWG.special_query_set c)) printable);
          [vm_compute; reflexivity | exact Hq]. }
      assert (forallb printable (URLFacts.part_text "#" (WHATWG.fragment u))
              = true) as ->.
      { destruct (WHATWG.fragment u) as [f |]; [| reflexivity].
        cbn [URLFacts.part_text URLFacts.wf_part] in *.
        rewrite forallb_app. cbn [WHATWG.lit list_ascii_of_string forallb].
        apply (URLFacts.forallb_weaken
                 (fun c => negb (WHATWG.fragment_set c)) printable);
          [vm_compute; reflexivity | exact Hf]. }
      reflexivity. }
    destruct (nonempty_last ("/"%char :: tail) ltac:(discriminate))
      as (m & z & E).
    exists (URLFacts.credentials_text (WHATWG.username u) (WHATWG.password u)
            ++ WHATWG.serialize_host (WHATWG.host u)
            ++ URLFacts.port_text (WHATWG.port u)), m, z.
    split.
    - rewrite <- E. subst tail. now rewrite <- !app_assoc.
    - rewrite E, forallb_app in Hp. cbn [forallb] in Hp.
      rewrite !andb_true_iff in Hp. tauto. }
  destruct Htail as (front & m & z & E & Hz).
  assert (Hhead : exists a rest,
             WHATWG.lit (WHATWG.scheme u) = a :: rest /\ printable a = true).
  { apply URLFacts.default_port_cases in Hd as [-> | [-> | [-> | [-> | ->]]]];
      eexists _, _; (split; [reflexivity | reflexivity]). }
  destruct Hhead as (a & rest & Ea & Ha).
  exists a, (rest ++ WHATWG.lit "://" ++ front ++ m), z.
  split; [| now split].
  rewrite URLFacts.href_after_scheme, E, Ea.
  cbn [app]. f_equal. now rewrite <- !app_assoc.
Qed.

(** An accepted URL is its own normal form. *)
Lemma normalizeUrl_fixed url n :
  WHATWG.toASCII_stable unicodeToASCII ->
  normalizeUrl url = Some n -> normalizeUrl n = Some n.
Proof.
  intros Hs H.
  destruct (normalizeUrl_href unicodeToASCII url n Hs H)
    as (u & Hu & Hscheme & ->).
  unfold normalizeUrl. rewrite list_ascii_of_string_of_list_ascii.
  assert (Hp : has_http_prefix (WHATWG.href u) = true).
  { rewrite URLFacts.href_after_scheme.
    destruct Hscheme as [-> | ->]; reflexivity. }
  rewrite Hp, (URLFacts.parse_href unicodeToASCII u Hu).
  unfold WHATWG.protocol. now destruct Hscheme as [-> | ->].
Qed.

(** Every character of the serialisation of a well-formed record is
    free of markup. *)
Lemma href_markup_free u :
  URLFacts.wf_URL unicodeToASCII u ->
  forallb markup_free (WHATWG.href u) = true.
Proof.
  intros Hu. rewrite URLFacts.href_after_scheme. unfold URLFacts.after_scheme.
  destruct Hu as ([d Hd] & Hus & Hpw & Hh & Hport & Hpne & Hpath & Hq & Hf).
  rewrite (URLFacts.serialize_path_join _ Hpne).
  rewrite !forallb_app. cbn [forallb].
  assert (forallb markup_free (WHATWG.lit (WHATWG.scheme u)) = true) as ->.
  { apply URLFacts.default_port_cases in Hd as [-> | [-> | [-> | [-> | ->]]]];
      reflexivity. }
  assert (forallb markup_free
            (URLFacts.credentials_text (WHATWG.username u) (WHATWG.password u))
          = true) as ->.
  { unfold URLFacts.clean, URLFacts.credentials_text in *.
    assert (Hu' : forallb markup_free (WHATWG.username u) = true)
      by (apply (URLFacts.forallb_weaken
                   (fun c => negb (WHATWG.userinfo_set c)) markup_free);
          [vm_compute; reflexivity | exact Hus]).
    assert (Hp' : forallb markup_free (WHATWG.password u) = true)
      by (apply (URLFacts.forallb_weaken
                   (fun c => negb (WHATWG.userinfo_set c)) markup_free);
          [vm_compute; reflexivity | exact Hpw]).
    destruct (is_nil (WHATWG.username u) && is_nil (WHATWG.password u));
      [reflexivity |].
    rewrite !forallb_app, Hu'.
    destruct (is_nil (WHATWG.password u)); cbn; [reflexivity |].
    now rewrite Hp'. }
  assert (forallb markup_free (WHATWG.serialize_host (WHATWG.host u)) = true)
    as ->.
  { destruct (WHATWG.host u) as [dom | a | pieces];
      cbn [URLFacts.wf_host WHATWG.serialize_host] in *.
    - destruct Hh as (_ & Hfd & _).
      apply (URLFacts.forallb_weaken
               (fun c => negb (WHATWG.forbidden_domain c)) markup_free);
        [vm_compute; reflexivity | exact Hfd].
    - apply (URLFacts.forallb_weaken URLFacts.digit_or_dot markup_free);
        [vm_compute; reflexivity | apply URLFacts.serialize_ipv4_chars].
    - destruct Hh as [_ Hp].
      pose proof (URLFacts.ipv6_out_chars pieces Hp 0
                    (WHATWG.find_compress pieces 0 None 1) false) as Hc.
      fold (WHATWG.serialize_ipv6 pieces) in Hc.
      cbn [WHATWG.lit list_ascii_of_string app forallb].
      rewrite forallb_app. cbn [forallb].
      assert (forallb markup_free (WHATWG.serialize_ipv6 pieces) = true) as ->
        by (apply (URLFacts.forallb_weaken URLFacts.hex_or_colon markup_free);
            [vm_compute; reflexivity | exact Hc]).
      reflexivity. }
  assert (forallb markup_free (URLFacts.port_text (WHATWG.port u)) = true)
    as ->.
  { destruct (WHATWG.port u) as [n |]; [| reflexivity].
    destruct Hport as [Hn _].
    destruct (URLFacts.prints_well_digits 10 n
                (URLFacts.decimal_prints_well n Hn)) as (_ & Hc & _).
    cbn [URLFacts.port_text WHATWG.lit list_ascii_of_string app forallb].
    assert (forallb markup_free (WHATWG.to_radix 10 n) = true) as ->.
    { eapply URLFacts.forallb_weaken; [| exact Hc]. vm_compute. reflexivity. }
    reflexivity. }
  assert (forallb markup_free (URLFacts.join "/" (WHATWG.path u)) = true)
    as ->.
  { apply URLFacts.forallb_join; [reflexivity |].
    rewrite forallb_forall in *. intros seg Hseg.
    specialize (Hpath seg Hseg). unfold URLFacts.wf_segment in Hpath.
    rewrite !andb_true_iff in Hpath. destruct Hpath as [[[Hc _] _] _].
    unfold URLFacts.clean in Hc.
    apply (URLFacts.forallb_weaken
             (fun c => negb (WHATWG.path_set c)) markup_free);
      [vm_compute; reflexivity | exact Hc]. }
  assert (forallb markup_free (URLFacts.part_text "?" (WHATWG.query u))
          = true) as ->.
  { destruct (WHATWG.query u) as [q |]; [| reflexivity].
    cbn [URLFacts.part_text URLFacts.wf_part] in *.
    rewrite forallb_app. cbn [WHATWG.lit list_ascii_of_string forallb].
    apply (URLFacts.forallb_weaken
             (fun c => negb (WHATWG.special_query_set c)) markup_free);
      [vm_compute; reflexivity | exact Hq]. }
  assert (forallb markup_free (URLFacts.part_text "#" (WHATWG.fragment u))
          = true) as ->.
  { destruct (WHATWG.fragment u) as [f |]; [| reflexivity].
    cbn [URLFacts.part_text URLFacts.wf_part] in *.
    rewrite forallb_app. cbn [WHATWG.lit list_ascii_of_string forallb].
    apply (URLFacts.forallb_weaken
             (fun c => negb (WHATWG.fragment_set c)) markup_free);
      [vm_compute; reflexivity | exact Hf]. }
  reflexivity.
Qed.


End NormalizedUrls.

(** ** The cache and the table *)

Lemma cache_key_inj c c' : cache_key c = cache_key c' -> c = c'.
Proof. unfold cache_key. cbv [String.append]. congruence. Qed.

Lemma redis_cacheSet ok c url s k :
  redis (cacheSet ok c url s) !! k = redis s !! k
  \/ (k = cache_key c /\ redis (cacheSet ok c url s) !! k = Some url).
Proof.
  unfold cacheSet. destruct (redisConnected s), ok; cbn; auto.
  destruct (decide (cache_key c = k)) as [<- | Hk].
  - right. split; [reflexivity | apply lookup_insert_eq].
  - left. now apply lookup_insert_ne.
Qed.

Lemma redis_set_urls rows s : redis (set_urls rows s) = redis s.
Proof. reflexivity. Qed.

Lemma deleteByCode_present c rows row :
  stmts.findByCode c rows = Some row ->
  (snd (stmts.deleteByCode c rows) =? 0)%nat = false.
Proof.
  intros H. apply find_some in H as [Hin Heq].
  unfold stmts.deleteByCode. cbn [snd].
  destruct (List.filter _ rows) as [| r l] eqn:E; [| reflexivity].
  assert (Hr : In row (List.filter (fun r => String.eqb (code r) c) rows))
    by (apply filter_In; now split).
  rewrite E in Hr. destruct Hr.
Qed.

Section CacheProperties.

Variable unicodeToASCII : list ascii -> option (list ascii).
Variable PORT : N.

Local Abbreviation normalizeUrl := (normalizeUrl unicodeToASCII).
Local Abbreviation shorten := (shorten unicodeToASCII PORT).
Local Abbreviation handle := (handle unicodeToASCII PORT).
Local Abbreviation reachable := (reachable unicodeToASCII PORT).
Local Abbreviation coherent_run := (coherent_run unicodeToASCII PORT).
Local Abbreviation short_url := (short_url PORT).
Local Abbreviation stats := (stats PORT).
Local Abbreviation stats_code := (stats_code PORT).
Local Abbreviation entry_of := (entry_of PORT).

Lemma shorten_coherent url now draws ok s r s' :
  cache_coherent s -> shorten url now draws ok s = Reply r s' ->
  cache_coherent s'.
Proof.
  intros Hc H. apply shorten_cases in H.
  destruct H as [| | u n c Hu Hne Hn Hn' Hf Hfresh]; try assumption.
  apply freshCode_unused in Hfresh.
  intros c0 url0 Hget. rewrite urls_cacheSet. cbn [urls set_urls].
  rewrite findByCode_app.
  destruct (redis_cacheSet ok c n (set_urls (urls s ++ [new_row c n now]) s)
              (cache_key c0)) as [E | [E1 E2]].
  - rewrite E, redis_set_urls in Hget.
    destruct (Hc c0 url0 Hget) as (row & -> & Hrow). eauto.
  - apply cache_key_inj in E1. subst c0. rewrite Hfresh.
    rewrite E2 in Hget. injection Hget as <-.
    exists (new_row c n now). split; [| reflexivity].
    unfold stmts.findByCode. cbn. now rewrite String.eqb_refl.
Qed.

Lemma incrementVisits_coherent c s s' :
  cache_coherent s -> redis s' = redis s ->
  urls s' = stmts.incrementVisits c (urls s) -> cache_coherent s'.
Proof.
  intros Hc Hr Hu c0 url0 Hget. rewrite Hr in Hget.
  destruct (Hc c0 url0 Hget) as (row & Hrow & Hurl).
  rewrite Hu, findByCode_incrementVisits, Hrow.
  destruct (String.eqb c c0); cbn; eauto.
Qed.

Lemma resolve_coherent c get_ok set_ok s :
  cache_coherent s -> cache_coherent (snd (resolve c get_ok set_ok s)).
Proof.
  intros Hc. unfold resolve.
  assert (Hhit : cache_coherent (set_urls (stmts.incrementVisits c (urls s)) s))
    by now apply incrementVisits_coherent with (c := c) (s := s).
  assert (Hmiss :
    cache_coherent
      (snd match stmts.findByCode c (urls s) with
           | None => (not_found, s)
           | Some row =>
               (Redirect (original_url row),
                set_urls
                  (stmts.incrementVisits c
                     (urls (cacheSet set_ok c (original_url row) s)))
                  (cacheSet set_ok c (original_url row) s))
           end)).
  { destruct (stmts.findByCode c (urls s)) as [row |] eqn:E; [| exact Hc].
    cbn [snd]. rewrite urls_cacheSet.
    apply incrementVisits_coherent
      with (c := c) (s := cacheSet set_ok c (original_url row) s);
      [| reflexivity | now rewrite urls_cacheSet].
    intros c0 url0 Hget. rewrite urls_cacheSet.
    destruct (redis_cacheSet set_ok c (original_url row) s (cache_key c0))
      as [E0 | [E1 E2]].
    - rewrite E0 in Hget. now apply Hc.
    - apply cache_key_inj in E1. subst c0. rewrite E2 in Hget.
      injection Hget as <-. eauto. }
  destruct (cacheGet get_ok c s) as [cached |]; [| exact Hmiss].
  destruct (String.eqb cached ""); [exact Hmiss | exact Hhit].
Qed.

Lemma remove_coherent c del_ok s :
  cache_coherent s -> invalidated (Remove c del_ok) s ->
  cache_coherent (snd (remove c del_ok s)).
Proof.
  intros Hc Hinv. cbn [invalidated] in Hinv.
  destruct (stmts.findByCode c (urls s)) as [row |] eqn:Erow.
  2: { unfold remove. rewrite (deleteByCode_absent _ _ Erow). cbn.
       now rewrite set_urls_same. }
  destruct Hinv as [Habs | [Hcon ->]]; [discriminate |].
  intros c0 url0 Hget. rewrite urls_remove, findByCode_deleteByCode.
  pose proof (deleteByCode_present _ _ _ Erow) as Hn.
  unfold remove in Hget.
  destruct (stmts.deleteByCode c (urls s)) as [rows n]. cbn [snd] in Hn.
  rewrite Hn in Hget. cbn [snd] in Hget. unfold cacheDel in Hget.
  cbn [redisConnected set_urls] in Hget. rewrite Hcon in Hget.
  cbn [negb redis set_redis set_urls] in Hget.
  destruct (String.eqb_spec c c0) as [<- | Hne].
  - now rewrite lookup_delete_eq in Hget.
  - rewrite lookup_delete_ne in Hget; [now apply Hc |].
    intros E. now apply cache_key_inj in E.
Qed.

Lemma on_event_coherent e s :
  cache_coherent s -> cache_coherent (on_event e s).
Proof.
  intros Hc c url. destruct e as [| | key]; cbn [on_event].
  - apply Hc.
  - destruct (redisConnected s); apply Hc.
  - cbn [redis set_redis urls]. intros H.
    apply lookup_delete_Some in H as [_ H]. now apply Hc.
Qed.

Lemma handle_coherent req s r s' :
  cache_coherent s -> invalidated req s -> handle req s = Reply r s' ->
  cache_coherent s'.
Proof.
  intros Hc Hinv. destruct req as [url now draws ok | c g o | c d | | c];
    cbn [handle].
  - now apply shorten_coherent.
  - pose proof (resolve_coherent c g o s Hc) as H.
    destruct (resolve c g o s) as [r0 s0]. now intros [= <- <-].
  - pose proof (remove_coherent c d s Hc Hinv) as H.
    destruct (remove c d s) as [r0 s0]. now intros [= <- <-].
  - now intros [= <- <-].
  - now intros [= <- <-].
Qed.

(** Along the runs in which every removal reaches the cache, the cache
    agrees with the table. *)
Lemma run_coherent s : coherent_run s -> cache_coherent s.
Proof.
  induction 1 as [| req s r s' _ IH Hinv H | e s _ IH].
  - intros c url H. cbn in H. now rewrite lookup_empty in H.
  - now apply handle_coherent with (req := req) (s := s) (r := r).
  - now apply on_event_coherent.
Qed.

Lemma run_reachable s : coherent_run s -> reachable s.
Proof.
  induction 1 as [| req s r s' _ IH Hinv H | e s _ IH].
  - apply reachable_initial.
  - now apply reachable_request with (req := req) (s := s) (r := r).
  - now apply reachable_event.
Qed.

(** X7: cache-aside keeps the cache right.  From an empty table and an
    empty cache, along every run of requests and Redis events (losses
    and returns of the connection, failed cache writes, expiries) in
    which every removal of a row reaches the cache, each cache entry of
    a code holds the original URL of the row with that code; no entry
    is left for a code that has no row. *)
Theorem cache_agrees_with_table s :
  coherent_run s -> cache_coherent s.
Proof. apply run_coherent. Qed.

(** What [GET /:code] answers when the cache gives nothing wrong. *)
Lemma resolve_from_table c get_ok set_ok s :
  (forall url, cacheGet get_ok c s = Some url ->
               exists row, stmts.findByCode c (urls s) = Some row
                           /\ original_url row = url) ->
  resolve c get_ok set_ok s
  = match stmts.findByCode c (urls s) with
    | None => (not_found, s)
    | Some row =>
        (Redirect (original_url row),
         set_urls (stmts.incrementVisits c (urls s))
           (match cacheGet get_ok c s with
            | Some cached =>
                if String.eqb cached ""
                then cacheSet set_ok c (original_url row) s
                else s
            | None => cacheSet set_ok c (original_url row) s
            end))
    end.
Proof.
  intros H. unfold resolve.
  destruct (cacheGet get_ok c s) as [cached |].
  - destruct (H cached eq_refl) as (row & -> & <-).
    destruct (String.eqb (original_url row) "");
      [now rewrite urls_cacheSet | reflexivity].
  - destruct (stmts.findByCode c (urls s)); [| reflexivity].
    now rewrite urls_cacheSet.
Qed.

Lemma cacheGet_coherent get_ok c s url :
  cache_coherent s -> cacheGet get_ok c s = Some url ->
  exists row, stmts.findByCode c (urls s) = Some row
              /\ original_url row = url.
Proof.
  intros Hc. unfold cacheGet.
  destruct (redisConnected s), get_ok; cbn; try discriminate. apply Hc.
Qed.

(** X8: along the runs from an empty table and an empty cache in which
    every removal of a row reaches the cache, [GET /:code] answers as
    the table says, with the cache connected or not and whatever it
    holds: not found when no row has the code, with the state left as
    it is, and otherwise a redirect to the original URL of the row,
    whose visits go up by one. *)
Theorem resolve_exact c get_ok set_ok s :
  coherent_run s ->
  match stmts.findByCode c (urls s) with
  | None => resolve c get_ok set_ok s = (not_found, s)
  | Some row =>
      fst (resolve c get_ok set_ok s) = Redirect (original_url row)
      /\ urls (snd (resolve c get_ok set_ok s))
         = stmts.incrementVisits c (urls s)
  end.
Proof.
  intros Hrun. apply run_coherent in Hrun.
  rewrite (resolve_from_table c get_ok set_ok s)
    by (intros url; now apply cacheGet_coherent).
  destruct (stmts.findByCode c (urls s)) as [row |]; [| reflexivity].
  split; reflexivity.
Qed.

(** X9: a read fills the cache.  Along the runs from an empty table and
    an empty cache in which every removal of a row reaches the cache,
    with Redis connected and answering, after [GET /:code] has
    redirected for a code the cache holds the original URL of its row
    under the key of the code: the next lookup of the code is a hit
    with that URL. *)
Theorem resolve_fills_cache c s row :
  coherent_run s -> redisConnected s = true ->
  stmts.findByCode c (urls s) = Some row ->
  cacheGet true c (snd (resolve c true true s)) = Some (original_url row).
Proof.
  intros Hrun Hcon Hrow. apply run_coherent in Hrun.
  rewrite (resolve_from_table c true true s)
    by (intros url; now apply cacheGet_coherent).
  rewrite Hrow. cbn [snd].
  assert (Hset : cacheGet true c
                   (set_urls (stmts.incrementVisits c (urls s))
                      (cacheSet true c (original_url row) s))
                 = Some (original_url row)).
  { unfold cacheGet, cacheSet. cbn [redisConnected set_urls].
    rewrite Hcon. cbn [negb redisConnected set_redis redis set_urls].
    rewrite Hcon. cbn [negb]. apply lookup_insert_eq. }
  destruct (cacheGet true c s) as [cached |] eqn:Eget; [| exact Hset].
  destruct (cacheGet_coherent true c s cached Hrun Eget) as (row' & Hrow' & Hc).
  assert (row' = row) by congruence. subst row'.
  destruct (String.eqb cached ""); [exact Hset |].
  unfold cacheGet in *. cbn [redisConnected set_urls redis].
  rewrite Hcon in *. cbn [negb] in *. now rewrite Eget, Hc.
Qed.

End CacheProperties.

(** ** What the table holds along a run *)

Lemma findByUrl_None url rows :
  stmts.findByUrl url rows = None <-> ~ In url (List.map original_url rows).
Proof.
  unfold stmts.findByUrl. induction rows as [| r rows IH]; cbn.
  - tauto.
  - destruct (String.eqb_spec (original_url r) url) as [E | E].
    + split; [discriminate | intros H; exfalso; auto].
    + rewrite IH. tauto.
Qed.

Lemma NoDup_map_filter {A B} (f : A -> B) (p : A -> bool) l :
  List.NoDup (List.map f l) -> List.NoDup (List.map f (List.filter p l)).
Proof.
  induction l as [| x l IH]; cbn; [trivial |].
  intros H. inversion H as [| ? ? Hnotin Hnd]; subst.
  destruct (p x); cbn; [constructor |]; auto.
  intros Hin. apply Hnotin. apply in_map_iff in Hin as (y & <- & Hy).
  apply in_map. now apply filter_In in Hy.
Qed.

Lemma urls_incrementVisits c rows :
  List.map original_url (stmts.incrementVisits c rows)
  = List.map original_url rows.
Proof.
  unfold stmts.incrementVisits. rewrite List.map_map.
  apply List.map_ext. intros r. now destruct (String.eqb (code r) c).
Qed.

Lemma Forall_incrementVisits (P : UrlRow -> Prop) c rows :
  (forall row, P row -> P (visited row)) ->
  List.Forall P rows -> List.Forall P (stmts.incrementVisits c rows).
Proof.
  intros Hv. unfold stmts.incrementVisits.
  induction 1 as [| r rows Hr _ IH]; cbn; constructor; [| exact IH].
  destruct (String.eqb (code r) c); [now apply Hv | exact Hr].
Qed.

Lemma Forall_list_filter {A} (P : A -> Prop) (p : A -> bool) l :
  List.Forall P l -> List.Forall P (List.filter p l).
Proof.
  induction 1 as [| x l Hx _ IH]; cbn; [constructor |].
  destruct (p x); [constructor |]; assumption.
Qed.

Lemma freshCode_generated draws rows c :
  freshCode draws rows = Some c ->
  exists d, In d draws /\ c = generateCode d.
Proof.
  induction draws as [| d draws IH]; cbn; [discriminate |].
  destruct (stmts.findByCode (generateCode d) rows).
  - intros H. destruct (IH H) as (d' & Hd' & ->). eauto.
  - intros [= <-]. eauto.
Qed.

Lemma generateCode_shape rnd :
  String.length (generateCode rnd) = 6%nat
  /\ forallb in_alphabet (list_ascii_of_string (generateCode rnd)) = true.
Proof.
  destruct rnd as [[[b0 b1] b2] b3].
  rewrite <- length_list_ascii_of_string, generateCode_symbols.
  split; [reflexivity |].
  pose proof (byte_lt_256 b0). pose proof (byte_lt_256 b1).
  pose proof (byte_lt_256 b2). pose proof (byte_lt_256 b3).
  cbn [forallb].
  rewrite !base64url_symbol_in_alphabet; [reflexivity | ..];
    first [ now apply sextet_shiftr | apply sextet_land | apply sextet_high
          | apply sextet_lor;
            first [ apply sextet_high | apply sextet_mid
                  | now apply sextet_low4 | now apply sextet_low6 ] ].
Qed.

Lemma findByCode_In rows row :
  codes_unique rows -> In row rows ->
  stmts.findByCode (code row) rows = Some row.
Proof.
  unfold codes_unique, codes, stmts.findByCode.
  induction rows as [| r rows IH]; cbn; [contradiction |].
  intros Hu Hin. inversion Hu as [| ? ? Hnotin Hnd]; subst.
  destruct Hin as [-> | Hin]; [now rewrite String.eqb_refl |].
  destruct (String.eqb_spec (code r) (code row)) as [E | E]; [| auto].
  exfalso. apply Hnotin. rewrite E. now apply in_map.
Qed.

Lemma findByUrl_In rows row :
  List.NoDup (List.map original_url rows) -> In row rows ->
  stmts.findByUrl (original_url row) rows = Some row.
Proof.
  unfold stmts.findByUrl.
  induction rows as [| r rows IH]; cbn; [contradiction |].
  intros Hu Hin. inversion Hu as [| ? ? Hnotin Hnd]; subst.
  destruct Hin as [-> | Hin]; [now rewrite String.eqb_refl |].
  destruct (String.eqb_spec (original_url r) (original_url row)) as [E | E];
    [| auto].
  exfalso. apply Hnotin. rewrite E. now apply in_map.
Qed.

Lemma redisConnected_cacheSet ok c url s :
  redisConnected (cacheSet ok c url s) = redisConnected s.
Proof.
  unfold cacheSet. destruct (redisConnected s) eqn:E, ok; cbn; auto.
Qed.

Section Invariants.

Variable unicodeToASCII : list ascii -> option (list ascii).
Variable PORT : N.

Local Abbreviation normalizeUrl := (normalizeUrl unicodeToASCII).
Local Abbreviation shorten := (shorten unicodeToASCII PORT).
Local Abbreviation handle := (handle unicodeToASCII PORT).
Local Abbreviation reachable := (reachable unicodeToASCII PORT).
Local Abbreviation short_url := (short_url PORT).
Local Abbreviation stats := (stats PORT).
Local Abbreviation stats_code := (stats_code PORT).
Local Abbreviation entry_of := (entry_of PORT).

(** How one request changes the table, with what [POST /shorten] knows
    of the row it appends. *)
Lemma handle_table req s r s' :
  handle req s = Reply r s' ->
  urls s' = urls s
  \/ (exists u c n now draws,
        normalizeUrl (trim u) = Some n
        /\ stmts.findByUrl n (urls s) = None
        /\ freshCode draws (urls s) = Some c
        /\ urls s' = urls s ++ [new_row c n now])
  \/ (exists c, urls s' = stmts.incrementVisits c (urls s))
  \/ (exists c, urls s' = fst (stmts.deleteByCode c (urls s))).
Proof.
  destruct req as [url now draws ok | c g o | c d | | c];
    cbn [handle].
  - intros H. apply shorten_cases in H.
    destruct H as [| | u n c Hu Hne Hn Hn' Hf Hc]; auto.
    right. left. exists u, c, n, now, draws. rewrite urls_cacheSet. auto.
  - destruct (resolve c g o s) as [r0 s0] eqn:E. intros [= <- <-].
    pose proof (urls_resolve c g o s) as H. rewrite E in H. cbn in H.
    destruct H; eauto.
  - destruct (remove c d s) as [r0 s0] eqn:E. intros [= <- <-].
    pose proof (urls_remove c d s) as H. rewrite E in H. cbn [snd] in H.
    eauto 6.
  - intros [= <- <-]. auto.
  - intros [= <- <-]. auto.
Qed.

(** A property of rows that a visit keeps and that every row has when
    [POST /shorten] inserts it holds for all rows of the table. *)
Lemma reachable_rows (P : UrlRow -> Prop) :
  (forall row, P row -> P (visited row)) ->
  (forall u n d now, normalizeUrl u = Some n ->
                     P (new_row (generateCode d) n now)) ->
  forall s, reachable s -> List.Forall P (urls s).
Proof.
  intros Hv Hnew s. induction 1 as [cache | req s r s' _ IH H | e s _ IH].
  - constructor.
  - apply handle_table in H
      as [-> | [(u & c & n & now & draws & Hn & _ & Hc & ->)
               | [(c & ->) | (c & ->)]]].
    + exact IH.
    + apply List.Forall_app. split; [exact IH |].
      apply freshCode_generated in Hc as (d & _ & ->).
      constructor; [| constructor]. now apply Hnew with (u := trim u).
    + now apply Forall_incrementVisits.
    + now apply Forall_list_filter.
  - now rewrite urls_on_event.
Qed.

Lemma reachable_urls_unique s :
  reachable s -> List.NoDup (List.map original_url (urls s)).
Proof.
  induction 1 as [cache | req s r s' _ IH H | e s _ IH].
  - constructor.
  - apply handle_table in H
      as [-> | [(u & c & n & now & draws & _ & Hf & _ & ->)
               | [(c & ->) | (c & ->)]]].
    + exact IH.
    + rewrite List.map_app. cbn. apply findByUrl_None in Hf.
      apply List.NoDup_app; [assumption | repeat constructor; cbn; tauto |].
      intros x Hx [<- | []]. contradiction.
    + now rewrite urls_incrementVisits.
    + now apply NoDup_map_filter.
  - now rewrite urls_on_event.
Qed.


(** X11: every row of the table, in every state the server reaches, has
    a code of six symbols of the URL-safe alphabet and an original URL
    that starts with [http://] or [https://]. *)
Theorem reachable_rows_well_formed s :
  reachable s ->
  List.Forall
    (fun row =>
       String.length (code row) = 6%nat
       /\ forallb in_alphabet (list_ascii_of_string (code row)) = true
       /\ (String.prefix "http://" (original_url row) = true
           \/ String.prefix "https://" (original_url row) = true))
    (urls s).
Proof.
  apply reachable_rows.
  - intros row H. exact H.
  - intros u n d now Hn. cbn [code original_url new_row].
    destruct (generateCode_shape d) as [Hl Ha].
    split; [exact Hl |]. split; [exact Ha |].
    now apply normalizeUrl_http with (unicodeToASCII := unicodeToASCII) (url := u).
Qed.


(** X13: the list of [GET /stats] and the answers of [GET /stats/:code]
    agree.  In every state the server reaches, the list has one entry
    for each row, and an entry is in the list exactly when
    [GET /stats/:code] answers with that entry for its code. *)
Theorem stats_agree_with_stats_code s :
  reachable s ->
  exists es,
    stats s = Json 200 (EntriesBody es)
    /\ length es = length (urls s)
    /\ forall e, In e es <-> stats_code (entry_code e) s = Json 200 (EntryBody e).
Proof.
  intros Hr. apply reachable_unique in Hr.
  exists (List.map entry_of (urls s)). split; [reflexivity |].
  split; [apply List.length_map |].
  intros e. unfold stats_code. split.
  - intros H. apply in_map_iff in H as (row & <- & Hrow).
    cbn [entry_code entry_of]. now rewrite (findByCode_In _ _ Hr Hrow).
  - destruct (stmts.findByCode (entry_code e) (urls s)) as [row |] eqn:E;
      [| discriminate].
    intros [= <-]. apply in_map. now apply findByCode_Some in E.
Qed.

(** X14: [POST /shorten] always answers.  The insert never fails on the
    primary key, and when one of the codes drawn is not in the table
    the collision loop ends and the handler replies. *)
Theorem shorten_total url now draws set_ok s :
  shorten url now draws set_ok s <> Throws
  /\ ((exists d, In d draws
                 /\ stmts.findByCode (generateCode d) (urls s) = None) ->
      exists r s', shorten url now draws set_ok s = Reply r s').
Proof.
  split; [apply shorten_never_throws | apply shorten_replies].
Qed.

(** X15: what [POST /shorten] leaves alone.  It never changes the
    connection flag and, unless it answers 201, it leaves the whole
    state as it is; when it answers 201 the table has
    one row more, and every row that was in the table is still found
    under its code, unchanged. *)
Theorem shorten_frame url now draws set_ok s st body s' :
  shorten url now draws set_ok s = Reply (Json st body) s' ->
  redisConnected s' = redisConnected s
  /\ (forall c row, stmts.findByCode c (urls s) = Some row ->
                    stmts.findByCode c (urls s') = Some row)
  /\ (if st =? 201 then length (urls s') = S (length (urls s)) else s' = s).
Proof.
  intros H. apply shorten_cases in H.
  inversion H as [msg Hrej | u n existing Hu Hne Hn Hn' Hf
                   | u n c Hu Hne Hn Hn' Hf Hc]; subst; clear H.
  - repeat split; auto.
  - repeat split; auto.
  - repeat split.
    + now rewrite redisConnected_cacheSet.
    + intros c0 row Hrow. rewrite urls_cacheSet. cbn [urls set_urls].
      now rewrite findByCode_app, Hrow.
    + cbn. rewrite urls_cacheSet. cbn [urls set_urls].
      rewrite List.length_app. cbn. lia.
Qed.

End Invariants.

(** ** The version with Redis against the version without *)

Section Versions.

Variable unicodeToASCII : list ascii -> option (list ascii).

Local Abbreviation handle := (handle unicodeToASCII SqliteOnly.PORT).
Local Abbreviation coherent_run :=
  (coherent_run unicodeToASCII SqliteOnly.PORT).

Lemma shorten_from_table url now draws ok s :
  table_outcome (shorten unicodeToASCII SqliteOnly.PORT url now draws ok s)
  = SqliteOnly.shorten unicodeToASCII url now draws (urls s).
Proof.
  unfold shorten, SqliteOnly.shorten. destruct url as [u |]; [| reflexivity].
  destruct (String.eqb u ""); [reflexivity |].
  destruct (normalizeUrl unicodeToASCII (trim u)) as [n |]; [| reflexivity].
  destruct (String.eqb n ""); [reflexivity |].
  destruct (stmts.findByUrl n (urls s)); [reflexivity |].
  destruct (freshCode draws (urls s)) as [c |]; [| reflexivity].
  destruct (stmts.insert c n now (urls s)) as [rows |]; [| reflexivity].
  cbn [table_outcome]. now rewrite urls_cacheSet.
Qed.

Lemma remove_from_table c del_ok s :
  fst (remove c del_ok s) = fst (SqliteOnly.remove c (urls s))
  /\ urls (snd (remove c del_ok s)) = snd (SqliteOnly.remove c (urls s)).
Proof.
  unfold remove, SqliteOnly.remove.
  destruct (stmts.deleteByCode c (urls s)) as [rows n].
  destruct (n =? 0)%nat; cbn [fst snd]; [now split |].
  now rewrite urls_cacheDel.
Qed.

(** When the cache gives nothing that the table does not have, a
    request is answered as the version without Redis answers it. *)
Lemma handle_from_table req s :
  (forall c get_ok url,
      cacheGet get_ok c s = Some url ->
      exists row, stmts.findByCode c (urls s) = Some row
                  /\ original_url row = url) ->
  table_outcome (handle req s)
  = SqliteOnly.handle unicodeToASCII (without_cache req) (urls s).
Proof.
  intros Hcache.
  destruct req as [url now draws ok | c g o | c d | | c];
    cbn [handle without_cache SqliteOnly.handle].
  - apply shorten_from_table.
  - rewrite (resolve_from_table c g o s) by apply Hcache.
    unfold SqliteOnly.resolve.
    destruct (stmts.findByCode c (urls s)); reflexivity.
  - destruct (remove_from_table c d s) as [Hr Hu].
    destruct (remove c d s) as [r0 s0].
    destruct (SqliteOnly.remove c (urls s)) as [r1 rows1].
    cbn in *. congruence.
  - reflexivity.
  - reflexivity.
Qed.

Lemma cacheGet_disconnected get_ok c s :
  redisConnected s = false -> cacheGet get_ok c s = None.
Proof. unfold cacheGet. now intros ->. Qed.

Lemma cacheSet_disconnected ok c url s :
  redisConnected s = false -> cacheSet ok c url s = s.
Proof. unfold cacheSet. now intros ->. Qed.

Lemma cacheDel_disconnected ok c s :
  redisConnected s = false -> cacheDel ok c s = s.
Proof. unfold cacheDel. now intros ->. Qed.

(** While Redis is not connected a handler leaves the cache and the
    flag as they are. *)
Lemma handle_disconnected req s r s' :
  redisConnected s = false -> handle req s = Reply r s' ->
  redis s' = redis s /\ redisConnected s' = false.
Proof.
  intros Hd.
  destruct req as [url now draws ok | c g o | c d | | c]; cbn [handle].
  - intros H. apply shorten_cases in H. destruct H; auto.
    now rewrite cacheSet_disconnected.
  - unfold resolve. rewrite cacheGet_disconnected by assumption.
    destruct (stmts.findByCode c (urls s)) as [row |].
    + rewrite cacheSet_disconnected by assumption. now intros [= <- <-].
    + now intros [= <- <-].
  - unfold remove. destruct (stmts.deleteByCode c (urls s)) as [rows n].
    destruct (n =? 0)%nat; [now intros [= <- <-] |].
    rewrite cacheDel_disconnected by assumption. now intros [= <- <-].
  - now intros [= <- <-].
  - now intros [= <- <-].
Qed.

(** X16: without Redis the server is the SQLite-only version.  While
    Redis is not connected, every request to the server on port 3000 is
    answered as the version without Redis answers it on the same table,
    the table after it is the same, and the handler neither reads nor
    writes the cache, whatever is left in it. *)
Theorem fallback_to_sqlite req s :
  redisConnected s = false ->
  table_outcome (handle req s)
  = SqliteOnly.handle unicodeToASCII (without_cache req) (urls s)
  /\ (forall r s', handle req s = Reply r s' ->
                   redis s' = redis s /\ redisConnected s' = false).
Proof.
  intros Hd. split.
  - apply handle_from_table. intros c get_ok url.
    now rewrite cacheGet_disconnected.
  - intros r s'. now apply handle_disconnected.
Qed.

(** X17: the cache does not show.  Along the runs of the server on
    port 3000 in which every removal reaches the cache, with Redis
    connected or not, every request gets the reply of the version
    without Redis on the same table, and leaves the same table. *)
Theorem cache_transparent req s :
  coherent_run s ->
  table_outcome (handle req s)
  = SqliteOnly.handle unicodeToASCII (without_cache req) (urls s).
Proof.
  intros Hrun. apply run_coherent in Hrun.
  apply handle_from_table. intros c get_ok url.
  now apply cacheGet_coherent.
Qed.

Lemma without_with_cache req : without_cache (with_cache req) = req.
Proof. now destruct req. Qed.

(** The version without Redis is the version with it, never
    connected. *)
Lemma sqlite_only_simulated rows :
  SqliteOnly.reachable unicodeToASCII rows ->
  reachable unicodeToASCII SqliteOnly.PORT
    {| urls := rows; redisConnected := false; redis := ∅ |}.
Proof.
  induction 1 as [| req rows r rows' _ IH H].
  - apply (reachable_initial unicodeToASCII SqliteOnly.PORT ∅).
  - set (s := {| urls := rows; redisConnected := false; redis := ∅ |}) in *.
    assert (Ht : table_outcome (handle (with_cache req) s)
                 = SqliteOnly.Reply r rows').
    { rewrite handle_from_table.
      - now rewrite without_with_cache.
      - intros c get_ok url.
        rewrite cacheGet_disconnected by reflexivity. discriminate. }
    destruct (handle (with_cache req) s) as [r0 s0 | |] eqn:E;
      try discriminate Ht.
    cbn [table_outcome] in Ht. injection Ht as -> Hu.
    destruct (handle_disconnected (with_cache req) s r s0 eq_refl E)
      as [Hredis Hflag].
    replace {| urls := rows'; redisConnected := false; redis := ∅ |} with s0
      by (destruct s0; cbn in *; congruence).
    now apply reachable_request
      with (req := with_cache req) (s := s) (r := r).
Qed.


(** X19: in the version without Redis a removed code is gone at once:
    on any table, the [GET /:code] that follows a [DELETE /stats/:code]
    of the same code answers not found and changes nothing. *)
Theorem sqlite_only_resolve_after_remove c rows :
  SqliteOnly.resolve c (snd (SqliteOnly.remove c rows))
  = (not_found, snd (SqliteOnly.remove c rows)).
Proof.
  assert (E : snd (SqliteOnly.remove c rows)
              = fst (stmts.deleteByCode c rows)).
  { unfold SqliteOnly.remove.
    destruct (stmts.deleteByCode c rows) as [rows' n].
    now destruct (n =? 0)%nat. }
  rewrite E. unfold SqliteOnly.resolve.
  now rewrite findByCode_deleteByCode, String.eqb_refl.
Qed.

End Versions.

(** ** The cache helpers *)

(** X20: the three cache helpers on a connected Redis that answers.  A
    [cacheSet] is read back by [cacheGet] under the same code, a
    [cacheDel] makes [cacheGet] miss, and neither shows under another
    code (the keys [url:] + code of two codes differ); none of them
    touches the table. *)
Theorem cache_helpers_round_trip c c' url s :
  redisConnected s = true ->
  cacheGet true c (cacheSet true c url s) = Some url
  /\ cacheGet true c (cacheDel true c s) = None
  /\ (c' <> c ->
      cacheGet true c' (cacheSet true c url s) = cacheGet true c' s
      /\ cacheGet true c' (cacheDel true c s) = cacheGet true c' s)
  /\ urls (cacheSet true c url s) = urls s
  /\ urls (cacheDel true c s) = urls s.
Proof.
  intros Hc. unfold cacheGet, cacheSet, cacheDel. rewrite Hc. cbn.
  rewrite Hc. cbn. split; [apply lookup_insert_eq |].
  split; [apply lookup_delete_eq |]. split; [| now split].
  intros Hne.
  assert (Hk : cache_key c <> cache_key c')
    by (intros E; apply cache_key_inj in E; congruence).
  split; [now apply lookup_insert_ne | now apply lookup_delete_ne].
Qed.

(** ** Removing and shortening again *)

Lemma findByUrl_deleteByCode rows row c :
  List.NoDup (List.map original_url rows) ->
  stmts.findByCode c rows = Some row ->
  stmts.findByUrl (original_url row) (fst (stmts.deleteByCode c rows)) = None.
Proof.
  intros Hu Hrow. apply findByCode_Some in Hrow as [Hin Hcode].
  apply findByUrl_None. unfold stmts.deleteByCode. cbn [fst].
  induction rows as [| r rows IH]; cbn; [tauto |].
  inversion Hu as [| ? ? Hnotin Hnd]; subst.
  destruct Hin as [-> | Hin].
  - rewrite String.eqb_refl. cbn. intros H. apply Hnotin.
    apply in_map_iff in H as (r' & E & Hr'). rewrite <- E.
    apply in_map. now apply filter_In in Hr'.
  - destruct (String.eqb (code r) (code row)); cbn; [now apply IH |].
    intros [E | H]; [| now apply IH].
    apply Hnotin. rewrite E. now apply in_map.
Qed.

(** The codes of a list of draws that are all in the table. *)
Lemma taken_draws_bounded draws rows :
  List.NoDup draws ->
  (forall d, In d draws -> stmts.findByCode (generateCode d) rows <> None) ->
  (length draws <= length rows)%nat.
Proof.
  intros Hnd Htaken.
  rewrite <- (List.length_map generateCode draws),
    <- (List.length_map code rows).
  apply List.NoDup_incl_length.
  - clear Htaken. induction Hnd as [| d draws Hd _ IH]; cbn; constructor;
      [| exact IH].
    intros H. apply in_map_iff in H as (d' & E & Hd').
    apply generateCode_inj in E. now subst d'.
  - intros c Hc. apply in_map_iff in Hc as (d & <- & Hd).
    specialize (Htaken d Hd).
    destruct (stmts.findByCode (generateCode d) rows) as [row |] eqn:E;
      [| congruence].
    apply findByCode_Some in E as [Hin <-]. now apply in_map.
Qed.

Section Composition.

Variable unicodeToASCII : list ascii -> option (list ascii).
Variable PORT : N.

Local Abbreviation normalizeUrl := (normalizeUrl unicodeToASCII).
Local Abbreviation shorten := (shorten unicodeToASCII PORT).
Local Abbreviation reachable := (reachable unicodeToASCII PORT).
Local Abbreviation short_url := (short_url PORT).

(** X21: a removed URL is shortened anew.  After [DELETE /stats/:code]
    has removed the row of a URL, in a state the server reaches, a
    [POST /shorten] of an input with that normal form does not find the
    URL any more: it answers 201 with the first free code drawn, and
    the new row starts with zero visits. *)
Theorem shorten_after_remove c del_ok s row u now draws set_ok c' :
  reachable s ->
  stmts.findByCode c (urls s) = Some row ->
  normalizeUrl (trim u) = Some (original_url row) ->
  freshCode draws (urls (snd (remove c del_ok s))) = Some c' ->
  exists s',
    shorten (JsString u) now draws set_ok (snd (remove c del_ok s))
    = Reply (Json 201 (ShortenBody (short_url c') c' (original_url row))) s'
    /\ stmts.findByCode c' (urls s')
       = Some (new_row c' (original_url row) now).
Proof.
  intros Hr Hrow Hn Hfresh.
  pose proof (findByUrl_deleteByCode _ _ _ (reachable_urls_unique _ _ s Hr) Hrow)
    as Hgone.
  rewrite <- (urls_remove c del_ok s) in Hgone.
  assert (Hu : String.eqb u "" = false).
  { destruct (String.eqb_spec u "") as [-> |]; [| reflexivity].
    change (trim "") with ""%string in Hn.
    rewrite normalizeUrl_empty in Hn. discriminate. }
  assert (Hne : String.eqb (original_url row) "" = false).
  { destruct (normalizeUrl_http unicodeToASCII _ _ Hn) as [H | H];
      (destruct (original_url row); [cbn in H; discriminate | reflexivity]). }
  pose proof (freshCode_unused _ _ _ Hfresh) as Hfree.
  unfold shorten. rewrite Hu, Hn, Hne, Hgone, Hfresh.
  rewrite (insert_fresh _ _ _ _ Hfree). eexists. split; [reflexivity |].
  rewrite urls_cacheSet. cbn [urls set_urls].
  rewrite findByCode_app, Hfree. unfold stmts.findByCode. cbn.
  now rewrite String.eqb_refl.
Qed.


End Composition.

(** ** Sequences of requests *)

Section SequenceProperties.

Variable unicodeToASCII : list ascii -> option (list ascii).
Variable PORT : N.

Local Abbreviation shorten := (shorten unicodeToASCII PORT).
Local Abbreviation handle := (handle unicodeToASCII PORT).
Local Abbreviation run := (run unicodeToASCII PORT).

(** One step on the row of a code that the step does not remove. *)
Lemma step_row c row st s s' :
  stmts.findByCode c (urls s) = Some row ->
  is_remove_of c st = false ->
  run [st] s = Some s' ->
  stmts.findByCode c (urls s')
  = Some (if is_resolve_of c st then visited row else row).
Proof.
  intros Hrow Hrm. destruct st as [req | e]; cbn [run].
  2: { intros [= <-]. now rewrite urls_on_event. }
  destruct req as [url now draws ok | c0 g o | c0 d | | c0];
    cbn [handle is_resolve_of is_remove_of] in *.
  - destruct (shorten url now draws ok s) as [r s0 | |] eqn:E;
      try discriminate.
    intros [= <-]. apply shorten_cases in E.
    destruct E as [| | u n c1 Hu Hne Hn Hn' Hf Hc]; try assumption.
    rewrite urls_cacheSet. cbn [urls set_urls].
    now rewrite findByCode_app, Hrow.
  - destruct (resolve c0 g o s) as [r s0] eqn:E. intros [= <-].
    replace s0 with (snd (resolve c0 g o s)) by now rewrite E.
    destruct (String.eqb_spec c0 c) as [-> | Hne].
    + rewrite (resolve_existing _ _ _ _ _ Hrow), findByCode_incrementVisits.
      now rewrite String.eqb_refl, Hrow.
    + destruct (urls_resolve c0 g o s) as [-> | ->]; [exact Hrow |].
      rewrite findByCode_incrementVisits.
      destruct (String.eqb_spec c0 c); [contradiction | exact Hrow].
  - destruct (remove c0 d s) as [r s0] eqn:E. intros [= <-].
    replace s0 with (snd (remove c0 d s)) by now rewrite E.
    rewrite urls_remove, findByCode_deleteByCode. now rewrite Hrm.
  - now intros [= <-].
  - now intros [= <-].
Qed.

Lemma run_cons st steps s :
  run (st :: steps) s
  = match run [st] s with Some s' => run steps s' | None => None end.
Proof.
  destruct st as [req | e]; cbn [run]; [| reflexivity].
  now destruct (handle req s).
Qed.


(** X24: creating a record and removing it leaves the table as it
    was.  When [POST /shorten] has created the code [c], a
    [DELETE /stats/:code] of [c] that follows answers that it deleted
    the record, and the table is again the table from before the
    two requests. *)
Theorem shorten_then_remove_restores url now draws set_ok s su c n s'
  del_ok :
  shorten url now draws set_ok s
  = Reply (Json 201 (ShortenBody su c n)) s' ->
  fst (remove c del_ok s') = Json 200 (MessageBody "Deleted")
  /\ urls (snd (remove c del_ok s')) = urls s.
Proof.
  intros H. apply shorten_cases in H.
  inversion H as [| | u n' c' Hu Hne Hn Hn' Hf Hc]; subst; clear H.
  apply freshCode_unused in Hc.
  set (s' := cacheSet set_ok c n (set_urls (urls s ++ [new_row c n now]) s)).
  assert (Hurls : urls s' = urls s ++ [new_row c n now])
    by (subst s'; now rewrite urls_cacheSet).
  assert (Hrow : stmts.findByCode c (urls s') = Some (new_row c n now)).
  { rewrite Hurls, findByCode_app, Hc. unfold stmts.findByCode. cbn.
    now rewrite String.eqb_refl. }
  split.
  - pose proof (deleteByCode_present _ _ _ Hrow) as Hn0. unfold remove.
    destruct (stmts.deleteByCode c (urls s')) as [rows k]. cbn [snd] in Hn0.
    now rewrite Hn0.
  - rewrite urls_remove, Hurls. unfold stmts.deleteByCode. cbn [fst].
    rewrite List.filter_app. cbn. rewrite String.eqb_refl. cbn.
    rewrite app_nil_r. apply filter_all_true. intros r Hr.
    apply findByCode_None in Hc.
    destruct (String.eqb_spec (code r) c) as [E | E]; [| reflexivity].
    exfalso. apply Hc. subst c. now apply in_map.
Qed.

End SequenceProperties.

(** ** The run of [Demo], once more *)

Module Runs.

Definition github : UrlRow :=
  new_row "AAECAw" "https://github.com/" Demo.now.

(** [Demo.created] with the connection to Redis lost. *)
Definition offline : State := on_event RedisError Demo.created.

Lemma no_idna_stable : WHATWG.toASCII_stable Demo.no_idna.
Proof. intros d a _ H. discriminate H. Qed.

Lemma coherent_created : coherent_run Demo.no_idna Demo.PORT Demo.created.
Proof.
  apply coherent_request
    with (req := Shorten (JsString "github.com") Demo.now [Demo.draw] true)
         (s := Demo.started)
         (r := Json 201 (ShortenBody "http://localhost:3000/AAECAw" "AAECAw"
                           "https://github.com/")).
  - apply coherent_event, coherent_initial.
  - exact I.
  - exact Demo.shorten_github.
Qed.

Lemma sqlite_only_created :
  SqliteOnly.reachable Demo.no_idna [github].
Proof.
  apply SqliteOnly.reachable_request
    with (req := SqliteOnly.Shorten (JsString "github.com") Demo.now
                   [Demo.draw])
         (rows := [])
         (r := Json 201 (ShortenBody "http://localhost:3000/AAECAw" "AAECAw"
                           "https://github.com/")).
  - apply SqliteOnly.reachable_initial.
  - vm_compute. reflexivity.
Qed.

End Runs.

Lemma generateCode_injective_witness :
  generateCode Demo.draw = "AAECAw"%string
  /\ (x00, x01, x02, x03)%byte = Demo.draw.
Proof.
  split; [reflexivity |].
  apply (generateCode_injective (x00, x01, x02, x03)%byte Demo.draw).
  reflexivity.
Defined.

Lemma normalizeUrl_result_http_witness :
  (String.prefix "http://" "https://github.com/" = true
   \/ String.prefix "https://" "https://github.com/" = true)
  /\ "https://github.com/"%string <> ""%string.
Proof.
  apply (normalizeUrl_result_http Demo.no_idna "github.com").
  vm_compute. reflexivity.
Defined.


Lemma cache_agrees_with_table_witness : cache_coherent Demo.created.
Proof.
  apply (cache_agrees_with_table Demo.no_idna Demo.PORT).
  apply coherent_request
    with (req := Shorten (JsString "github.com") Demo.now [Demo.draw] true)
         (s := Demo.started)
         (r := Json 201 (ShortenBody "http://localhost:3000/AAECAw" "AAECAw"
                           "https://github.com/")).
  - apply coherent_event, coherent_initial.
  - exact I.
  - vm_compute. reflexivity.
Defined.

Lemma resolve_exact_witness :
  fst (resolve "AAECAw" true true Demo.created)
  = Redirect "https://github.com/"
  /\ resolve "zzzzzz" true true Demo.created = (not_found, Demo.created).
Proof.
  split.
  - exact (proj1 (resolve_exact Demo.no_idna Demo.PORT "AAECAw" true true
                    Demo.created Runs.coherent_created)).
  - exact (resolve_exact Demo.no_idna Demo.PORT "zzzzzz" true true
             Demo.created Runs.coherent_created).
Defined.

Lemma fallback_to_sqlite_witness :
  table_outcome
    (handle Demo.no_idna SqliteOnly.PORT (Resolve "AAECAw" true true)
       Runs.offline)
  = SqliteOnly.handle Demo.no_idna (SqliteOnly.Resolve "AAECAw")
      (urls Runs.offline).
Proof.
  apply (fallback_to_sqlite Demo.no_idna (Resolve "AAECAw" true true)
           Runs.offline).
  reflexivity.
Defined.

Lemma cache_transparent_witness :
  table_outcome
    (handle Demo.no_idna SqliteOnly.PORT (Resolve "AAECAw" true true)
       Demo.created)
  = SqliteOnly.handle Demo.no_idna (SqliteOnly.Resolve "AAECAw")
      (urls Demo.created).
Proof.
  apply (cache_transparent Demo.no_idna (Resolve "AAECAw" true true)
           Demo.created).
  exact Runs.coherent_created.
Defined.


Lemma reachable_rows_well_formed_witness :
  String.length (code Runs.github) = 6%nat
  /\ forallb in_alphabet (list_ascii_of_string (code Runs.github)) = true
  /\ (String.prefix "http://" (original_url Runs.github) = true
      \/ String.prefix "https://" (original_url Runs.github) = true).
Proof.
  pose proof (reachable_rows_well_formed Demo.no_idna Demo.PORT Demo.created
                Demo.reachable_created) as H.
  exact (List.Forall_inv H).
Defined.


Lemma stats_agree_with_stats_code_witness :
  exists es,
    stats Demo.PORT Demo.created = Json 200 (EntriesBody es)
    /\ length es = 1%nat
    /\ forall e, In e es
                 <-> stats_code Demo.PORT (entry_code e) Demo.created
                     = Json 200 (EntryBody e).
Proof.
  apply (stats_agree_with_stats_code Demo.no_idna Demo.PORT Demo.created).
  exact Demo.reachable_created.
Defined.

Lemma shorten_total_witness :
  exists r s',
    shorten Demo.no_idna Demo.PORT (JsString "github.com") Demo.now
      [Demo.draw] true Demo.started = Reply r s'.
Proof.
  apply (proj2 (shorten_total Demo.no_idna Demo.PORT (JsString "github.com")
                  Demo.now [Demo.draw] true Demo.started)).
  exists Demo.draw. split; [left |]; reflexivity.
Defined.

Lemma shorten_frame_witness :
  redisConnected Demo.created = redisConnected Demo.started
  /\ length (urls Demo.created) = S (length (urls Demo.started)).
Proof.
  pose proof (shorten_frame Demo.no_idna Demo.PORT (JsString "github.com")
                Demo.now [Demo.draw] true Demo.started 201
                (ShortenBody "http://localhost:3000/AAECAw" "AAECAw"
                   "https://github.com/")
                Demo.created Demo.shorten_github) as (H1 & _ & H3).
  split; [exact H1 | exact H3].
Defined.

Lemma cache_helpers_round_trip_witness :
  cacheGet true "zzzzzz" (cacheSet true "zzzzzz" "https://example.com/"
                            Demo.created)
  = Some "https://example.com/"%string
  /\ cacheGet true "AAECAw" (cacheDel true "AAECAw" Demo.created) = None.
Proof.
  pose proof (cache_helpers_round_trip "zzzzzz" "AAECAw"
                "https://example.com/" Demo.created eq_refl) as (H1 & _).
  pose proof (cache_helpers_round_trip "AAECAw" "zzzzzz"
                "https://example.com/" Demo.created eq_refl) as (_ & H2 & _).
  split; [exact H1 | exact H2].
Defined.

Lemma shorten_after_remove_witness :
  exists s',
    shorten Demo.no_idna Demo.PORT (JsString "GitHub.com")
      "2024-01-02T00:00:00.000Z" [Demo.draw] true
      (snd (remove "AAECAw" true Demo.created))
    = Reply (Json 201 (ShortenBody "http://localhost:3000/AAECAw" "AAECAw"
                         "https://github.com/")) s'
    /\ stmts.findByCode "AAECAw" (urls s')
       = Some (new_row "AAECAw" "https://github.com/"
                 "2024-01-02T00:00:00.000Z").
Proof.
  apply (shorten_after_remove Demo.no_idna Demo.PORT "AAECAw" true
           Demo.created Runs.github "GitHub.com" "2024-01-02T00:00:00.000Z"
           [Demo.draw] true "AAECAw").
  - exact Demo.reachable_created.
  - reflexivity.
  - vm_compute. reflexivity.
  - vm_compute. reflexivity.
Defined.




Lemma shorten_then_remove_restores_witness :
  urls (snd (remove "AAECAw" true Demo.created)) = urls Demo.started.
Proof.
  exact (proj2 (shorten_then_remove_restores Demo.no_idna Demo.PORT
                  (JsString "github.com") Demo.now [Demo.draw] true
                  Demo.started "http://localhost:3000/AAECAw" "AAECAw"
                  "https://github.com/" Demo.created true
                  Demo.shorten_github)).
Defined.

Lemma resolve_fills_cache_witness :
  cacheGet true "AAECAw" (snd (resolve "AAECAw" true true Demo.created))
  = Some "https://github.com/"%string.
Proof.
  apply (resolve_fills_cache Demo.no_idna Demo.PORT "AAECAw" Demo.created
           Runs.github Runs.coherent_created).
  - reflexivity.
  - reflexivity.
Defined.
